(** * A shallow embedding of the semantic analyzer

    The development follows [src/astnode.hpp] (symbol records, scopes, the
    node classes) and [src/semantic_analyzer.cpp] (the walker).  The walker
    is a C++ object with five mutable fields that reports problems by
    throwing; it is embedded as a state-and-exception monad over a record
    of those five fields.  A throw keeps the state it was raised in, because
    nothing in the source catches an exception or runs a guard while the
    stack unwinds.  The walk reads the tree and never changes it, so
    trees are values. *)

From stdpp Require Import base option list strings gmap.

Local Open Scope string_scope.
Local Open Scope list_scope.

(** ** Types of the language *)

(** Modelled from the spec: [data_type.hpp] is not among the sources.  The
    spec (section 3.1) gives the lattice four members, and the sources use
    exactly the enumerators [INT], [FLOAT], [BOOL] and [IOTA], the last one
    being the sentinel the spec calls Unit. *)
Inductive DataType : Type := INT | FLOAT | BOOL | IOTA.

#[global] Instance DataType_eq_dec : EqDecision DataType.
Proof. solve_decision. Defined.

(** ** Symbols and scopes ([astnode.hpp], lines 20-86) *)

Inductive SymbolKind : Type := VARIABLE | CONSTANT | FUNCTION.

#[global] Instance SymbolKind_eq_dec : EqDecision SymbolKind.
Proof. solve_decision. Defined.

Record SymbolInfo : Type := MkSymbolInfo {
  sym_name : string;
  sym_type : DataType;
  sym_kind : SymbolKind;
  sym_isConstant : bool;
  sym_paramTypes : list DataType;
  sym_returnType : DataType
}.

#[global] Instance SymbolInfo_eq_dec : EqDecision SymbolInfo.
Proof. solve_decision. Defined.

(** The four-argument constructor [SymbolInfo(n, t, k, constant)]. *)
Definition SymbolInfo_of (n : string) (t : DataType) (k : SymbolKind)
    (constant : bool) : SymbolInfo :=
  {| sym_name := n; sym_type := t; sym_kind := k; sym_isConstant := constant;
     sym_paramTypes := []; sym_returnType := IOTA |}.

(** The symbol [analyzeProgram] builds for a hoisted function: a default
    constructed record whose name, kind, return type and parameter types
    are then assigned. *)
Definition SymbolInfo_function (n : string) (params : list DataType)
    (ret : DataType) : SymbolInfo :=
  {| sym_name := n; sym_type := IOTA; sym_kind := FUNCTION;
     sym_isConstant := false; sym_paramTypes := params;
     sym_returnType := ret |}.

(** A scope owns a table and holds a shared handle on its parent.  Symbols
    are only ever added through the walker's current scope, and a scope
    that is an ancestor of the current one is not current itself, so no
    scope changes while a handle on it is held by a child or saved by a
    rule: the chain is kept as a value, and [restore_is_pop] below checks
    that the handle a rule puts back is the parent of the scope it
    leaves. *)
#[local] Unset Elimination Schemes.
Inductive Scope : Type :=
  MkScope { table : gmap string SymbolInfo; parent : option Scope }.
#[local] Set Elimination Schemes.

(** [std::make_shared<Scope>(p)] *)
Definition new_scope (p : option Scope) : Scope :=
  {| table := ∅; parent := p |}.

Definition existsLocal (sc : Scope) (name : string) : bool :=
  bool_decide (is_Some (table sc !! name)).

Definition lookupLocal (sc : Scope) (name : string) : option SymbolInfo :=
  table sc !! name.

(** [Scope::lookup]; a null result is [None]. *)
Fixpoint lookup_sym (sc : Scope) (name : string) : option SymbolInfo :=
  match table sc !! name with
  | Some info => Some info
  | None =>
      match parent sc with
      | Some p => lookup_sym p name
      | None => None
      end
  end.

(** [addSymbol] returns whether it inserted, together with the scope after
    the call. *)
Definition addSymbol (sc : Scope) (name : string) (info : SymbolInfo)
    : bool * Scope :=
  match table sc !! name with
  | Some _ => (false, sc)
  | None => (true, {| table := <[name := info]> (table sc);
                      parent := parent sc |})
  end.

(** ** Syntax trees ([astnode.hpp], lines 94-559) *)

Definition toDataType (typeName : string) : DataType :=
  if bool_decide (typeName = "int") then INT
  else if bool_decide (typeName = "float") then FLOAT
  else if bool_decide (typeName = "bool") then BOOL
  else IOTA.

Inductive LiteralType : Type := LitINT | LitFLOAT | LitBOOL.

(** Expression nodes.  The payload of a literal plays no part in the
    analysis: the [double] of a [FloatNode] is stood for by an integer,
    and of a [LiteralNode] only the tag is kept.  The [dataType] slot of a
    node is left out: the walk never reads it, and the only writes are in
    the visitor entry points for the three literal classes. *)
#[local] Unset Elimination Schemes.
Inductive ExprNode : Type :=
  | IntegerNode (value : Z)
  | FloatNode (value : Z)
  | BoolNode (value : bool)
  | LiteralNode (litType : LiteralType)
  | IdentifierNode (name : string)
  | BinaryOpNode (lhs : ExprNode) (op : string) (rhs : ExprNode)
  | UnaryOpNode (op : string) (operand : ExprNode)
  | FunctionCallNode (functionName : string) (arguments : list ExprNode).

(** [struct Parameter] (the name is reserved here). *)
Record Param : Type := MkParam {
  param_name : string;
  param_type : DataType
}.

(** Every other concrete node class.  A block is a [std::vector<ASTNode*>],
    so an item of a block may be any node at all; the walker finds out what
    it holds with [dynamic_cast].  Fields typed [StmtNode*], [DeclNode*] or
    [CodeItemNode*] in the source are typed [ASTNode] here; a pointer that
    the source tests against null is an [option]. *)
Inductive ASTNode : Type :=
  | ExprItem (e : ExprNode)
  | PrintStmtNode (expression : ExprNode)
  | IfStmtNode (condition : ExprNode) (thenItems elseItems : list ASTNode)
  | WhileStmtNode (condition : ExprNode) (bodyItems : list ASTNode)
  | AssignmentStmtNode (variableName : string) (value : ExprNode)
  | ReturnStmtNode (value : option ExprNode)
  | BlockNode (items : list ASTNode)
  | VarDeclNode (isConstant : bool) (name : string) (typeNode : string)
      (initializer : option ExprNode)
  | AssignmentNode (variableName : string) (value : ExprNode)
  | IfNode (condition : ExprNode) (thenBranch : ASTNode)
      (elseBranch : option ASTNode)
  | WhileNode (condition : ExprNode) (body : ASTNode)
  | ReturnNode (value : option ExprNode)
  | PrintNode (expression : ExprNode)
  | ExprStmtNode (expression : ExprNode)
  | FunctionDeclNode (name : string) (parameters : list Param)
      (returnType : DataType) (bodyItems : list ASTNode)
  | ProgramNode (declarations : list ASTNode).
#[local] Set Elimination Schemes.

(** [dynamic_cast<StmtNode*>] succeeds on the classes derived from
    [StmtNode]. *)
Definition isStmtNode (node : ASTNode) : bool :=
  match node with
  | PrintStmtNode _ | IfStmtNode _ _ _ | WhileStmtNode _ _
  | AssignmentStmtNode _ _ | ReturnStmtNode _ | BlockNode _
  | AssignmentNode _ _ | IfNode _ _ _ | WhileNode _ _ | ReturnNode _
  | PrintNode _ | ExprStmtNode _ => true
  | _ => false
  end.

(** The alternate statement family of the tree schema. *)
Definition isAlternateStmt (node : ASTNode) : bool :=
  match node with
  | IfNode _ _ _ | WhileNode _ _ | ReturnNode _ | PrintNode _
  | AssignmentNode _ _ => true
  | _ => false
  end.

(** ** Diagnostics *)

(** Modelled from the spec: [exception.hpp] is not among the sources.  The
    enumerators are the ones [semantic_analyzer.cpp] throws; they are the
    eighteen kinds of the spec's table (section 4.8). *)
Inductive SemanticErrorType : Type :=
  | REDECLARED_FUNCTION | REDECLARED_IDENTIFIER | UNDECLARED_IDENTIFIER
  | UNDECLARED_FUNCTION | FUNCTION_USED_AS_VARIABLE | NOT_A_FUNCTION
  | VAR_DECL_TYPE_MISMATCH | VAR_ASSIGN_TYPE_MISMATCH
  | VAR_ASSIGN_TO_CONSTANT | WRONG_NUMBER_OF_ARGUMENTS | INVALID_SIGNATURE
  | INVALID_BINARY_OPERATION | INVALID_UNARY_OPERATION | CONDITION_NOT_BOOL
  | RETURN_TYPE_MISMATCH | RETURN_OUTSIDE_FUNCTION | MISSING_RETURN
  | UNREACHABLE_CODE.

(** Modelled from the spec: the context payload of [exception.hpp], one
    constructor for each factory the walker calls, holding the arguments of
    the call in their order. *)
Inductive SemanticErrorContext : Type :=
  | NoContext
  | CtxFunction (name : string)
  | CtxIdentifier (name : string)
  | CtxIdentifierTypeMismatch (name : string) (declared actual : DataType)
  | CtxReturnTypeMismatch (functionName : string)
      (expected actual : DataType)
  | CtxActualType (actual : DataType)
  | CtxInvalidOperationBetweenTypes (op : string) (l r : DataType)
  | CtxArgCount (name : string) (expected actual : nat)
  | CtxSignature (name : string) (expected actual : list DataType).

(** What can be thrown: a diagnostic about the analysed program, or the
    [std::runtime_error] the walker keeps for its own invariants. *)
Inductive Exn : Type :=
  | SemanticException (type : SemanticErrorType)
      (context : SemanticErrorContext)
  | runtime_error (what : string).

#[global] Instance SemanticErrorType_eq_dec : EqDecision SemanticErrorType.
Proof. solve_decision. Defined.
#[global] Instance SemanticErrorContext_eq_dec :
  EqDecision SemanticErrorContext.
Proof. solve_decision. Defined.
#[global] Instance Exn_eq_dec : EqDecision Exn.
Proof. solve_decision. Defined.

Inductive Outcome (A : Type) : Type :=
  | Normal (a : A)
  | Throw (e : Exn).
Arguments Normal {A} a.
Arguments Throw {A} e.

(** ** The walker's state ([semantic_analyzer.hpp], lines 14-19) *)

Record Analyzer : Type := MkAnalyzer {
  currentScope : Scope;
  currentFunction : string;
  currentFunctionReturnType : DataType;
  hasReturn : bool;
  isUnreachable : bool
}.

Definition set_currentScope (sc : Scope) (a : Analyzer) : Analyzer :=
  {| currentScope := sc; currentFunction := currentFunction a;
     currentFunctionReturnType := currentFunctionReturnType a;
     hasReturn := hasReturn a; isUnreachable := isUnreachable a |}.
Definition set_currentFunction (f : string) (a : Analyzer) : Analyzer :=
  {| currentScope := currentScope a; currentFunction := f;
     currentFunctionReturnType := currentFunctionReturnType a;
     hasReturn := hasReturn a; isUnreachable := isUnreachable a |}.
Definition set_currentFunctionReturnType (t : DataType) (a : Analyzer)
    : Analyzer :=
  {| currentScope := currentScope a; currentFunction := currentFunction a;
     currentFunctionReturnType := t;
     hasReturn := hasReturn a; isUnreachable := isUnreachable a |}.
Definition set_hasReturn (b : bool) (a : Analyzer) : Analyzer :=
  {| currentScope := currentScope a; currentFunction := currentFunction a;
     currentFunctionReturnType := currentFunctionReturnType a;
     hasReturn := b; isUnreachable := isUnreachable a |}.
Definition set_isUnreachable (b : bool) (a : Analyzer) : Analyzer :=
  {| currentScope := currentScope a; currentFunction := currentFunction a;
     currentFunctionReturnType := currentFunctionReturnType a;
     hasReturn := hasReturn a; isUnreachable := b |}.

(** ** The monad of the walker *)

Definition M (A : Type) : Type := Analyzer → Outcome A * Analyzer.

Definition ret {A} (a : A) : M A := λ s, (Normal a, s).
Definition throw {A} (e : Exn) : M A := λ s, (Throw e, s).
Definition bind {A B} (m : M A) (k : A → M B) : M B :=
  λ s, match m s with
       | (Normal a, s') => k a s'
       | (Throw e, s') => (Throw e, s')
       end.
Definition get : M Analyzer := λ s, (Normal s, s).
Definition modify (f : Analyzer → Analyzer) : M unit :=
  λ s, (Normal tt, f s).
Definition lift {A} (o : Outcome A) : M A := λ s, (o, s).

Declare Scope walker_scope.
Delimit Scope walker_scope with walker.
Notation "x <- m ;; k" := (bind m (λ x, k))
  (at level 100, m at next level, right associativity) : walker_scope.
Notation "m ;; k" := (bind m (λ _, k))
  (at level 100, right associativity) : walker_scope.
Notation "'when' b 'then' m" := (if b then m else ret tt)
  (at level 100, b at next level) : walker_scope.
Local Open Scope walker_scope.

Definition semantic_error {A} (t : SemanticErrorType)
    (c : SemanticErrorContext) : M A :=
  throw (SemanticException t c).

(** ** Type predicates ([semantic_analyzer.cpp], lines 34-75) *)

Definition stringToDataType (typeStr : string) : DataType :=
  if bool_decide (typeStr = "int") then INT
  else if bool_decide (typeStr = "float") then FLOAT
  else if bool_decide (typeStr = "bool") then BOOL
  else IOTA.

Definition isNumericType (type : DataType) : bool :=
  bool_decide (type = INT) || bool_decide (type = FLOAT).

Definition isComparable (type : DataType) : bool :=
  bool_decide (type = INT) || bool_decide (type = FLOAT)
  || bool_decide (type = BOOL).

Definition isAssignmentCompatible (target source : DataType) : bool :=
  if bool_decide (target = source) then true
  else if bool_decide (target = BOOL) && bool_decide (source = INT) then true
  else if bool_decide (target = FLOAT) && bool_decide (source = INT) then true
  else if bool_decide (target = INT) && bool_decide (source = BOOL) then true
  else false.

(** ** Expression typing ([analyzeExpr], lines 457-600)

    [analyzeExpr] reads the current scope and writes nothing, so it is a
    function of the scope. *)

Definition obind {A B} (o : Outcome A) (k : A → Outcome B) : Outcome B :=
  match o with
  | Normal a => k a
  | Throw e => Throw e
  end.

Definition raise {A} (t : SemanticErrorType) (c : SemanticErrorContext)
    : Outcome A :=
  Throw (SemanticException t c).

(** [symbol->paramTypes[i]]; the call site compares the two sizes before
    the loop, so the index is in range whenever this is evaluated. *)
Definition paramType_at (paramTypes : list DataType) (i : nat) : DataType :=
  default IOTA (paramTypes !! i).

Definition is_arith_op (op : string) : bool :=
  bool_decide (op = "+") || bool_decide (op = "-")
  || bool_decide (op = "*") || bool_decide (op = "/").

Definition is_order_op (op : string) : bool :=
  bool_decide (op = "<") || bool_decide (op = ">")
  || bool_decide (op = "<=") || bool_decide (op = ">=").

Definition is_equality_op (op : string) : bool :=
  bool_decide (op = "==") || bool_decide (op = "!=").

(** The loop over the arguments of a call (lines 578-594), for a typing
    function [typeOf] of one argument: [i] is the loop index and
    [actualTypes] the vector filled so far. *)
Definition check_arguments (typeOf : ExprNode → Outcome DataType)
    (functionName : string) (paramTypes : list DataType)
    (returnType : DataType)
    : list ExprNode → nat → list DataType → Outcome DataType :=
  fix loop (arguments : list ExprNode) (i : nat)
      (actualTypes : list DataType) : Outcome DataType :=
    match arguments with
    | [] => Normal returnType
    | arg :: rest =>
        obind (typeOf arg) (λ argType,
          let actualTypes := actualTypes ++ [argType] in
          if negb (isAssignmentCompatible (paramType_at paramTypes i) argType)
          then raise INVALID_SIGNATURE
                 (CtxSignature functionName paramTypes actualTypes)
          else loop rest (S i) actualTypes)
    end.

Fixpoint analyzeExpr (sc : Scope) (expr : ExprNode) : Outcome DataType :=
  match expr with
  | IntegerNode _ => Normal INT
  | FloatNode _ => Normal FLOAT
  | BoolNode _ => Normal BOOL
  | IdentifierNode name =>
      match lookup_sym sc name with
      | None => raise UNDECLARED_IDENTIFIER (CtxIdentifier name)
      | Some symbol =>
          if bool_decide (sym_kind symbol = FUNCTION)
          then raise FUNCTION_USED_AS_VARIABLE (CtxFunction name)
          else Normal (sym_type symbol)
      end
  | BinaryOpNode lhs op rhs =>
      obind (analyzeExpr sc lhs) (λ leftType,
      obind (analyzeExpr sc rhs) (λ rightType,
        if is_arith_op op then
          if negb (isNumericType leftType) || negb (isNumericType rightType)
          then raise INVALID_BINARY_OPERATION
                 (CtxInvalidOperationBetweenTypes op leftType rightType)
          else if bool_decide (leftType = FLOAT)
                  || bool_decide (rightType = FLOAT)
               then Normal FLOAT
               else Normal INT
        else if is_order_op op then
          if negb (isNumericType leftType) || negb (isNumericType rightType)
          then raise INVALID_BINARY_OPERATION
                 (CtxInvalidOperationBetweenTypes op leftType rightType)
          else Normal BOOL
        else if is_equality_op op then
          if negb (bool_decide (leftType = rightType))
          then raise INVALID_BINARY_OPERATION
                 (CtxInvalidOperationBetweenTypes op leftType rightType)
          else Normal BOOL
        else Normal IOTA))
  | UnaryOpNode op operand =>
      obind (analyzeExpr sc operand) (λ operandType,
        if bool_decide (op = "-") then
          if negb (isNumericType operandType)
          then raise INVALID_UNARY_OPERATION (CtxActualType operandType)
          else Normal operandType
        else Normal IOTA)
  | FunctionCallNode functionName arguments =>
      match lookup_sym sc functionName with
      | None => raise UNDECLARED_FUNCTION (CtxFunction functionName)
      | Some symbol =>
          if negb (bool_decide (sym_kind symbol = FUNCTION))
          then raise NOT_A_FUNCTION (CtxIdentifier functionName)
          else if negb (bool_decide
                    (length arguments = length (sym_paramTypes symbol)))
          then raise WRONG_NUMBER_OF_ARGUMENTS
                 (CtxArgCount functionName (length (sym_paramTypes symbol))
                    (length arguments))
          else check_arguments (analyzeExpr sc) functionName
                 (sym_paramTypes symbol) (sym_returnType symbol)
                 arguments 0 []
      end
  | LiteralNode _ => Normal IOTA
  end.

(** ** Definite return ([checkPathsReturn], lines 603-620) *)

(** The loop of [checkPathsReturn] over a block, for a test [returns] of
    one item. *)
Definition paths_loop (returns : ASTNode → bool) : list ASTNode → bool :=
  fix loop (block : list ASTNode) : bool :=
    match block with
    | [] => false
    | item :: rest => if returns item then true else loop rest
    end.

(** The body of that loop: does this item make the loop return [true]? *)
Fixpoint item_returns (item : ASTNode) : bool :=
  match item with
  | ReturnStmtNode _ => true
  | IfStmtNode _ thenItems elseItems =>
      match elseItems with
      | [] => false
      | _ :: _ =>
          let thenReturns := paths_loop item_returns thenItems in
          let elseReturns := paths_loop item_returns elseItems in
          thenReturns && elseReturns
      end
  | _ => false
  end.

Definition checkPathsReturn (block : list ASTNode) : bool :=
  paths_loop item_returns block.

Definition isTerminator (node : ASTNode) : bool :=
  match node with
  | ReturnStmtNode _ => true
  | _ => false
  end.

(** ** Statements and declarations without sub-blocks *)

Definition analyzeExprM (expr : ExprNode) : M DataType :=
  s <- get ;; lift (analyzeExpr (currentScope s) expr).

(** The test every rule starts with. *)
Definition check_reachable : M unit :=
  s <- get ;;
  if isUnreachable s then semantic_error UNREACHABLE_CODE NoContext
  else ret tt.

(** The duplicate test shared by [analyzeProgram] and [analyzeVarDecl]:
    [existsLocal], then [lookupLocal] to tell a function from the rest. *)
Definition check_not_declared (name : string) : M unit :=
  s <- get ;;
  if existsLocal (currentScope s) name then
    match lookupLocal (currentScope s) name with
    | Some existing =>
        if bool_decide (sym_kind existing = FUNCTION)
        then semantic_error REDECLARED_FUNCTION (CtxFunction name)
        else semantic_error REDECLARED_IDENTIFIER (CtxIdentifier name)
    | None => semantic_error REDECLARED_IDENTIFIER (CtxIdentifier name)
    end
  else ret tt.

(** [currentScope->addSymbol(name, info)], the result being dropped as it
    is at every call site. *)
Definition add_to_current (name : string) (info : SymbolInfo) : M unit :=
  modify (λ s, set_currentScope (addSymbol (currentScope s) name info).2 s).

(** Lines 184-236. *)
Definition analyzeVarDecl (isConstant : bool) (name : string)
    (typeNode : string) (initializer : option ExprNode) : M unit :=
  check_reachable ;;
  check_not_declared name ;;
  let declaredType := toDataType typeNode in
  match initializer with
  | Some init =>
      initType <- analyzeExprM init ;;
      if negb (isAssignmentCompatible declaredType initType)
      then semantic_error VAR_DECL_TYPE_MISMATCH
             (CtxIdentifierTypeMismatch name declaredType initType)
      else ret tt
  | None => ret tt
  end ;;
  add_to_current name (SymbolInfo_of name declaredType VARIABLE isConstant).

(** Lines 254-299. *)
Definition analyzeAssignment (variableName : string) (value : ExprNode)
    : M unit :=
  check_reachable ;;
  s <- get ;;
  match lookup_sym (currentScope s) variableName with
  | None => semantic_error UNDECLARED_IDENTIFIER (CtxIdentifier variableName)
  | Some symbol =>
      if bool_decide (sym_kind symbol = FUNCTION)
      then semantic_error FUNCTION_USED_AS_VARIABLE (CtxFunction variableName)
      else if sym_isConstant symbol
      then semantic_error VAR_ASSIGN_TO_CONSTANT (CtxIdentifier variableName)
      else
        valueType <- analyzeExprM value ;;
        if negb (isAssignmentCompatible (sym_type symbol) valueType)
        then semantic_error VAR_ASSIGN_TYPE_MISMATCH
               (CtxIdentifierTypeMismatch variableName (sym_type symbol)
                  valueType)
        else ret tt
  end.

(** Lines 302-342; [currentFunction.empty()] is the test against the empty
    string. *)
Definition analyzeReturn (value : option ExprNode) : M unit :=
  check_reachable ;;
  s <- get ;;
  if bool_decide (currentFunction s = "")
  then semantic_error RETURN_OUTSIDE_FUNCTION NoContext
  else
    match value with
    | Some e =>
        returnType <- analyzeExprM e ;;
        if negb (isAssignmentCompatible (currentFunctionReturnType s)
                   returnType)
        then semantic_error RETURN_TYPE_MISMATCH
               (CtxReturnTypeMismatch (currentFunction s)
                  (currentFunctionReturnType s) returnType)
        else ret tt
    | None =>
        if negb (bool_decide (currentFunctionReturnType s = IOTA))
        then semantic_error RETURN_TYPE_MISMATCH
               (CtxReturnTypeMismatch (currentFunction s)
                  (currentFunctionReturnType s) IOTA)
        else ret tt
    end ;;
    modify (set_hasReturn true) ;;
    modify (set_isUnreachable true).

(** Lines 345-354. *)
Definition analyzePrint (expression : ExprNode) : M unit :=
  check_reachable ;;
  _ <- analyzeExprM expression ;;
  ret tt.

(** The condition of an [if] or a [while] (lines 365-372, 404-411). *)
Definition check_condition (condition : ExprNode) : M unit :=
  condType <- analyzeExprM condition ;;
  if negb (bool_decide (condType = BOOL))
  then semantic_error CONDITION_NOT_BOOL (CtxActualType condType)
  else ret tt.

(** ** The rules with sub-blocks

    [analyzeBlock], [analyzeStmt], [analyzeIf], [analyzeWhile] and
    [analyzeFunctionDecl] call one another.  They are written first over
    the rule [item] for one item of a block, which is the body of the loop
    of [analyzeBlock]; the recursion is closed below, by recursion on the
    tree. *)
Section Rules.
Variable item : ASTNode → M bool.

(** The loop of [analyzeBlock] (lines 426-449).  [item] answers whether
    it has set [blockUnreachable]. *)
Fixpoint block_loop (block : list ASTNode) (blockUnreachable : bool)
    : M unit :=
  match block with
  | [] => ret tt
  | it :: rest =>
      if blockUnreachable
      then semantic_error UNREACHABLE_CODE NoContext
      else
        terminated <- item it ;;
        block_loop rest (if terminated then true else blockUnreachable)
  end.

(** Lines 419-454. *)
Definition analyzeBlock_of (block : list ASTNode) (createNewScope : bool)
    : M unit :=
  s <- get ;;
  let parentScope := currentScope s in
  (if createNewScope
   then modify (set_currentScope (new_scope (Some parentScope)))
   else ret tt) ;;
  block_loop block false ;;
  (if createNewScope then modify (set_currentScope parentScope)
   else ret tt).

(** Lines 357-393. *)
Definition analyzeIf_of (condition : ExprNode)
    (thenItems elseItems : list ASTNode) : M unit :=
  check_reachable ;;
  check_condition condition ;;
  s <- get ;;
  let prevUnreachable := isUnreachable s in
  analyzeBlock_of thenItems true ;;
  s1 <- get ;;
  let thenUnreachable := isUnreachable s1 in
  modify (set_isUnreachable prevUnreachable) ;;
  match elseItems with
  | _ :: _ =>
      analyzeBlock_of elseItems true ;;
      s2 <- get ;;
      let elseUnreachable := isUnreachable s2 in
      if thenUnreachable && elseUnreachable
      then modify (set_isUnreachable true)
      else modify (set_isUnreachable prevUnreachable)
  | [] => modify (set_isUnreachable prevUnreachable)
  end.

(** Lines 396-416. *)
Definition analyzeWhile_of (condition : ExprNode)
    (bodyItems : list ASTNode) : M unit :=
  check_reachable ;;
  check_condition condition ;;
  s <- get ;;
  let prevUnreachable := isUnreachable s in
  analyzeBlock_of bodyItems true ;;
  modify (set_isUnreachable prevUnreachable).

(** Lines 239-251: a chain of casts with no final [else]. *)
Definition analyzeStmt_of (node : ASTNode) : M unit :=
  match node with
  | AssignmentStmtNode variableName value =>
      analyzeAssignment variableName value
  | ReturnStmtNode value => analyzeReturn value
  | PrintStmtNode expression => analyzePrint expression
  | IfStmtNode condition thenItems elseItems =>
      analyzeIf_of condition thenItems elseItems
  | WhileStmtNode condition bodyItems =>
      analyzeWhile_of condition bodyItems
  | _ => ret tt
  end.

(** The loop over the parameters (lines 145-160). *)
Fixpoint add_parameters (parameters : list Param) : M unit :=
  match parameters with
  | [] => ret tt
  | param :: rest =>
      s <- get ;;
      (if existsLocal (currentScope s) (param_name param)
       then semantic_error REDECLARED_IDENTIFIER
              (CtxIdentifier (param_name param))
       else ret tt) ;;
      add_to_current (param_name param)
        (SymbolInfo_of (param_name param) (param_type param) VARIABLE
           false) ;;
      add_parameters rest
  end.

(** The part of [analyzeFunctionDecl] before the check of the return
    paths (lines 130-163): it answers the five values saved at entry. *)
Definition enter_function (name : string) (parameters : list Param)
    (returnType : DataType) (bodyItems : list ASTNode) : M Analyzer :=
  saved <- get ;;
  modify (set_currentScope (new_scope (Some (currentScope saved)))) ;;
  modify (set_currentFunction name) ;;
  modify (set_currentFunctionReturnType returnType) ;;
  modify (set_hasReturn false) ;;
  modify (set_isUnreachable false) ;;
  add_parameters parameters ;;
  analyzeBlock_of bodyItems false ;;
  ret saved.

(** Lines 166-173. *)
Definition check_return_paths (name : string) (bodyItems : list ASTNode)
    : M unit :=
  s <- get ;;
  if negb (bool_decide (currentFunctionReturnType s = IOTA)) then
    if negb (checkPathsReturn bodyItems)
    then semantic_error MISSING_RETURN (CtxFunction name)
    else ret tt
  else ret tt.

(** Lines 176-180. *)
Definition restore_context (saved : Analyzer) : M unit :=
  modify (set_currentFunction (currentFunction saved)) ;;
  modify (set_currentFunctionReturnType
            (currentFunctionReturnType saved)) ;;
  modify (set_hasReturn (hasReturn saved)) ;;
  modify (set_isUnreachable (isUnreachable saved)) ;;
  modify (set_currentScope (currentScope saved)).

(** Lines 128-181. *)
Definition analyzeFunctionDecl_of (name : string) (parameters : list Param)
    (returnType : DataType) (bodyItems : list ASTNode) : M unit :=
  saved <- enter_function name parameters returnType bodyItems ;;
  check_return_paths name bodyItems ;;
  restore_context saved.

(** The body of the loop of [analyzeBlock] after the test of
    [blockUnreachable] (lines 438-448). *)
Definition item_of (it : ASTNode) : M bool :=
  match it with
  | FunctionDeclNode name parameters returnType bodyItems =>
      analyzeFunctionDecl_of name parameters returnType bodyItems ;;
      ret false
  | VarDeclNode isConstant name typeNode initializer =>
      analyzeVarDecl isConstant name typeNode initializer ;;
      ret false
  | _ =>
      if isStmtNode it then
        analyzeStmt_of it ;;
        if isTerminator it
        then modify (set_isUnreachable true) ;; ret true
        else ret false
      else ret false
  end.
End Rules.

Fixpoint analyzeItem (it : ASTNode) : M bool := item_of analyzeItem it.

Definition analyzeBlock := analyzeBlock_of analyzeItem.
Definition analyzeIf := analyzeIf_of analyzeItem.
Definition analyzeWhile := analyzeWhile_of analyzeItem.
Definition analyzeStmt := analyzeStmt_of analyzeItem.
Definition analyzeFunctionDecl := analyzeFunctionDecl_of analyzeItem.

(** ** The program walk ([analyzeProgram], lines 78-125) *)

(** First pass (lines 83-115): only function declarations are looked at. *)
Fixpoint hoist (declarations : list ASTNode) : M unit :=
  match declarations with
  | [] => ret tt
  | decl :: rest =>
      match decl with
      | FunctionDeclNode name parameters returnType _ =>
          check_not_declared name ;;
          add_to_current name
            (SymbolInfo_function name (param_type <$> parameters) returnType)
      | _ => ret tt
      end ;;
      hoist rest
  end.

(** Second pass (lines 118-124). *)
Fixpoint walk (declarations : list ASTNode) : M unit :=
  match declarations with
  | [] => ret tt
  | decl :: rest =>
      match decl with
      | FunctionDeclNode name parameters returnType bodyItems =>
          analyzeFunctionDecl name parameters returnType bodyItems
      | VarDeclNode isConstant name typeNode initializer =>
          analyzeVarDecl isConstant name typeNode initializer
      | _ => ret tt
      end ;;
      walk rest
  end.

Definition analyzeProgram (declarations : list ASTNode) : M unit :=
  modify (set_currentScope (new_scope None)) ;;
  hoist declarations ;;
  walk declarations.

(** [analyze] (lines 5-16); a null root is [None]. *)
Definition analyze (root : option ASTNode) : M unit :=
  match root with
  | None => throw (runtime_error "AST root is null")
  | Some (ProgramNode declarations) => analyzeProgram declarations
  | Some _ => throw (runtime_error "Root is not a ProgramNode")
  end.

(** The walker as its constructor leaves it (lines 43-46 of the header).
    The constructor sets [currentScope] to null and [analyzeProgram], where
    every walk starts, replaces it before anything reads it; the embedding
    keeps a scope in the field at all times and starts with an empty one. *)
Definition initial : Analyzer :=
  {| currentScope := new_scope None; currentFunction := "";
     currentFunctionReturnType := IOTA; hasReturn := false;
     isUnreachable := false |}.

(** The visitor entry points for statement nodes (lines 628-706), which
    [accept] reaches; the walk above never calls them. *)
Definition visit (node : ASTNode) : M unit :=
  match node with
  | PrintStmtNode expression => _ <- analyzeExprM expression ;; ret tt
  | IfStmtNode condition thenItems elseItems =>
      analyzeIf condition thenItems elseItems
  | WhileStmtNode condition bodyItems => analyzeWhile condition bodyItems
  | AssignmentStmtNode variableName value =>
      analyzeAssignment variableName value
  | ReturnStmtNode value => analyzeReturn value
  | ProgramNode declarations => analyzeProgram declarations
  | FunctionDeclNode name parameters returnType bodyItems =>
      analyzeFunctionDecl name parameters returnType bodyItems
  | VarDeclNode isConstant name typeNode initializer =>
      analyzeVarDecl isConstant name typeNode initializer
  | BlockNode items => analyzeBlock items false
  | IfNode _ _ _ =>
      throw (runtime_error
               "IfNode should not be encountered in semantic analysis")
  | WhileNode _ _ =>
      throw (runtime_error
               "WhileNode should not be encountered in semantic analysis")
  | ReturnNode _ =>
      throw (runtime_error
               "ReturnNode should not be encountered in semantic analysis")
  | PrintNode _ =>
      throw (runtime_error
               "PrintNode should not be encountered in semantic analysis")
  | AssignmentNode _ _ =>
      throw (runtime_error
               "AssignmentNode should not be encountered in semantic analysis")
  | ExprStmtNode expression => _ <- analyzeExprM expression ;; ret tt
  | ExprItem e =>
      match e with
      | BinaryOpNode _ _ _ | UnaryOpNode _ _ | FunctionCallNode _ _ =>
          _ <- analyzeExprM e ;; ret tt
      | _ => ret tt
      end
  end.


(** ** Induction principles

    The node types recurse through [list], so the principles are written
    by hand.  The one for [ASTNode] follows the walk: it gives a hypothesis
    for the blocks the walker enters (the branches of an [IfStmtNode], the
    body of a [WhileStmtNode] and of a [FunctionDeclNode]) and for nothing
    else. *)
Section ExprNode_ind.
Variable P : ExprNode → Prop.
Hypothesis H_int : ∀ v, P (IntegerNode v).
Hypothesis H_float : ∀ v, P (FloatNode v).
Hypothesis H_bool : ∀ v, P (BoolNode v).
Hypothesis H_lit : ∀ t, P (LiteralNode t).
Hypothesis H_id : ∀ name, P (IdentifierNode name).
Hypothesis H_bin : ∀ l op r, P l → P r → P (BinaryOpNode l op r).
Hypothesis H_un : ∀ op e, P e → P (UnaryOpNode op e).
Hypothesis H_call : ∀ f args, Forall P args → P (FunctionCallNode f args).

Fixpoint ExprNode_ind (e : ExprNode) : P e :=
  match e with
  | IntegerNode v => H_int v
  | FloatNode v => H_float v
  | BoolNode v => H_bool v
  | LiteralNode t => H_lit t
  | IdentifierNode name => H_id name
  | BinaryOpNode l op r => H_bin l op r (ExprNode_ind l) (ExprNode_ind r)
  | UnaryOpNode op e => H_un op e (ExprNode_ind e)
  | FunctionCallNode f args =>
      H_call f args
        ((fix all (l : list ExprNode) : Forall P l :=
            match l with
            | [] => List.Forall_nil P
            | x :: r => List.Forall_cons P x r (ExprNode_ind x) (all r)
            end) args)
  end.
End ExprNode_ind.

(** Nodes whose sub-blocks the walker enters. *)
Definition has_blocks (it : ASTNode) : bool :=
  match it with
  | IfStmtNode _ _ _ | WhileStmtNode _ _ | FunctionDeclNode _ _ _ _ => true
  | _ => false
  end.

Section ASTNode_walk_ind.
Variable P : ASTNode → Prop.
Hypothesis H_if : ∀ c t e, Forall P t → Forall P e → P (IfStmtNode c t e).
Hypothesis H_while : ∀ c b, Forall P b → P (WhileStmtNode c b).
Hypothesis H_fun : ∀ n ps r b, Forall P b → P (FunctionDeclNode n ps r b).
Hypothesis H_leaf : ∀ it, has_blocks it = false → P it.

Fixpoint ASTNode_walk_ind (it : ASTNode) : P it :=
  let all :=
    fix all (l : list ASTNode) : Forall P l :=
      match l with
      | [] => List.Forall_nil P
      | x :: r => List.Forall_cons P x r (ASTNode_walk_ind x) (all r)
      end in
  match it with
  | IfStmtNode c t e => H_if c t e (all t) (all e)
  | WhileStmtNode c b => H_while c b (all b)
  | FunctionDeclNode n ps r b => H_fun n ps r b (all b)
  | ExprItem e => H_leaf (ExprItem e) eq_refl
  | PrintStmtNode e => H_leaf (PrintStmtNode e) eq_refl
  | AssignmentStmtNode x e => H_leaf (AssignmentStmtNode x e) eq_refl
  | ReturnStmtNode v => H_leaf (ReturnStmtNode v) eq_refl
  | BlockNode l => H_leaf (BlockNode l) eq_refl
  | VarDeclNode c x t i => H_leaf (VarDeclNode c x t i) eq_refl
  | AssignmentNode x e => H_leaf (AssignmentNode x e) eq_refl
  | IfNode c t e => H_leaf (IfNode c t e) eq_refl
  | WhileNode c b => H_leaf (WhileNode c b) eq_refl
  | ReturnNode v => H_leaf (ReturnNode v) eq_refl
  | PrintNode e => H_leaf (PrintNode e) eq_refl
  | ExprStmtNode e => H_leaf (ExprStmtNode e) eq_refl
  | ProgramNode l => H_leaf (ProgramNode l) eq_refl
  end.
End ASTNode_walk_ind.

(** ** Vocabulary of the statements *)

(** The operator strings [analyzeExpr] tests a [BinaryOpNode] against. *)
Definition known_binary_ops : list string :=
  ["+"; "-"; "*"; "/"; "<"; ">"; "<="; ">="; "=="; "!="].

Definition unreachable_code : Exn :=
  SemanticException UNREACHABLE_CODE NoContext.

(** ** Trees used as examples *)

(** [func g(a: int, b: bool) -> int { return 0; }  var r: int := g(2.0, 1);] *)
Definition call_first_argument_wrong : ASTNode :=
  ProgramNode
    [FunctionDeclNode "g" [MkParam "a" INT; MkParam "b" BOOL] INT
       [ReturnStmtNode (Some (IntegerNode 0))];
     VarDeclNode false "r" "int"
       (Some (FunctionCallNode "g" [FloatNode 2; IntegerNode 1]))].

(** A function whose body holds one node of each class of the alternate
    family, the last two naming an identifier that is declared nowhere. *)
Definition alternate_family_body : ASTNode :=
  ProgramNode
    [FunctionDeclNode "f" [] IOTA
       [IfNode (IntegerNode 1) (PrintNode (IdentifierNode "nowhere")) None;
        WhileNode (IntegerNode 1) (ReturnNode None);
        ReturnNode (Some (BoolNode true));
        PrintNode (IdentifierNode "nowhere");
        AssignmentNode "nowhere" (IntegerNode 1);
        PrintStmtNode (IntegerNode 1)]].

(** The end-to-end scenarios of the specification (section 8.2). *)

(** [var x: float := 3] *)
Definition scenario_widening : ASTNode :=
  ProgramNode [VarDeclNode false "x" "float" (Some (IntegerNode 3))].

(** [var x: int := 3.0] *)
Definition scenario_narrowing : ASTNode :=
  ProgramNode [VarDeclNode false "x" "int" (Some (FloatNode 3))].

(** [func f() -> int { return 1; var y: int := 2; }] *)
Definition scenario_unreachable : ASTNode :=
  ProgramNode
    [FunctionDeclNode "f" [] INT
       [ReturnStmtNode (Some (IntegerNode 1));
        VarDeclNode false "y" "int" (Some (IntegerNode 2))]].

(** [func f(b: bool) -> int { if b { return 1; } else { return 2; } }] *)
Definition scenario_both_branches_return : ASTNode :=
  ProgramNode
    [FunctionDeclNode "f" [MkParam "b" BOOL] INT
       [IfStmtNode (IdentifierNode "b")
          [ReturnStmtNode (Some (IntegerNode 1))]
          [ReturnStmtNode (Some (IntegerNode 2))]]].

(** [func f() -> int { while true { return 1; } }] *)
Definition scenario_while_true : ASTNode :=
  ProgramNode
    [FunctionDeclNode "f" [] INT
       [WhileStmtNode (BoolNode true)
          [ReturnStmtNode (Some (IntegerNode 1))]]].

(** [func g(a: int, b: bool) -> int { return 0; }  var r: int := g(1, 2.0);] *)
Definition scenario_signature : ASTNode :=
  ProgramNode
    [FunctionDeclNode "g" [MkParam "a" INT; MkParam "b" BOOL] INT
       [ReturnStmtNode (Some (IntegerNode 0))];
     VarDeclNode false "r" "int"
       (Some (FunctionCallNode "g" [IntegerNode 1; FloatNode 2]))].

(** [var b: bool := 1 == true;] *)
Definition scenario_equality : ASTNode :=
  ProgramNode
    [VarDeclNode false "b" "bool"
       (Some (BinaryOpNode (IntegerNode 1) "==" (BoolNode true)))].

(** [var n: int := 7 % 2;] *)
Definition unknown_operator_initializer : ASTNode :=
  ProgramNode
    [VarDeclNode false "n" "int"
       (Some (BinaryOpNode (IntegerNode 7) "%" (IntegerNode 2)))].

(** The state in the body of a function [f] that returns [ret], with one
    scope for the function on top of an empty global scope. *)
Definition in_function (f : string) (ret : DataType) : Analyzer :=
  {| currentScope := new_scope (Some (new_scope None));
     currentFunction := f; currentFunctionReturnType := ret;
     hasReturn := false; isUnreachable := false |}.

(** [sc'] is [sc] after some insertions: the same parent, a larger table. *)
Definition scope_extends (sc sc' : Scope) : Prop :=
  parent sc' = parent sc ∧ table sc ⊆ table sc'.

(** What a rule leaves in place when it ends normally: the current scope
    up to insertions, the name and the return type of the current
    function. *)
Definition frame (s s' : Analyzer) : Prop :=
  scope_extends (currentScope s) (currentScope s')
  ∧ currentFunction s' = currentFunction s
  ∧ currentFunctionReturnType s' = currentFunctionReturnType s.

Definition keeps_frame {A} (m : M A) : Prop :=
  ∀ s a s', m s = (Normal a, s') → frame s s'.

(** A rule that ends normally only in the state it started in. *)
Definition keeps_state {A} (m : M A) : Prop :=
  ∀ s a s', m s = (Normal a, s') → s' = s.

Fixpoint scope_depth (sc : Scope) : nat :=
  match parent sc with
  | Some p => S (scope_depth p)
  | None => 0
  end.

(** ** The return-path check as the specification words it

    Section 4.7 of the specification: a [return] statement returns; an
    [if] with both a then and an else branch returns if and only if both
    branches return; no other statement form returns; a block returns if
    and only if any of its items returns. *)
#[local] Unset Elimination Schemes.
Inductive stmt_returns : ASTNode → Prop :=
  | return_returns value : stmt_returns (ReturnStmtNode value)
  | if_returns condition thenItems elseItems :
      elseItems ≠ [] →
      Exists stmt_returns thenItems →
      Exists stmt_returns elseItems →
      stmt_returns (IfStmtNode condition thenItems elseItems).
#[local] Set Elimination Schemes.

Definition all_paths_return (block : list ASTNode) : Prop :=
  Exists stmt_returns block.

Definition missing_return (name : string) : Exn :=
  SemanticException MISSING_RETURN (CtxFunction name).

(** The two diagnostics of a redeclaration. *)
Definition is_redeclaration {A} (o : Outcome A) : Prop :=
  ∃ name,
    o = Throw (SemanticException REDECLARED_FUNCTION (CtxFunction name))
    ∨ o = Throw (SemanticException REDECLARED_IDENTIFIER (CtxIdentifier name)).

(** The diagnostics [analyzeExpr] can raise. *)
Definition typing_diagnostic (e : Exn) : bool :=
  match e with
  | SemanticException
      (UNDECLARED_IDENTIFIER | FUNCTION_USED_AS_VARIABLE
      | INVALID_BINARY_OPERATION | INVALID_UNARY_OPERATION
      | UNDECLARED_FUNCTION | NOT_A_FUNCTION | WRONG_NUMBER_OF_ARGUMENTS
      | INVALID_SIGNATURE) _ => true
  | _ => false
  end.

(** An inner scope over an outer one that binds [x] as a FLOAT constant. *)
Definition inside_scope_with_x : Analyzer :=
  {| currentScope :=
       new_scope
         (Some {| table := {[ "x" := SymbolInfo_of "x" FLOAT VARIABLE true ]};
                  parent := None |});
     currentFunction := "f"; currentFunctionReturnType := IOTA;
     hasReturn := false; isUnreachable := false |}.

(** ** Vocabulary for hoisting *)

(** The names of the function declarations of a list, in order. *)
Fixpoint function_names (declarations : list ASTNode) : list string :=
  match declarations with
  | [] => []
  | FunctionDeclNode name _ _ _ :: rest => name :: function_names rest
  | _ :: rest => function_names rest
  end.

(** The names of the variable and constant declarations of a list. *)
Fixpoint variable_names (declarations : list ASTNode) : list string :=
  match declarations with
  | [] => []
  | VarDeclNode _ name _ _ :: rest => name :: variable_names rest
  | _ :: rest => variable_names rest
  end.

(** [f] is bound somewhere on the chain of the current scope. *)
Definition resolves (f : string) (s : Analyzer) : Prop :=
  is_Some (lookup_sym (currentScope s) f).

(** The two diagnostics of a name that [lookup] does not find. *)
Definition undeclared (f : string) (e : Exn) : Prop :=
  e = SemanticException UNDECLARED_FUNCTION (CtxFunction f)
  ∨ e = SemanticException UNDECLARED_IDENTIFIER (CtxIdentifier f).

(** From a state in which [f] resolves, [m] ends in such a state or with a
    diagnostic that does not report [f] as undeclared. *)
Definition resolving (f : string) {A} (m : M A) : Prop :=
  ∀ s, resolves f s →
       match m s with
       | (Normal _, s') => resolves f s'
       | (Throw e, _) => ¬ undeclared f e
       end.

Definition undeclared_identifier (x : string) : Exn :=
  SemanticException UNDECLARED_IDENTIFIER (CtxIdentifier x).

(** [func a() { print b(); }  func b() -> int { return 1; }
     func g() { print x; }  var x: int := 1;] *)
Definition use_before_declaration : list ASTNode :=
  [FunctionDeclNode "a" [] IOTA
     [PrintStmtNode (FunctionCallNode "b" [])];
   FunctionDeclNode "b" [] INT [ReturnStmtNode (Some (IntegerNode 1))];
   FunctionDeclNode "g" [] IOTA [PrintStmtNode (IdentifierNode "x")];
   VarDeclNode false "x" "int" (Some (IntegerNode 1))].

(** ** Further vocabulary *)

(** The walker after lines 130-142 of [analyzeFunctionDecl]: a fresh scope
    over the current one, the context of the function [name], both flags
    down. *)
Definition function_prologue (name : string) (returnType : DataType)
    (s : Analyzer) : Analyzer :=
  set_isUnreachable false
    (set_hasReturn false
       (set_currentFunctionReturnType returnType
          (set_currentFunction name
             (set_currentScope (new_scope (Some (currentScope s))) s)))).

(** The first name of [names] that is in [seen] or stands earlier in
    [names]. *)
Fixpoint first_repeated (seen names : list string) : option string :=
  match names with
  | [] => None
  | n :: rest =>
      if bool_decide (n ∈ seen) then Some n
      else first_repeated (n :: seen) rest
  end.

Definition condition_not_bool (actual : DataType) : Exn :=
  SemanticException CONDITION_NOT_BOOL (CtxActualType actual).

Definition redeclared_function (name : string) : Exn :=
  SemanticException REDECLARED_FUNCTION (CtxFunction name).

Definition redeclared_identifier (name : string) : Exn :=
  SemanticException REDECLARED_IDENTIFIER (CtxIdentifier name).

Definition undeclared_function (name : string) : Exn :=
  SemanticException UNDECLARED_FUNCTION (CtxFunction name).

(** A diagnostic about the analysed program, as opposed to a
    [std::runtime_error]. *)
Definition is_semantic (e : Exn) : Prop :=
  match e with
  | SemanticException _ _ => True
  | runtime_error _ => False
  end.

(** The walker but for [hasReturn]. *)
Definition forget_hasReturn (s : Analyzer) : Analyzer := set_hasReturn false s.

(** A global scope with [g : (int, bool) -> int]. *)
Definition scope_with_g : Scope :=
  {| table := {[ "g" := SymbolInfo_function "g" [INT; BOOL] INT ]};
     parent := None |}.

(** [var f: int := 1;  func f() { }] *)
Definition variable_before_function : list ASTNode :=
  [VarDeclNode false "f" "int" (Some (IntegerNode 1));
   FunctionDeclNode "f" [] IOTA []].

(** [func f() { }  var x: int := 1;  func g() -> int { return x; }] *)
Definition small_program : list ASTNode :=
  [FunctionDeclNode "f" [] IOTA [];
   VarDeclNode false "x" "int" (Some (IntegerNode 1));
   FunctionDeclNode "g" [] INT [ReturnStmtNode (Some (IdentifierNode "x"))]].

(** How the rule for one item moves the reachability flag when it ends
    normally: it stays up if it was up, and otherwise it goes up exactly
    for an item that [checkPathsReturn] counts as returning. *)
Definition flag_follows_returns (item : ASTNode → M bool) (it : ASTNode)
    : Prop :=
  ∀ s t s',
    item it s = (Normal t, s') →
    isUnreachable s' = if isUnreachable s then true else item_returns it.

(** [func f(b: bool) -> int { if b { return 1; } else { return 2; }
     func g() { } }] as the body of [f]. *)
Definition body_ending_in_if : list ASTNode :=
  [IfStmtNode (IdentifierNode "b")
     [ReturnStmtNode (Some (IntegerNode 1))]
     [ReturnStmtNode (Some (IntegerNode 2))];
   FunctionDeclNode "g" [] IOTA []].

(** Every exception [m] can raise satisfies [E]. *)
Definition raises_only (E : Exn → Prop) {A} (m : M A) : Prop :=
  ∀ s, match m s with
       | (Throw e, _) => E e
       | (Normal _, _) => True
       end.

Definition assignment_to_constant (name : string) : Exn :=
  SemanticException VAR_ASSIGN_TO_CONSTANT (CtxIdentifier name).

(** Two states of the walker that differ at most in [hasReturn]. *)
Definition same_but_hasReturn (s t : Analyzer) : Prop :=
  forget_hasReturn s = forget_hasReturn t.

(** From two states that differ at most in [hasReturn], [m1] and [m2] end
    with the same outcome, in states that differ at most in [hasReturn]. *)
Definition ignores_hasReturn {A} (m1 m2 : M A) : Prop :=
  ∀ s t,
    same_but_hasReturn s t →
    (m1 s).1 = (m2 t).1 ∧ same_but_hasReturn (m1 s).2 (m2 t).2.

(** Lines 144-163 of [analyzeFunctionDecl]: the parameters, then the
    body. *)
Definition parameters_and_body (item : ASTNode → M bool)
    (parameters : list Param) (bodyItems : list ASTNode) : M unit :=
  add_parameters parameters ;; analyzeBlock_of item bodyItems false.

Definition return_outside_function : Exn :=
  SemanticException RETURN_OUTSIDE_FUNCTION NoContext.

(** Every function declaration the walk enters from [it] has a name that
    is not the empty string. *)
Fixpoint functions_named (it : ASTNode) : bool :=
  match it with
  | FunctionDeclNode name _ _ bodyItems =>
      negb (bool_decide (name = "")) && forallb functions_named bodyItems
  | IfStmtNode _ thenItems elseItems =>
      forallb functions_named thenItems && forallb functions_named elseItems
  | WhileStmtNode _ bodyItems => forallb functions_named bodyItems
  | _ => true
  end.

(** From a state inside a function with a name, [m] ends in such a state
    or with an exception other than [return_outside_function]. *)
Definition stays_inside_function {A} (m : M A) : Prop :=
  ∀ s, currentFunction s ≠ "" →
       match m s with
       | (Normal _, s') => currentFunction s' ≠ ""
       | (Throw e, _) => e ≠ return_outside_function
       end.
(** * Properties *)

(** ** Running the monad *)

Lemma run_bind {A B} (m : M A) (k : A → M B) s :
  bind m k s = match m s with
               | (Normal a, s') => k a s'
               | (Throw e, s') => (Throw e, s')
               end.
Proof. reflexivity. Qed.

Lemma run_bind_normal {A B} (m : M A) (k : A → M B) s a s1 :
  m s = (Normal a, s1) → bind m k s = k a s1.
Proof. intros H. rewrite run_bind, H. reflexivity. Qed.

Lemma run_bind_throw {A B} (m : M A) (k : A → M B) s e s1 :
  m s = (Throw e, s1) → bind m k s = (Throw e, s1).
Proof. intros H. rewrite run_bind, H. reflexivity. Qed.

Lemma run_bind_get {A} (k : Analyzer → M A) s : bind get k s = k s s.
Proof. reflexivity. Qed.

Lemma run_bind_modify {A} f (k : unit → M A) s :
  bind (modify f) k s = k tt (f s).
Proof. reflexivity. Qed.

Lemma run_bind_ret {A B} (a : A) (k : A → M B) s : bind (ret a) k s = k a s.
Proof. reflexivity. Qed.

Lemma run_bind_assoc {A B C} (m : M A) (k : A → M B) (h : B → M C) s :
  bind (bind m k) h s = bind m (λ a, bind (k a) h) s.
Proof. rewrite !run_bind. destruct (m s) as [[a|e] s']; reflexivity. Qed.

Lemma analyzeItem_eq it : analyzeItem it = item_of analyzeItem it.
Proof. destruct it; reflexivity. Qed.

Lemma run_check_reachable s :
  check_reachable s =
    if isUnreachable s
    then (Throw (SemanticException UNREACHABLE_CODE NoContext), s)
    else (Normal tt, s).
Proof. unfold check_reachable. rewrite run_bind_get. by destruct (isUnreachable s). Qed.

Lemma run_analyzeExprM e s :
  analyzeExprM e s = (analyzeExpr (currentScope s) e, s).
Proof. reflexivity. Qed.

Lemma run_check_condition c s :
  analyzeExpr (currentScope s) c = Normal BOOL →
  check_condition c s = (Normal tt, s).
Proof.
  intros H. unfold check_condition.
  rewrite run_bind, run_analyzeExprM, H. reflexivity.
Qed.

(** ** The scenarios of the specification

    The walker run on the seven programs of section 8.2. *)

Example run_scenario_widening :
  (analyze (Some scenario_widening) initial).1 = Normal tt
  ∧ lookup_sym (currentScope (analyze (Some scenario_widening) initial).2)
      "x" = Some (SymbolInfo_of "x" FLOAT VARIABLE false).
Proof. split; reflexivity. Qed.

Example run_scenario_narrowing :
  (analyze (Some scenario_narrowing) initial).1
    = Throw (SemanticException VAR_DECL_TYPE_MISMATCH
               (CtxIdentifierTypeMismatch "x" INT FLOAT)).
Proof. reflexivity. Qed.

Example run_scenario_unreachable :
  (analyze (Some scenario_unreachable) initial).1 = Throw unreachable_code.
Proof. reflexivity. Qed.

Example run_scenario_both_branches_return :
  (analyze (Some scenario_both_branches_return) initial).1 = Normal tt.
Proof. reflexivity. Qed.

Example run_scenario_while_true :
  (analyze (Some scenario_while_true) initial).1
    = Throw (missing_return "f").
Proof. reflexivity. Qed.

Example run_scenario_signature :
  (analyze (Some scenario_signature) initial).1
    = Throw (SemanticException INVALID_SIGNATURE
               (CtxSignature "g" [INT; BOOL] [INT; FLOAT])).
Proof. reflexivity. Qed.

Example run_scenario_equality :
  (analyze (Some scenario_equality) initial).1
    = Throw (SemanticException INVALID_BINARY_OPERATION
               (CtxInvalidOperationBetweenTypes "==" INT BOOL)).
Proof. reflexivity. Qed.

Example run_null_root :
  (analyze None initial).1 = Throw (runtime_error "AST root is null").
Proof. reflexivity. Qed.

(** ** The compatibility relation *)

(** Claim C3.  [isAssignmentCompatible target source] holds on the four
    reflexive pairs, on (FLOAT, INT), (BOOL, INT) and (INT, BOOL), and on
    no other pair; (INT, FLOAT), (BOOL, FLOAT) and (FLOAT, BOOL) are
    rejected. *)
Theorem isAssignmentCompatible_exact :
  (∀ target source,
     isAssignmentCompatible target source = true ↔
       target = source
       ∨ (target = FLOAT ∧ source = INT)
       ∨ (target = BOOL ∧ source = INT)
       ∨ (target = INT ∧ source = BOOL))
  ∧ (∀ t, isAssignmentCompatible t t = true)
  ∧ isAssignmentCompatible FLOAT INT = true
  ∧ isAssignmentCompatible BOOL INT = true
  ∧ isAssignmentCompatible INT BOOL = true
  ∧ isAssignmentCompatible INT FLOAT = false
  ∧ isAssignmentCompatible BOOL FLOAT = false
  ∧ isAssignmentCompatible FLOAT BOOL = false.
Proof.
  split; [|repeat split; try reflexivity; by intros []].
  intros target source; split.
  - destruct target, source; cbn; intros H; try discriminate H; tauto.
  - intros [->|[[-> ->]|[[-> ->]|[-> ->]]]]; try reflexivity.
    by destruct source.
Qed.

(** ** The reachability flag across an [if] *)

(** Claim C1.  Take an [if] that is reached and whose condition types to
    BOOL, and whose then branch, analysed in a fresh child scope, ends in
    state [s1].  Without an else branch the [if] ends with the flag it
    started with.  With an else branch, that branch is analysed from [s1]
    with the flag put back to its value before the [if]; if it ends in
    [s2], the flag after the [if] is the conjunction of the flags of [s1]
    and [s2]. *)
Theorem analyzeIf_unreachable s condition thenItems elseItems s1 :
  isUnreachable s = false →
  analyzeExpr (currentScope s) condition = Normal BOOL →
  analyzeBlock thenItems true s = (Normal tt, s1) →
  analyzeBlock thenItems true s =
    bind (block_loop analyzeItem thenItems false)
      (λ _, modify (set_currentScope (currentScope s)))
      (set_currentScope (new_scope (Some (currentScope s))) s)
  ∧ (elseItems = [] →
       analyzeIf condition thenItems elseItems s
         = (Normal tt, set_isUnreachable (isUnreachable s) s1))
  ∧ (elseItems ≠ [] →
       ∀ s2,
         analyzeBlock elseItems true (set_isUnreachable (isUnreachable s) s1)
           = (Normal tt, s2) →
         analyzeIf condition thenItems elseItems s
           = (Normal tt,
              set_isUnreachable (isUnreachable s1 && isUnreachable s2) s2)).
Proof.
  intros Hreach Hcond Hthen. split; [reflexivity|].
  assert (Hrun :
    analyzeIf condition thenItems elseItems s =
      match elseItems with
      | _ :: _ =>
          (analyzeBlock elseItems true ;;
           s2 <- get ;;
           if isUnreachable s1 && isUnreachable s2
           then modify (set_isUnreachable true)
           else modify (set_isUnreachable (isUnreachable s)))
            (set_isUnreachable (isUnreachable s) s1)
      | [] => (Normal tt, set_isUnreachable (isUnreachable s)
                            (set_isUnreachable (isUnreachable s) s1))
      end).
  { unfold analyzeIf, analyzeIf_of.
    rewrite run_bind, run_check_reachable, Hreach.
    rewrite run_bind, (run_check_condition _ _ Hcond).
    rewrite run_bind_get, Hreach.
    fold analyzeBlock. rewrite (run_bind_normal _ _ _ _ _ Hthen).
    rewrite run_bind_get, run_bind_modify. by destruct elseItems. }
  rewrite Hrun. split.
  - intros ->. reflexivity.
  - intros Hne s2 Helse. destruct elseItems as [|e0 rest]; [done|].
    rewrite (run_bind_normal _ _ _ _ _ Helse), run_bind_get.
    destruct (isUnreachable s1 && isUnreachable s2) eqn:Hb.
    + reflexivity.
    + unfold modify. rewrite Hreach. reflexivity.
Qed.

Lemma analyzeIf_unreachable_witness :
  ∃ s',
    analyzeIf (BoolNode true)
      [ReturnStmtNode (Some (IntegerNode 1))]
      [ReturnStmtNode (Some (IntegerNode 2))] (in_function "f" INT)
      = (Normal tt, s')
    ∧ isUnreachable s' = true.
Proof.
  pose (s := in_function "f" INT).
  pose (t := [ReturnStmtNode (Some (IntegerNode 1))]).
  pose (e := [ReturnStmtNode (Some (IntegerNode 2))]).
  pose (s1 := (analyzeBlock t true s).2).
  pose (s2 := (analyzeBlock e true (set_isUnreachable false s1)).2).
  destruct (analyzeIf_unreachable s (BoolNode true) t e s1
              eq_refl eq_refl eq_refl) as (_ & _ & H).
  exists (set_isUnreachable (isUnreachable s1 && isUnreachable s2) s2).
  split; [|reflexivity].
  apply (H ltac:(discriminate) s2). reflexivity.
Defined.

(** ** Operators the typing rules do not know *)

Lemma not_known_binary_op op :
  op ∉ known_binary_ops →
  is_arith_op op = false ∧ is_order_op op = false
  ∧ is_equality_op op = false.
Proof.
  intros Hop. unfold is_arith_op, is_order_op, is_equality_op.
  repeat split; repeat (apply orb_false_intro);
    apply bool_decide_eq_false; intros ->; apply Hop;
    unfold known_binary_ops; set_solver.
Qed.

(** Claim C10.  For a binary operator outside the ten known ones and a
    unary operator other than the minus sign, typing the node adds no
    diagnostic of its own: it types the operands in order, and once they
    have types the result is IOTA.  The gates then treat IOTA as any other
    type: a target accepts it exactly when the target is IOTA. *)
Theorem unknown_operator_types_to_IOTA sc lhs op rhs uop operand :
  op ∉ known_binary_ops →
  uop ≠ "-" →
  analyzeExpr sc (BinaryOpNode lhs op rhs)
    = obind (analyzeExpr sc lhs) (λ _,
        obind (analyzeExpr sc rhs) (λ _, Normal IOTA))
  ∧ (∀ leftType rightType,
       analyzeExpr sc lhs = Normal leftType →
       analyzeExpr sc rhs = Normal rightType →
       analyzeExpr sc (BinaryOpNode lhs op rhs) = Normal IOTA)
  ∧ analyzeExpr sc (UnaryOpNode uop operand)
      = obind (analyzeExpr sc operand) (λ _, Normal IOTA)
  ∧ (∀ operandType,
       analyzeExpr sc operand = Normal operandType →
       analyzeExpr sc (UnaryOpNode uop operand) = Normal IOTA)
  ∧ (∀ target,
       isAssignmentCompatible target IOTA = bool_decide (target = IOTA)).
Proof.
  intros Hop Huop.
  destruct (not_known_binary_op _ Hop) as (Ha & Ho & He).
  assert (Hbin : analyzeExpr sc (BinaryOpNode lhs op rhs)
            = obind (analyzeExpr sc lhs) (λ _,
                obind (analyzeExpr sc rhs) (λ _, Normal IOTA))).
  { cbn [analyzeExpr]. rewrite Ha, Ho, He. reflexivity. }
  assert (Hun : analyzeExpr sc (UnaryOpNode uop operand)
            = obind (analyzeExpr sc operand) (λ _, Normal IOTA)).
  { cbn [analyzeExpr]. rewrite bool_decide_eq_false_2 by done. reflexivity. }
  repeat split.
  - exact Hbin.
  - intros lt rt Hl Hr. rewrite Hbin, Hl, Hr. reflexivity.
  - exact Hun.
  - intros t Ht. rewrite Hun, Ht. reflexivity.
  - by intros [].
Qed.

Lemma unknown_operator_types_to_IOTA_witness :
  analyzeExpr (new_scope None)
    (BinaryOpNode (IntegerNode 7) "%" (IntegerNode 2)) = Normal IOTA
  ∧ analyzeExpr (new_scope None) (UnaryOpNode "!" (BoolNode true))
      = Normal IOTA.
Proof.
  assert (H1 : "%" ∉ known_binary_ops) by compute_done.
  assert (H2 : "!" ≠ "-") by discriminate.
  destruct (unknown_operator_types_to_IOTA (new_scope None) (IntegerNode 7)
              "%" (IntegerNode 2) "!" (BoolNode true) H1 H2)
    as (_ & Hb & _ & Hu & _).
  split; [by eapply Hb | by eapply Hu].
Defined.

(** The gate of a declaration then sees IOTA like any other type. *)
Example run_unknown_operator_initializer :
  (analyze (Some unknown_operator_initializer) initial).1
    = Throw (SemanticException VAR_DECL_TYPE_MISMATCH
               (CtxIdentifierTypeMismatch "n" INT IOTA)).
Proof. reflexivity. Qed.

(** ** The argument loop of a call *)

(** What the loop does in general: when the arguments before the first
    rejected one have the types [ts], the context holds the types collected
    so far followed by [ts] and the rejected type, and nothing for the
    arguments after it. *)
Lemma check_arguments_first_rejected typeOf f paramTypes ret :
  ∀ before ts arg t after i acc,
    Forall2 (λ a ty, typeOf a = Normal ty) before ts →
    (∀ j ty, ts !! j = Some ty →
       isAssignmentCompatible (paramType_at paramTypes (i + j)) ty = true) →
    typeOf arg = Normal t →
    isAssignmentCompatible (paramType_at paramTypes (i + length before)) t
      = false →
    check_arguments typeOf f paramTypes ret (before ++ arg :: after) i acc
      = raise INVALID_SIGNATURE
          (CtxSignature f paramTypes (acc ++ ts ++ [t])).
Proof.
  induction before as [|a before IH]; intros ts arg t after i acc Hty Hok Ht Hbad.
  - apply Forall2_nil_inv_l in Hty as ->. cbn.
    rewrite Ht. cbn. rewrite Nat.add_0_r in Hbad. rewrite Hbad. reflexivity.
  - apply Forall2_cons_inv_l in Hty as (ty & ts' & Ha & Hty & ->). cbn.
    rewrite Ha. cbn.
    rewrite <- (Nat.add_0_r i) at 1. rewrite (Hok 0 ty eq_refl). cbn.
    rewrite (IH ts' arg t after (S i) (acc ++ [ty])); try done.
    + by rewrite <- app_assoc.
    + intros j ty' Hj. replace (S i + j) with (i + S j) by lia.
      by apply Hok.
    + cbn in Hbad. by replace (S i + length before)
        with (i + S (length before)) by lia.
Qed.

(** The same for a whole call: the callee is a function with as many
    parameters as the call has arguments. *)
Lemma call_first_rejected sc f symbol before ts arg t after :
  lookup_sym sc f = Some symbol →
  sym_kind symbol = FUNCTION →
  length (before ++ arg :: after) = length (sym_paramTypes symbol) →
  Forall2 (λ a ty, analyzeExpr sc a = Normal ty) before ts →
  (∀ j ty, ts !! j = Some ty →
     isAssignmentCompatible (paramType_at (sym_paramTypes symbol) j) ty
       = true) →
  analyzeExpr sc arg = Normal t →
  isAssignmentCompatible
    (paramType_at (sym_paramTypes symbol) (length before)) t = false →
  analyzeExpr sc (FunctionCallNode f (before ++ arg :: after))
    = raise INVALID_SIGNATURE
        (CtxSignature f (sym_paramTypes symbol) (ts ++ [t])).
Proof.
  intros Hf Hk Hlen Hty Hok Ht Hbad. cbn [analyzeExpr].
  rewrite Hf, Hk, bool_decide_eq_true_2 by done. cbn [negb].
  rewrite bool_decide_eq_true_2 by done. cbn [negb].
  by apply (check_arguments_first_rejected _ _ _ _ before ts arg t after 0 []).
Qed.

(** Claim C4, at an input where the code departs from it.  In
    [func g(a: int, b: bool) -> int { return 0; } var r: int := g(2.0, 1);]
    the call names a function and has two arguments for two parameters; the
    first argument is the first one rejected.  The argument types are
    FLOAT and INT, and the diagnostic carries FLOAT alone. *)
Theorem invalid_signature_actual_types_cut_short :
  fst (analyze (Some call_first_argument_wrong) initial)
    = Throw (SemanticException INVALID_SIGNATURE
               (CtxSignature "g" [INT; BOOL] [FLOAT]))
  ∧ analyzeExpr (new_scope None) <$> [FloatNode 2; IntegerNode 1]
      = [Normal FLOAT; Normal INT].
Proof. split; reflexivity. Qed.

(** ** Nodes of the alternate family *)

(** A node of the alternate family as an item of a block: the rule for one
    item ends normally, leaves the walker as it was and does not mark the
    block as ended, whatever the node holds. *)
Lemma analyzeItem_alternate node s :
  isAlternateStmt node = true → analyzeItem node s = (Normal false, s).
Proof. by destruct node. Qed.

(** Claim C8, at inputs where the code departs from it.  Each of the five
    node classes of the alternate family, met as an item of a block, is
    passed over without any error, and a whole program with such nodes in
    a function body is accepted.  The visitor entry point for the same
    node, which the walk does not call, is the path that throws. *)
Theorem alternate_family_passed_over :
  (∀ s c t e, analyzeItem (IfNode c t e) s = (Normal false, s))
  ∧ (∀ s c b, analyzeItem (WhileNode c b) s = (Normal false, s))
  ∧ (∀ s v, analyzeItem (ReturnNode v) s = (Normal false, s))
  ∧ (∀ s e, analyzeItem (PrintNode e) s = (Normal false, s))
  ∧ (∀ s x e, analyzeItem (AssignmentNode x e) s = (Normal false, s))
  ∧ fst (analyze (Some alternate_family_body) initial) = Normal tt
  ∧ (∀ s c t e, ∃ what,
       visit (IfNode c t e) s = (Throw (runtime_error what), s)).
Proof.
  repeat split; intros; try by apply analyzeItem_alternate.
  eexists. reflexivity.
Qed.

(** ** Items after a [return] *)

Lemma run_block_loop_cons item it rest b s :
  block_loop item (it :: rest) b s =
    if b then (Throw unreachable_code, s)
    else match item it s with
         | (Normal terminated, s') =>
             block_loop item rest (if terminated then true else b) s'
         | (Throw e, s') => (Throw e, s')
         end.
Proof. destruct b; reflexivity. Qed.

Lemma run_analyzeBlock block createNewScope s :
  analyzeBlock block createNewScope s =
    if createNewScope then
      match block_loop analyzeItem block false
              (set_currentScope (new_scope (Some (currentScope s))) s) with
      | (Normal _, s') => (Normal tt, set_currentScope (currentScope s) s')
      | (Throw e, s') => (Throw e, s')
      end
    else block_loop analyzeItem block false s.
Proof.
  unfold analyzeBlock, analyzeBlock_of. rewrite run_bind_get.
  destruct createNewScope.
  - rewrite run_bind_modify, !run_bind.
    by destruct (block_loop _ _ _ _) as [[[]|?] ?].
  - rewrite run_bind_ret, run_bind.
    by destruct (block_loop _ _ _ _) as [[[]|?] ?].
Qed.

(** A [return] that is analysed without a diagnostic reports the block as
    ended. *)
Lemma analyzeItem_return_normal value s terminated s' :
  analyzeItem (ReturnStmtNode value) s = (Normal terminated, s') →
  terminated = true ∧ isUnreachable s' = true.
Proof.
  rewrite analyzeItem_eq. cbn [item_of isStmtNode isTerminator analyzeStmt_of].
  rewrite run_bind. destruct (analyzeReturn value s) as [[[]|e] s0].
  - rewrite run_bind_modify. cbv [ret]. intros [= <- <-]. done.
  - discriminate.
Qed.

Lemma block_loop_after_return value next rest :
  ∀ before s s1,
    block_loop analyzeItem (before ++ [ReturnStmtNode value]) false s
      = (Normal tt, s1) →
    block_loop analyzeItem (before ++ ReturnStmtNode value :: next :: rest)
      false s
      = (Throw unreachable_code, s1)
    ∧ isUnreachable s1 = true.
Proof.
  induction before as [|it before IH]; intros s s1; cbn [app];
    rewrite !run_block_loop_cons.
  - destruct (analyzeItem (ReturnStmtNode value) s) as [[t|e] s0] eqn:Hret;
      [|discriminate].
    destruct (analyzeItem_return_normal _ _ _ _ Hret) as [-> Hflag]. cbn.
    unfold ret. intros [= <-]. done.
  - destruct (analyzeItem it s) as [[[]|e] s0]; [| |discriminate].
    + destruct before; cbn; discriminate.
    + apply IH.
Qed.

(** Claim C5.  Take a block with a [return] among its items and any item
    at all after it, in a walk that gets as far as the [return] and
    analyses it without a diagnostic: that is, the block cut after the
    [return] is analysed to its end.  Then the analysis of the block raises
    [unreachable_code], in the state in which the [return] left the
    walker, before the next item is looked at. *)
Theorem unreachable_code_after_return
    before value next rest createNewScope s s1 :
  analyzeBlock (before ++ [ReturnStmtNode value]) createNewScope s
    = (Normal tt, s1) →
  fst (analyzeBlock (before ++ ReturnStmtNode value :: next :: rest)
         createNewScope s)
    = Throw (SemanticException UNREACHABLE_CODE NoContext)
  ∧ isUnreachable
      (snd (analyzeBlock (before ++ ReturnStmtNode value :: next :: rest)
              createNewScope s)) = true.
Proof.
  rewrite !run_analyzeBlock. destruct createNewScope.
  - destruct (block_loop _ (before ++ [_]) _ _) as [[[]|e] s0] eqn:Hloop;
      [|discriminate].
    intros _.
    destruct (block_loop_after_return value next rest _ _ _ Hloop)
      as [-> Hflag].
    done.
  - intros Hloop.
    destruct (block_loop_after_return value next rest _ _ _ Hloop)
      as [-> Hflag].
    done.
Qed.

Lemma unreachable_code_after_return_witness :
  fst (analyzeBlock
         ([PrintStmtNode (IntegerNode 1)]
          ++ ReturnStmtNode (Some (IntegerNode 1))
             :: FunctionDeclNode "g" [] IOTA [] :: [])
         true (in_function "f" INT))
    = Throw (SemanticException UNREACHABLE_CODE NoContext).
Proof.
  pose (s := in_function "f" INT).
  pose (block := [PrintStmtNode (IntegerNode 1)]
                 ++ [ReturnStmtNode (Some (IntegerNode 1))]).
  apply (unreachable_code_after_return [PrintStmtNode (IntegerNode 1)]
           (Some (IntegerNode 1)) (FunctionDeclNode "g" [] IOTA []) []
           true s (analyzeBlock block true s).2).
  reflexivity.
Defined.

(** ** What a rule leaves in place on normal exit *)

Lemma bind_normal_inv {A B} (m : M A) (k : A → M B) s b s' :
  bind m k s = (Normal b, s') →
  ∃ a s1, m s = (Normal a, s1) ∧ k a s1 = (Normal b, s').
Proof.
  rewrite run_bind. destruct (m s) as [[a|e] s1]; [eauto|discriminate].
Qed.

Lemma scope_extends_refl sc : scope_extends sc sc.
Proof. by split. Qed.

Lemma scope_extends_trans sc1 sc2 sc3 :
  scope_extends sc1 sc2 → scope_extends sc2 sc3 → scope_extends sc1 sc3.
Proof.
  intros [Hp1 Ht1] [Hp2 Ht2]. split; [congruence|]. by etrans.
Qed.

Lemma frame_refl s : frame s s.
Proof. repeat split; done. Qed.

Lemma frame_trans s1 s2 s3 : frame s1 s2 → frame s2 s3 → frame s1 s3.
Proof.
  intros (Hs1 & Hf1 & Hr1) (Hs2 & Hf2 & Hr2).
  repeat split; try congruence.
  - destruct Hs1, Hs2. congruence.
  - eapply scope_extends_trans; eauto.
Qed.

Lemma addSymbol_extends sc name info :
  scope_extends sc (addSymbol sc name info).2.
Proof.
  unfold addSymbol. destruct (table sc !! name) eqn:Hl; cbn.
  - apply scope_extends_refl.
  - split; [done|]. cbn. by apply insert_subseteq.
Qed.

Lemma keeps_state_frame {A} (m : M A) : keeps_state m → keeps_frame m.
Proof. intros H s a s' Hm. rewrite (H _ _ _ Hm). apply frame_refl. Qed.

Lemma keeps_frame_bind {A B} (m : M A) (k : A → M B) :
  keeps_frame m → (∀ a, keeps_frame (k a)) → keeps_frame (bind m k).
Proof.
  intros Hm Hk s b s' Hrun.
  apply bind_normal_inv in Hrun as (a & s1 & H1 & H2).
  eapply frame_trans; [eapply Hm|eapply Hk]; eauto.
Qed.

Lemma keeps_state_bind {A B} (m : M A) (k : A → M B) :
  keeps_state m → (∀ a, keeps_state (k a)) → keeps_state (bind m k).
Proof.
  intros Hm Hk s b s' Hrun.
  apply bind_normal_inv in Hrun as (a & s1 & H1 & H2).
  rewrite (Hk _ _ _ _ H2). eapply Hm; eauto.
Qed.

Lemma keeps_state_ret {A} (a : A) : keeps_state (ret a).
Proof. intros s b s'. unfold ret. congruence. Qed.

Lemma keeps_state_throw {A} e : keeps_state (@throw A e).
Proof. intros s b s'. discriminate. Qed.

Lemma keeps_state_get : keeps_state get.
Proof. intros s b s'. unfold get. congruence. Qed.

Lemma keeps_state_lift {A} (o : Outcome A) : keeps_state (lift o).
Proof. intros s b s'. unfold lift. congruence. Qed.

Lemma keeps_frame_modify f : (∀ s, frame s (f s)) → keeps_frame (modify f).
Proof. intros H s b s'. unfold modify. intros [= _ <-]. apply H. Qed.

Ltac keeps_state_steps :=
  repeat first
    [ apply keeps_state_ret | apply keeps_state_get
    | apply keeps_state_lift
    | apply keeps_state_throw
    | (apply keeps_state_bind; [|intros ?])
    | match goal with
      | |- keeps_state (if ?b then _ else _) => destruct b
      | |- keeps_state (match ?o with Some _ => _ | None => _ end) =>
          destruct o
      end ].

Lemma keeps_state_check_reachable : keeps_state check_reachable.
Proof. unfold check_reachable, semantic_error. keeps_state_steps. Qed.

Lemma keeps_state_analyzeExprM e : keeps_state (analyzeExprM e).
Proof. unfold analyzeExprM. keeps_state_steps. Qed.

Lemma keeps_state_check_not_declared name :
  keeps_state (check_not_declared name).
Proof. unfold check_not_declared, semantic_error. keeps_state_steps. Qed.

Lemma keeps_state_check_condition c : keeps_state (check_condition c).
Proof.
  unfold check_condition, semantic_error.
  apply keeps_state_bind; [apply keeps_state_analyzeExprM|intros ?].
  keeps_state_steps.
Qed.

Lemma keeps_state_analyzeAssignment x e : keeps_state (analyzeAssignment x e).
Proof.
  unfold analyzeAssignment, semantic_error.
  apply keeps_state_bind; [apply keeps_state_check_reachable|intros ?].
  apply keeps_state_bind; [apply keeps_state_get|intros s0].
  destruct (lookup_sym _ _); keeps_state_steps.
Qed.

Lemma keeps_state_analyzePrint e : keeps_state (analyzePrint e).
Proof.
  unfold analyzePrint.
  apply keeps_state_bind; [apply keeps_state_check_reachable|intros ?].
  apply keeps_state_bind; [apply keeps_state_analyzeExprM|intros ?].
  apply keeps_state_ret.
Qed.

Lemma keeps_frame_add_to_current name info :
  keeps_frame (add_to_current name info).
Proof.
  apply keeps_frame_modify. intros s. repeat split; cbn; try done.
  - by destruct (addSymbol_extends (currentScope s) name info).
  - by destruct (addSymbol_extends (currentScope s) name info).
Qed.

Lemma keeps_frame_set_hasReturn b : keeps_frame (modify (set_hasReturn b)).
Proof. apply keeps_frame_modify. intros s. by repeat split. Qed.

Lemma keeps_frame_set_isUnreachable b :
  keeps_frame (modify (set_isUnreachable b)).
Proof. apply keeps_frame_modify. intros s. by repeat split. Qed.

Lemma keeps_frame_analyzeVarDecl c name ty init :
  keeps_frame (analyzeVarDecl c name ty init).
Proof.
  unfold analyzeVarDecl, semantic_error.
  apply keeps_frame_bind;
    [apply keeps_state_frame, keeps_state_check_reachable|intros _].
  apply keeps_frame_bind;
    [apply keeps_state_frame, keeps_state_check_not_declared|intros _].
  apply keeps_frame_bind; [|intros _; apply keeps_frame_add_to_current].
  apply keeps_state_frame. destruct init; [|apply keeps_state_ret].
  apply keeps_state_bind; [apply keeps_state_analyzeExprM|intros ?].
  keeps_state_steps.
Qed.

Lemma keeps_frame_analyzeReturn value : keeps_frame (analyzeReturn value).
Proof.
  unfold analyzeReturn, semantic_error.
  apply keeps_frame_bind;
    [apply keeps_state_frame, keeps_state_check_reachable|intros _].
  apply keeps_frame_bind; [apply keeps_state_frame, keeps_state_get|intros s0].
  destruct (bool_decide _); [apply keeps_state_frame, keeps_state_throw|].
  apply keeps_frame_bind.
  - apply keeps_state_frame. destruct value.
    + apply keeps_state_bind; [apply keeps_state_analyzeExprM|intros ?].
      keeps_state_steps.
    + keeps_state_steps.
  - intros _. apply keeps_frame_bind; [apply keeps_frame_set_hasReturn|].
    intros _. apply keeps_frame_set_isUnreachable.
Qed.

Ltac inv_bind H :=
  let a := fresh "a" in
  let s := fresh "s" in
  let H1 := fresh H in
  apply bind_normal_inv in H as (a & s & H1 & H).

Lemma enter_function_saved item name parameters returnType bodyItems s
    saved s1 :
  enter_function item name parameters returnType bodyItems s
    = (Normal saved, s1) →
  saved = s.
Proof.
  unfold enter_function. rewrite run_bind_get, !run_bind_modify.
  intros H. inv_bind H. inv_bind H. unfold ret in H. congruence.
Qed.

Lemma run_restore_context saved s :
  restore_context saved s = (Normal tt, saved).
Proof. destruct saved. reflexivity. Qed.

Lemma keeps_state_check_return_paths name bodyItems :
  keeps_state (check_return_paths name bodyItems).
Proof. unfold check_return_paths, semantic_error. keeps_state_steps. Qed.

(** A function declaration that is analysed to its end leaves the walker
    exactly as it found it. *)
Lemma keeps_state_analyzeFunctionDecl_of item name parameters returnType
    bodyItems :
  keeps_state (analyzeFunctionDecl_of item name parameters returnType
                 bodyItems).
Proof.
  intros s [] s' H. unfold analyzeFunctionDecl_of in H.
  inv_bind H. inv_bind H.
  apply enter_function_saved in H0 as ->.
  rewrite run_restore_context in H. congruence.
Qed.

Section Frame_of_rules.
Variable item : ASTNode → M bool.

Lemma keeps_frame_block_loop block :
  Forall (λ it, keeps_frame (item it)) block →
  ∀ b, keeps_frame (block_loop item block b).
Proof.
  induction 1 as [|it rest Hit _ IH]; intros b; cbn [block_loop].
  - apply keeps_state_frame, keeps_state_ret.
  - destruct b; [apply keeps_state_frame, keeps_state_throw|].
    apply keeps_frame_bind; [exact Hit|]. intros t. apply IH.
Qed.

Lemma analyzeBlock_of_normal block createNewScope s s' :
  Forall (λ it, keeps_frame (item it)) block →
  analyzeBlock_of item block createNewScope s = (Normal tt, s') →
  frame s s' ∧ (createNewScope = true → currentScope s' = currentScope s).
Proof.
  intros Hitems. unfold analyzeBlock_of. rewrite run_bind_get.
  destruct createNewScope.
  - rewrite run_bind_modify. intros H. inv_bind H.
    unfold modify in H. injection H as <-.
    apply (keeps_frame_block_loop _ Hitems) in H0 as (_ & Hf & Hr).
    repeat split; try done.
  - rewrite run_bind_ret. intros H. inv_bind H.
    unfold ret in H. injection H as <-.
    apply (keeps_frame_block_loop _ Hitems) in H0. by split.
Qed.

Lemma keeps_frame_analyzeBlock_of block createNewScope :
  Forall (λ it, keeps_frame (item it)) block →
  keeps_frame (analyzeBlock_of item block createNewScope).
Proof.
  intros Hitems s [] s' H.
  by destruct (analyzeBlock_of_normal _ _ _ _ Hitems H).
Qed.

Lemma keeps_frame_analyzeIf_of c thenItems elseItems :
  Forall (λ it, keeps_frame (item it)) thenItems →
  Forall (λ it, keeps_frame (item it)) elseItems →
  keeps_frame (analyzeIf_of item c thenItems elseItems).
Proof.
  intros Ht He. unfold analyzeIf_of.
  apply keeps_frame_bind;
    [apply keeps_state_frame, keeps_state_check_reachable|intros _].
  apply keeps_frame_bind;
    [apply keeps_state_frame, keeps_state_check_condition|intros _].
  apply keeps_frame_bind;
    [apply keeps_state_frame, keeps_state_get|intros s0].
  apply keeps_frame_bind;
    [by apply keeps_frame_analyzeBlock_of|intros _].
  apply keeps_frame_bind;
    [apply keeps_state_frame, keeps_state_get|intros s1].
  apply keeps_frame_bind; [apply keeps_frame_set_isUnreachable|intros _].
  destruct elseItems as [|e0 rest];
    [apply keeps_frame_set_isUnreachable|].
  apply keeps_frame_bind;
    [by apply keeps_frame_analyzeBlock_of|intros _].
  apply keeps_frame_bind;
    [apply keeps_state_frame, keeps_state_get|intros s2].
  destruct (_ && _); apply keeps_frame_set_isUnreachable.
Qed.

Lemma keeps_frame_analyzeWhile_of c bodyItems :
  Forall (λ it, keeps_frame (item it)) bodyItems →
  keeps_frame (analyzeWhile_of item c bodyItems).
Proof.
  intros Hb. unfold analyzeWhile_of.
  apply keeps_frame_bind;
    [apply keeps_state_frame, keeps_state_check_reachable|intros _].
  apply keeps_frame_bind;
    [apply keeps_state_frame, keeps_state_check_condition|intros _].
  apply keeps_frame_bind;
    [apply keeps_state_frame, keeps_state_get|intros s0].
  apply keeps_frame_bind;
    [by apply keeps_frame_analyzeBlock_of|intros _].
  apply keeps_frame_set_isUnreachable.
Qed.

(** After a statement, the loop may set the flag and answers. *)
Lemma keeps_frame_after_stmt (m : M unit) it :
  keeps_frame m →
  keeps_frame (m ;; if isTerminator it
                    then modify (set_isUnreachable true) ;; ret true
                    else ret false).
Proof.
  intros Hm. apply keeps_frame_bind; [exact Hm|intros _].
  destruct (isTerminator it).
  - apply keeps_frame_bind; [apply keeps_frame_set_isUnreachable|].
    intros _. apply keeps_state_frame, keeps_state_ret.
  - apply keeps_state_frame, keeps_state_ret.
Qed.
End Frame_of_rules.

Lemma keeps_frame_analyzeItem it : keeps_frame (analyzeItem it).
Proof.
  induction it as [c t e IHt IHe|c b IHb|n ps r b IHb|it Hleaf]
    using ASTNode_walk_ind; rewrite analyzeItem_eq.
  - cbn [item_of isStmtNode analyzeStmt_of].
    apply keeps_frame_after_stmt. by apply keeps_frame_analyzeIf_of.
  - cbn [item_of isStmtNode analyzeStmt_of].
    apply keeps_frame_after_stmt. by apply keeps_frame_analyzeWhile_of.
  - cbn [item_of]. apply keeps_state_frame.
    apply keeps_state_bind;
      [apply keeps_state_analyzeFunctionDecl_of|intros _].
    apply keeps_state_ret.
  - destruct it; try discriminate Hleaf; cbn [item_of isStmtNode];
      try (apply keeps_state_frame, keeps_state_ret);
      try (apply keeps_frame_after_stmt; cbn [analyzeStmt_of];
           first [ apply keeps_state_frame, keeps_state_ret
                 | apply keeps_state_frame, keeps_state_analyzePrint
                 | apply keeps_state_frame, keeps_state_analyzeAssignment
                 | apply keeps_frame_analyzeReturn ]).
    apply keeps_frame_bind; [apply keeps_frame_analyzeVarDecl|intros _].
    apply keeps_state_frame, keeps_state_ret.
Qed.

Lemma keeps_frame_all_items block :
  Forall (λ it, keeps_frame (analyzeItem it)) block.
Proof. apply Forall_forall. intros it _. apply keeps_frame_analyzeItem. Qed.

Lemma keeps_state_analyzeFunctionDecl name parameters returnType bodyItems :
  keeps_state (analyzeFunctionDecl name parameters returnType bodyItems).
Proof. apply keeps_state_analyzeFunctionDecl_of. Qed.

Lemma analyzeBlock_normal block createNewScope s s' :
  analyzeBlock block createNewScope s = (Normal tt, s') →
  frame s s' ∧ (createNewScope = true → currentScope s' = currentScope s).
Proof. apply analyzeBlock_of_normal, keeps_frame_all_items. Qed.

(** The scope handle that [analyzeBlock] saves at entry and puts back at
    the end is, at that moment, the parent of the current scope: putting
    the saved handle back is a pop.  This is what allows the chain of
    scopes to be kept as a value. *)
Lemma restore_is_pop block s s' :
  block_loop analyzeItem block false
    (set_currentScope (new_scope (Some (currentScope s))) s)
    = (Normal tt, s') →
  parent (currentScope s') = Some (currentScope s).
Proof.
  intros H.
  by apply (keeps_frame_block_loop _ _ (keeps_frame_all_items block))
    in H as ([Hp _] & _).
Qed.

(** ** Scopes and context at the exits of a rule *)

(** Claim C7, where it fails.  In the body of a function [outer], the
    declaration [func f() -> int { }] ends with the diagnostic
    [missing_return]; the scope pushed for [f] is still the current one and
    the name and return type are those of [f].  A block [{ return; print
    1; }] ends with [unreachable_code] and its scope is still current.
    A block [{ return; }] ends normally with both flags changed. *)
Lemma context_not_restored_on_diagnostic :
  let s := in_function "outer" IOTA in
  let after_f := analyzeFunctionDecl "f" [] INT [] s in
  let after_block :=
    analyzeBlock [ReturnStmtNode None; PrintStmtNode (IntegerNode 1)]
      true s in
  let after_return := analyzeBlock [ReturnStmtNode None] true s in
  (after_f.1 = Throw (missing_return "f")
   ∧ scope_depth (currentScope s) = 1
   ∧ scope_depth (currentScope after_f.2) = 2
   ∧ currentFunction after_f.2 = "f"
   ∧ currentFunctionReturnType after_f.2 = INT)
  ∧ (after_block.1 = Throw unreachable_code
     ∧ scope_depth (currentScope after_block.2) = 2
     ∧ hasReturn after_block.2 = true
     ∧ isUnreachable after_block.2 = true)
  ∧ (after_return.1 = Normal tt
     ∧ hasReturn s = false ∧ hasReturn after_return.2 = true
     ∧ isUnreachable s = false ∧ isUnreachable after_return.2 = true).
Proof. repeat split; reflexivity. Qed.

(** Claim C7, amended.  A function declaration that is analysed to its end
    leaves the walker exactly as it was at entry: the current scope and the
    four context fields.  A block that is analysed to its end leaves the
    name and the return type of the current function as they were, and the
    current scope too: the very same scope when the block pushed one, the
    same scope with the declarations of the block inserted when it did
    not.  (The two flags leave a block as its items set them, and an exit
    by a diagnostic restores nothing.) *)
Theorem context_restored_on_normal_exit :
  (∀ name parameters returnType bodyItems s s',
     analyzeFunctionDecl name parameters returnType bodyItems s
       = (Normal tt, s') →
     s' = s)
  ∧ (∀ block createNewScope s s',
       analyzeBlock block createNewScope s = (Normal tt, s') →
       currentFunction s' = currentFunction s
       ∧ currentFunctionReturnType s' = currentFunctionReturnType s
       ∧ (if createNewScope then currentScope s' = currentScope s
          else scope_extends (currentScope s) (currentScope s'))).
Proof.
  split.
  - intros name parameters returnType bodyItems s s' H.
    by eapply keeps_state_analyzeFunctionDecl.
  - intros block createNewScope s s' H.
    destruct (analyzeBlock_normal _ _ _ _ H) as ((Hs & Hf & Hr) & Hpop).
    repeat split; try done. destruct createNewScope; auto.
Qed.

Lemma context_restored_on_normal_exit_witness :
  let s := in_function "outer" IOTA in
  (analyzeFunctionDecl "f" [MkParam "a" INT] INT
     [VarDeclNode false "x" "int" (Some (IdentifierNode "a"));
      ReturnStmtNode (Some (IdentifierNode "x"))] s).2 = s
  ∧ currentScope
      (analyzeBlock [VarDeclNode false "x" "int" None] true s).2
    = currentScope s.
Proof.
  intros s. destruct context_restored_on_normal_exit as [Hf Hb]. split.
  - apply (Hf "f" [MkParam "a" INT] INT
             [VarDeclNode false "x" "int" (Some (IdentifierNode "a"));
              ReturnStmtNode (Some (IdentifierNode "x"))] s).
    vm_compute. reflexivity.
  - apply (Hb [VarDeclNode false "x" "int" None] true s).
    vm_compute. reflexivity.
Defined.

(** ** Definite return *)

Lemma paths_loop_Exists returns block :
  paths_loop returns block = true ↔ Exists (λ it, returns it = true) block.
Proof.
  induction block as [|it rest IH]; cbn.
  - split; [discriminate|]. by intros ?%Exists_nil.
  - rewrite Exists_cons. destruct (returns it); [tauto|].
    rewrite IH. split; [tauto|]. by intros [?|?].
Qed.

Lemma item_returns_spec it : item_returns it = true ↔ stmt_returns it.
Proof.
  induction it as [c t e IHt IHe|c b IHb|n ps r b IHb|it Hleaf]
    using ASTNode_walk_ind.
  - cbn [item_returns]. destruct e as [|e0 e].
    + split; [discriminate|]. by inversion 1.
    + rewrite andb_true_iff, !paths_loop_Exists. split.
      * intros [Ht He]. constructor; [done| |].
        -- apply Exists_exists in Ht as (x & Hx & Hr).
           apply Exists_exists. exists x. split; [done|].
           by apply (proj1 (Forall_forall _ _) IHt x Hx).
        -- apply Exists_exists in He as (x & Hx & Hr).
           apply Exists_exists. exists x. split; [done|].
           by apply (proj1 (Forall_forall _ _) IHe x Hx).
      * inversion 1 as [|? ? ? _ Ht He]; subst. split.
        -- apply Exists_exists in Ht as (x & Hx & Hr).
           apply Exists_exists. exists x. split; [done|].
           by apply (proj1 (Forall_forall _ _) IHt x Hx).
        -- apply Exists_exists in He as (x & Hx & Hr).
           apply Exists_exists. exists x. split; [done|].
           by apply (proj1 (Forall_forall _ _) IHe x Hx).
  - split; [discriminate|]. inversion 1.
  - split; [discriminate|]. inversion 1.
  - destruct it; try discriminate Hleaf; cbn;
      (split; [try discriminate; intros _; constructor
              |try (inversion 1; fail); done]).
Qed.

Lemma checkPathsReturn_spec block :
  checkPathsReturn block = true ↔ all_paths_return block.
Proof.
  unfold checkPathsReturn, all_paths_return.
  rewrite paths_loop_Exists. split; intros H;
    apply Exists_exists in H as (x & Hx & Hr); apply Exists_exists;
    exists x; (split; [done|]); by apply item_returns_spec.
Qed.

Lemma keeps_frame_add_parameters parameters :
  keeps_frame (add_parameters parameters).
Proof.
  induction parameters as [|param rest IH]; cbn [add_parameters].
  - apply keeps_state_frame, keeps_state_ret.
  - apply keeps_frame_bind;
      [apply keeps_state_frame, keeps_state_get|intros s0].
    apply keeps_frame_bind.
    { apply keeps_state_frame. unfold semantic_error. keeps_state_steps. }
    intros _. apply keeps_frame_bind; [apply keeps_frame_add_to_current|].
    intros _. exact IH.
Qed.

(** In the state in which the body of a function has been analysed, the
    current function is the declared one. *)
Lemma enter_function_context name parameters returnType bodyItems s saved s1 :
  enter_function analyzeItem name parameters returnType bodyItems s
    = (Normal saved, s1) →
  currentFunction s1 = name ∧ currentFunctionReturnType s1 = returnType.
Proof.
  unfold enter_function. rewrite run_bind_get, !run_bind_modify.
  intros H. inv_bind H. inv_bind H. unfold ret in H. injection H as _ <-.
  apply keeps_frame_add_parameters in H0 as (_ & Hf0 & Hr0).
  apply (keeps_frame_analyzeBlock_of _ _ _ (keeps_frame_all_items _))
    in H1 as (_ & Hf1 & Hr1).
  cbn in Hf0, Hr0. split; congruence.
Qed.

(** Claim C2.  For a function declared with a return type other than IOTA,
    the declaration first inserts the parameters and analyses the body; a
    diagnostic raised there ends the walk.  Otherwise the walk gets to the
    check of the return paths, and then the declaration raises
    [missing_return] for this function if and only if [checkPathsReturn]
    fails on the body, and is analysed to its end if it passes.
    [checkPathsReturn] is the check the specification words: a [return]
    returns, an [if] with an else branch returns when both branches do, a
    block returns when one of its items does, and nothing else returns; in
    particular a [while] never does, whatever its condition and body. *)
Theorem missing_return_iff_paths_check_fails
    name parameters returnType bodyItems s :
  returnType ≠ IOTA →
  analyzeFunctionDecl name parameters returnType bodyItems s
    = match enter_function analyzeItem name parameters returnType
              bodyItems s with
      | (Normal _, s1) =>
          if checkPathsReturn bodyItems then (Normal tt, s)
          else (Throw (SemanticException MISSING_RETURN (CtxFunction name)),
                s1)
      | (Throw e, s1) => (Throw e, s1)
      end
  ∧ (∀ saved s1,
       enter_function analyzeItem name parameters returnType bodyItems s
         = (Normal saved, s1) →
       (fst (analyzeFunctionDecl name parameters returnType bodyItems s)
          = Throw (SemanticException MISSING_RETURN (CtxFunction name))
        ↔ checkPathsReturn bodyItems = false))
  ∧ (∀ block, checkPathsReturn block = true ↔ all_paths_return block)
  ∧ (∀ condition body others,
       checkPathsReturn (WhileStmtNode condition body :: others)
         = checkPathsReturn others).
Proof.
  intros Hret.
  assert (Hrun :
    analyzeFunctionDecl name parameters returnType bodyItems s
      = match enter_function analyzeItem name parameters returnType
                bodyItems s with
        | (Normal _, s1) =>
            if checkPathsReturn bodyItems then (Normal tt, s)
            else (Throw (missing_return name), s1)
        | (Throw e, s1) => (Throw e, s1)
        end).
  { unfold analyzeFunctionDecl, analyzeFunctionDecl_of. rewrite run_bind.
    destruct (enter_function _ _ _ _ _ s) as [[saved|e] s1] eqn:Henter;
      [|reflexivity].
    destruct (enter_function_context _ _ _ _ _ _ _ Henter) as [_ Hty].
    pose proof (enter_function_saved _ _ _ _ _ _ _ _ Henter) as ->.
    unfold check_return_paths. rewrite run_bind, run_bind_get, Hty.
    rewrite bool_decide_eq_false_2 by done. cbn [negb].
    destruct (checkPathsReturn bodyItems); cbn [negb].
    - cbv [ret]. apply run_restore_context.
    - reflexivity. }
  split; [exact Hrun|]. split; [|split].
  - intros saved s1 Henter. rewrite Hrun, Henter.
    by destruct (checkPathsReturn bodyItems).
  - apply checkPathsReturn_spec.
  - reflexivity.
Qed.

Lemma missing_return_iff_paths_check_fails_witness :
  fst (analyzeFunctionDecl "f" [] INT
         [WhileStmtNode (BoolNode true)
            [ReturnStmtNode (Some (IntegerNode 1))]]
         (in_function "outer" IOTA))
    = Throw (SemanticException MISSING_RETURN (CtxFunction "f")).
Proof.
  pose (s := in_function "outer" IOTA).
  pose (body := [WhileStmtNode (BoolNode true)
                   [ReturnStmtNode (Some (IntegerNode 1))]]).
  pose (r := enter_function analyzeItem "f" [] INT body s).
  assert (Hne : INT ≠ IOTA) by discriminate.
  assert (Hr : r = (Normal s, r.2)) by (vm_compute; reflexivity).
  destruct (missing_return_iff_paths_check_fails "f" [] INT body s Hne)
    as (_ & Hiff & _).
  apply (Hiff s r.2 Hr). reflexivity.
Defined.

(** ** Redeclaration *)

Lemma check_arguments_throws typeOf f paramTypes ret args :
  Forall (λ a, ∀ ex, typeOf a = Throw ex → typing_diagnostic ex = true) args →
  ∀ i acc ex,
    check_arguments typeOf f paramTypes ret args i acc = Throw ex →
    typing_diagnostic ex = true.
Proof.
  induction 1 as [|a rest Ha _ IH]; intros i acc ex; cbn.
  - discriminate.
  - destruct (typeOf a) as [t|e] eqn:Hty; cbn.
    + destruct (isAssignmentCompatible _ _); cbn.
      * apply IH.
      * by intros [= <-].
    + intros [= <-]. by apply Ha.
Qed.

Lemma analyzeExpr_throws sc e ex :
  analyzeExpr sc e = Throw ex → typing_diagnostic ex = true.
Proof.
  revert ex.
  induction e as [v|v|v|t|name|l op r IHl IHr|op e IH|f args IH]
    using ExprNode_ind; intros ex; cbn [analyzeExpr]; try discriminate.
  - destruct (lookup_sym sc name); [|by intros [= <-]].
    destruct (bool_decide _); [by intros [= <-]|discriminate].
  - destruct (analyzeExpr sc l) as [lt|el]; cbn; [|intros [= <-]; by apply IHl].
    destruct (analyzeExpr sc r) as [rt|er]; cbn; [|intros [= <-]; by apply IHr].
    repeat match goal with
           | |- context [if ?b then _ else _] => destruct b
           end; try discriminate; by intros [= <-].
  - destruct (analyzeExpr sc e) as [t|e']; cbn; [|intros [= <-]; by apply IH].
    repeat match goal with
           | |- context [if ?b then _ else _] => destruct b
           end; try discriminate; by intros [= <-].
  - destruct (lookup_sym sc f); [|by intros [= <-]].
    destruct (negb (bool_decide (sym_kind _ = _))); [by intros [= <-]|].
    destruct (negb (bool_decide (length _ = _))); [by intros [= <-]|].
    by apply check_arguments_throws.
Qed.

Lemma typing_diagnostic_not_redeclaration ex :
  typing_diagnostic ex = true → ¬ is_redeclaration (@Throw unit ex).
Proof. intros H [name [[= ->]|[= ->]]]; discriminate. Qed.

Lemma run_check_not_declared name s :
  check_not_declared name s =
    match table (currentScope s) !! name with
    | Some existing =>
        if bool_decide (sym_kind existing = FUNCTION)
        then (Throw (SemanticException REDECLARED_FUNCTION
                       (CtxFunction name)), s)
        else (Throw (SemanticException REDECLARED_IDENTIFIER
                       (CtxIdentifier name)), s)
    | None => (Normal tt, s)
    end.
Proof.
  unfold check_not_declared, existsLocal, lookupLocal. rewrite run_bind_get.
  destruct (table (currentScope s) !! name) as [existing|] eqn:Hl.
  - rewrite bool_decide_eq_true_2 by eauto.
    by destruct (bool_decide (sym_kind existing = FUNCTION)).
  - rewrite bool_decide_eq_false_2; [done|]. by intros [? [=]].
Qed.

Lemma lookup_sym_local sc name info :
  table sc !! name = Some info → lookup_sym sc name = Some info.
Proof. intros H. destruct sc. cbn in *. by rewrite H. Qed.

Lemma lookup_sym_parent sc name :
  table sc !! name = None →
  lookup_sym sc name = parent sc ≫= (λ p, lookup_sym p name).
Proof. intros H. destruct sc as [t [p|]]; cbn in *; by rewrite H. Qed.

(** Claim C9.  For a declaration that is reached: it raises one of the two
    redeclaration diagnostics if and only if its name is in the table of
    the current scope, and [addSymbol] refuses an insertion under the same
    condition; the parent is looked at by neither.  When the name is not in
    the current table and the initializer, if there is one, has an
    accepted type, the declaration is analysed to its end, whatever the
    enclosing scopes bind; afterwards the current scope holds the new
    symbol, under the same parent, and [lookup_sym] answers the new
    symbol. *)
Theorem redeclaration_consults_current_scope_only
    s isConstant name typeNode initializer :
  isUnreachable s = false →
  (is_redeclaration
     (analyzeVarDecl isConstant name typeNode initializer s).1
   ↔ is_Some (table (currentScope s) !! name))
  ∧ (∀ info, (addSymbol (currentScope s) name info).1 = false
             ↔ is_Some (table (currentScope s) !! name))
  ∧ (table (currentScope s) !! name = None →
     match initializer with
     | None => True
     | Some init =>
         ∃ t, analyzeExpr (currentScope s) init = Normal t
              ∧ isAssignmentCompatible (toDataType typeNode) t = true
     end →
     ∃ s',
       analyzeVarDecl isConstant name typeNode initializer s
         = (Normal tt, s')
       ∧ lookupLocal (currentScope s') name
           = Some (SymbolInfo_of name (toDataType typeNode) VARIABLE
                     isConstant)
       ∧ lookup_sym (currentScope s') name
           = Some (SymbolInfo_of name (toDataType typeNode) VARIABLE
                     isConstant)
       ∧ parent (currentScope s') = parent (currentScope s)).
Proof.
  intros Hreach.
  assert (Hrun :
    analyzeVarDecl isConstant name typeNode initializer s =
      match check_not_declared name s with
      | (Normal _, _) =>
          match initializer with
          | Some init =>
              match analyzeExpr (currentScope s) init with
              | Normal t =>
                  if negb (isAssignmentCompatible (toDataType typeNode) t)
                  then (Throw (SemanticException VAR_DECL_TYPE_MISMATCH
                                 (CtxIdentifierTypeMismatch name
                                    (toDataType typeNode) t)), s)
                  else add_to_current name
                         (SymbolInfo_of name (toDataType typeNode) VARIABLE
                            isConstant) s
              | Throw e => (Throw e, s)
              end
          | None => add_to_current name
                      (SymbolInfo_of name (toDataType typeNode) VARIABLE
                         isConstant) s
          end
      | (Throw e, s') => (Throw e, s')
      end).
  { unfold analyzeVarDecl.
    rewrite run_bind, run_check_reachable, Hreach, run_bind.
    rewrite run_check_not_declared.
    destruct (table (currentScope s) !! name) as [existing|].
    { by destruct (bool_decide _). }
    destruct initializer as [init|]; [|reflexivity].
    rewrite run_bind, run_bind, run_analyzeExprM.
    destruct (analyzeExpr (currentScope s) init) as [t|e]; [|reflexivity].
    by destruct (isAssignmentCompatible _ t). }
  rewrite Hrun, run_check_not_declared. repeat split.
  - destruct (table (currentScope s) !! name) as [existing|]; [eauto|].
    intros Hred. exfalso. revert Hred.
    destruct initializer as [init|].
    + destruct (analyzeExpr (currentScope s) init) as [t|e] eqn:Hty.
      * destruct (isAssignmentCompatible _ t); cbn;
          intros [n [[=]|[=]]].
      * by apply typing_diagnostic_not_redeclaration,
          (analyzeExpr_throws _ _ _ Hty).
    + intros [n [[=]|[=]]].
  - intros [existing ->].
    destruct (bool_decide _); eexists; [left|right]; reflexivity.
  - unfold addSymbol.
    destruct (table (currentScope s) !! name); [eauto|discriminate].
  - unfold addSymbol. by intros [existing ->].
  - intros Hfree Hinit. rewrite Hfree.
    assert (Hadd : ∃ s',
      add_to_current name
        (SymbolInfo_of name (toDataType typeNode) VARIABLE isConstant) s
        = (Normal tt, s')
      ∧ lookupLocal (currentScope s') name
          = Some (SymbolInfo_of name (toDataType typeNode) VARIABLE
                    isConstant)
      ∧ lookup_sym (currentScope s') name
          = Some (SymbolInfo_of name (toDataType typeNode) VARIABLE
                    isConstant)
      ∧ parent (currentScope s') = parent (currentScope s)).
    { eexists. split; [reflexivity|]. cbn. unfold addSymbol, lookupLocal.
      rewrite Hfree. cbn. rewrite lookup_insert_eq. done. }
    destruct initializer as [init|]; [|exact Hadd].
    destruct Hinit as (t & -> & ->). exact Hadd.
Qed.

Lemma redeclaration_consults_current_scope_only_witness :
  lookup_sym (currentScope inside_scope_with_x) "x"
    = Some (SymbolInfo_of "x" FLOAT VARIABLE true)
  ∧ ∃ s',
      analyzeVarDecl false "x" "int" (Some (IntegerNode 1))
        inside_scope_with_x = (Normal tt, s')
      ∧ lookup_sym (currentScope s') "x"
          = Some (SymbolInfo_of "x" INT VARIABLE false).
Proof.
  split; [reflexivity|].
  destruct (redeclaration_consults_current_scope_only inside_scope_with_x
              false "x" "int" (Some (IntegerNode 1)) eq_refl)
    as (_ & _ & H).
  destruct (H eq_refl) as (s' & Hrun & _ & Hlook & _).
  - exists INT. split; reflexivity.
  - exists s'. split; [exact Hrun|exact Hlook].
Defined.

(** ** Names that resolve during the walk *)

Section Resolving.
Variable f : string.

Lemma resolving_ret {A} (a : A) : resolving f (ret a).
Proof. by intros s Hs. Qed.

Lemma resolving_semantic_error {A} t c :
  ¬ undeclared f (SemanticException t c) →
  resolving f (@semantic_error A t c).
Proof. by intros H s Hs. Qed.

Lemma resolving_bind {A B} (m : M A) (k : A → M B) :
  resolving f m → (∀ a, resolving f (k a)) → resolving f (bind m k).
Proof.
  intros Hm Hk s Hs. rewrite run_bind. specialize (Hm s Hs).
  destruct (m s) as [[a|e] s1]; [by apply Hk|done].
Qed.

(** The state read by [get] is one in which [f] resolves. *)
Lemma resolving_bind_get {A} (k : Analyzer → M A) :
  (∀ s0, resolves f s0 → resolving f (k s0)) → resolving f (bind get k).
Proof. intros Hk s Hs. rewrite run_bind_get. by apply Hk. Qed.

Lemma resolving_modify g :
  (∀ s, resolves f s → resolves f (g s)) → resolving f (modify g).
Proof. intros Hg s Hs. by apply Hg. Qed.

Lemma resolving_keeps_scope g :
  (∀ s, currentScope (g s) = currentScope s) → resolving f (modify g).
Proof.
  intros Hg. apply resolving_modify. intros s. unfold resolves.
  by rewrite Hg.
Qed.

Lemma lookup_sym_addSymbol sc name info :
  is_Some (lookup_sym sc f) →
  is_Some (lookup_sym (addSymbol sc name info).2 f).
Proof.
  unfold addSymbol. destruct (table sc !! name) eqn:Hn; [done|].
  destruct sc as [t p]. cbn in *.
  destruct (decide (name = f)) as [->|Hne].
  - rewrite lookup_insert_eq. eauto.
  - by rewrite lookup_insert_ne.
Qed.

Lemma resolving_add_to_current name info :
  resolving f (add_to_current name info).
Proof.
  apply resolving_modify. intros s. apply lookup_sym_addSymbol.
Qed.

Lemma check_arguments_resolving typeOf g paramTypes ret args :
  Forall (λ a, ∀ ex, typeOf a = Throw ex → ¬ undeclared f ex) args →
  ∀ i acc ex,
    check_arguments typeOf g paramTypes ret args i acc = Throw ex →
    ¬ undeclared f ex.
Proof.
  induction 1 as [|a rest Ha _ IH]; intros i acc ex; cbn.
  - discriminate.
  - destruct (typeOf a) as [t|e] eqn:Hty; cbn.
    + destruct (isAssignmentCompatible _ _); cbn.
      * apply IH.
      * intros [= <-] [[=]|[=]].
    + intros [= <-]. by apply Ha.
Qed.

Lemma analyzeExpr_resolving sc e ex :
  is_Some (lookup_sym sc f) →
  analyzeExpr sc e = Throw ex → ¬ undeclared f ex.
Proof.
  intros Hf. revert ex.
  induction e as [v|v|v|t|name|l op r IHl IHr|op e IH|g args IH]
    using ExprNode_ind; intros ex; cbn [analyzeExpr]; try discriminate.
  - destruct (lookup_sym sc name) eqn:Hn.
    + destruct (bool_decide _); [|discriminate].
      intros [= <-] [[=]|[=]].
    + intros [= <-] [[=]|[= ->]]. rewrite Hn in Hf. by destruct Hf.
  - destruct (analyzeExpr sc l) as [lt|el]; cbn;
      [|intros [= <-]; by apply IHl].
    destruct (analyzeExpr sc r) as [rt|er]; cbn;
      [|intros [= <-]; by apply IHr].
    repeat match goal with
           | |- context [if ?b then _ else _] => destruct b
           end; try discriminate; intros [= <-] [[=]|[=]].
  - destruct (analyzeExpr sc e) as [t|e']; cbn;
      [|intros [= <-]; by apply IH].
    repeat match goal with
           | |- context [if ?b then _ else _] => destruct b
           end; try discriminate; intros [= <-] [[=]|[=]].
  - destruct (lookup_sym sc g) eqn:Hg.
    + destruct (negb (bool_decide (sym_kind _ = _)));
        [intros [= <-] [[=]|[=]]|].
      destruct (negb (bool_decide (length _ = _)));
        [intros [= <-] [[=]|[=]]|].
      by apply check_arguments_resolving.
    + intros [= <-] [[= ->]|[=]]. rewrite Hg in Hf. by destruct Hf.
Qed.

Lemma resolving_analyzeExprM e : resolving f (analyzeExprM e).
Proof.
  intros s Hs. rewrite run_analyzeExprM.
  destruct (analyzeExpr (currentScope s) e) eqn:He; [done|].
  by eapply analyzeExpr_resolving.
Qed.

Ltac not_undeclared := intros [[=]|[=]].

Ltac resolving_steps :=
  repeat first
    [ apply resolving_ret
    | apply resolving_analyzeExprM
    | apply resolving_add_to_current
    | (apply resolving_semantic_error; not_undeclared)
    | (apply resolving_keeps_scope; intros ?; reflexivity)
    | (apply resolving_bind; [|intros ?])
    | match goal with
      | |- resolving _ (if ?b then _ else _) => destruct b
      | |- resolving _ (match ?o with Some _ => _ | None => _ end) =>
          destruct o
      end ].

Lemma resolving_check_reachable : resolving f check_reachable.
Proof.
  unfold check_reachable. apply resolving_bind_get. intros s0 _.
  resolving_steps.
Qed.

Lemma resolving_check_not_declared name :
  resolving f (check_not_declared name).
Proof.
  unfold check_not_declared. apply resolving_bind_get. intros s0 _.
  resolving_steps.
Qed.

Lemma resolving_check_condition c : resolving f (check_condition c).
Proof. unfold check_condition. resolving_steps. Qed.

Lemma resolving_analyzeVarDecl c name ty init :
  resolving f (analyzeVarDecl c name ty init).
Proof.
  unfold analyzeVarDecl.
  apply resolving_bind; [apply resolving_check_reachable|intros _].
  apply resolving_bind; [apply resolving_check_not_declared|intros _].
  resolving_steps.
Qed.

Lemma resolving_analyzeAssignment x e : resolving f (analyzeAssignment x e).
Proof.
  unfold analyzeAssignment.
  apply resolving_bind; [apply resolving_check_reachable|intros _].
  apply resolving_bind_get. intros s0 Hs0.
  destruct (lookup_sym (currentScope s0) x) eqn:Hx.
  - resolving_steps.
  - apply resolving_semantic_error. intros [[=]|[= ->]].
    unfold resolves in Hs0. rewrite Hx in Hs0. by destruct Hs0.
Qed.

Lemma resolving_analyzeReturn value : resolving f (analyzeReturn value).
Proof.
  unfold analyzeReturn.
  apply resolving_bind; [apply resolving_check_reachable|intros _].
  apply resolving_bind_get. intros s0 _. resolving_steps.
Qed.

Lemma resolving_analyzePrint e : resolving f (analyzePrint e).
Proof.
  unfold analyzePrint.
  apply resolving_bind; [apply resolving_check_reachable|intros _].
  resolving_steps.
Qed.

Lemma resolving_add_parameters parameters :
  resolving f (add_parameters parameters).
Proof.
  induction parameters as [|param rest IH]; cbn [add_parameters].
  - apply resolving_ret.
  - apply resolving_bind_get. intros s0 _.
    apply resolving_bind; [resolving_steps|intros _].
    apply resolving_bind; [apply resolving_add_to_current|intros _].
    exact IH.
Qed.

Variable item : ASTNode → M bool.

Lemma resolving_block_loop block :
  Forall (λ it, resolving f (item it)) block →
  ∀ b, resolving f (block_loop item block b).
Proof.
  induction 1 as [|it rest Hit _ IH]; intros b; cbn [block_loop].
  - apply resolving_ret.
  - destruct b; [apply resolving_semantic_error; not_undeclared|].
    apply resolving_bind; [exact Hit|]. intros t. apply IH.
Qed.

Lemma resolving_analyzeBlock_of block createNewScope :
  Forall (λ it, resolving f (item it)) block →
  resolving f (analyzeBlock_of item block createNewScope).
Proof.
  intros Hitems. unfold analyzeBlock_of.
  apply resolving_bind_get. intros s0 Hs0.
  apply resolving_bind.
  { destruct createNewScope; [|apply resolving_ret].
    apply resolving_modify. by intros s _. }
  intros _. apply resolving_bind; [by apply resolving_block_loop|].
  intros _. destruct createNewScope; [|apply resolving_ret].
  apply resolving_modify. by intros s _.
Qed.

Lemma resolving_analyzeIf_of c thenItems elseItems :
  Forall (λ it, resolving f (item it)) thenItems →
  Forall (λ it, resolving f (item it)) elseItems →
  resolving f (analyzeIf_of item c thenItems elseItems).
Proof.
  intros Ht He. unfold analyzeIf_of.
  apply resolving_bind; [apply resolving_check_reachable|intros _].
  apply resolving_bind; [apply resolving_check_condition|intros _].
  apply resolving_bind_get. intros s0 _.
  apply resolving_bind; [by apply resolving_analyzeBlock_of|intros _].
  apply resolving_bind_get. intros s1 _.
  apply resolving_bind;
    [apply resolving_keeps_scope; intros ?; reflexivity|intros _].
  destruct elseItems as [|e0 rest];
    [apply resolving_keeps_scope; intros ?; reflexivity|].
  apply resolving_bind; [by apply resolving_analyzeBlock_of|intros _].
  apply resolving_bind_get. intros s2 _.
  destruct (_ && _); apply resolving_keeps_scope; intros ?; reflexivity.
Qed.

Lemma resolving_analyzeWhile_of c bodyItems :
  Forall (λ it, resolving f (item it)) bodyItems →
  resolving f (analyzeWhile_of item c bodyItems).
Proof.
  intros Hb. unfold analyzeWhile_of.
  apply resolving_bind; [apply resolving_check_reachable|intros _].
  apply resolving_bind; [apply resolving_check_condition|intros _].
  apply resolving_bind_get. intros s0 _.
  apply resolving_bind; [by apply resolving_analyzeBlock_of|intros _].
  apply resolving_keeps_scope; intros ?; reflexivity.
Qed.

Lemma resolving_enter_function name parameters returnType bodyItems :
  Forall (λ it, resolving f (item it)) bodyItems →
  resolving f (enter_function item name parameters returnType bodyItems).
Proof.
  intros Hb. unfold enter_function.
  apply resolving_bind_get. intros saved Hsaved.
  apply resolving_bind; [apply resolving_modify; by intros s _|].
  intros _.
  do 4 (apply resolving_bind;
          [apply resolving_keeps_scope; intros ?; reflexivity|intros _]).
  apply resolving_bind; [apply resolving_add_parameters|intros _].
  apply resolving_bind; [by apply resolving_analyzeBlock_of|intros _].
  apply resolving_ret.
Qed.

Lemma resolving_analyzeFunctionDecl_of name parameters returnType
    bodyItems :
  Forall (λ it, resolving f (item it)) bodyItems →
  resolving f (analyzeFunctionDecl_of item name parameters returnType
                 bodyItems).
Proof.
  intros Hb s Hs. unfold analyzeFunctionDecl_of. rewrite run_bind.
  pose proof (resolving_enter_function name parameters returnType
                bodyItems Hb s Hs) as Henter.
  destruct (enter_function _ _ _ _ _ s) as [[saved|e] s1] eqn:Hrun;
    [|exact Henter].
  apply enter_function_saved in Hrun as ->.
  rewrite run_bind. unfold check_return_paths. rewrite run_bind_get.
  destruct (negb (bool_decide _)); [destruct (negb _)|].
  - intros [[=]|[=]].
  - cbv [ret]. by rewrite run_restore_context.
  - cbv [ret]. by rewrite run_restore_context.
Qed.
End Resolving.

Lemma resolving_analyzeItem f it : resolving f (analyzeItem it).
Proof.
  induction it as [c t e IHt IHe|c b IHb|n ps r b IHb|it Hleaf]
    using ASTNode_walk_ind; rewrite analyzeItem_eq.
  - cbn [item_of isStmtNode analyzeStmt_of isTerminator].
    apply resolving_bind; [by apply resolving_analyzeIf_of|intros _].
    apply resolving_ret.
  - cbn [item_of isStmtNode analyzeStmt_of isTerminator].
    apply resolving_bind; [by apply resolving_analyzeWhile_of|intros _].
    apply resolving_ret.
  - cbn [item_of].
    apply resolving_bind; [by apply resolving_analyzeFunctionDecl_of|].
    intros _. apply resolving_ret.
  - destruct it; try discriminate Hleaf;
      cbn [item_of isStmtNode analyzeStmt_of isTerminator];
      try apply resolving_ret;
      try (apply resolving_bind; [|intros _; apply resolving_ret]);
      try apply resolving_ret.
    + apply resolving_analyzePrint.
    + apply resolving_analyzeAssignment.
    + apply resolving_bind; [apply resolving_analyzeReturn|intros _].
      apply resolving_bind; [|intros _; apply resolving_ret].
      apply resolving_keeps_scope; intros ?; reflexivity.
    + apply resolving_analyzeVarDecl.
Qed.

Lemma resolving_all_items f block :
  Forall (λ it, resolving f (analyzeItem it)) block.
Proof. apply Forall_forall. intros it _. apply resolving_analyzeItem. Qed.

Lemma resolving_walk f declarations : resolving f (walk declarations).
Proof.
  induction declarations as [|decl rest IH]; cbn [walk].
  - apply resolving_ret.
  - apply resolving_bind; [|intros _; exact IH].
    destruct decl; try apply resolving_ret.
    + apply resolving_analyzeVarDecl.
    + apply resolving_analyzeFunctionDecl_of, resolving_all_items.
Qed.

(** ** The two passes *)

Lemma run_add_to_current name info s :
  add_to_current name info s
    = (Normal tt,
       set_currentScope (addSymbol (currentScope s) name info).2 s).
Proof. reflexivity. Qed.

Lemma hoist_throws declarations :
  ∀ s e s', hoist declarations s = (Throw e, s') →
            is_redeclaration (@Throw unit e).
Proof.
  induction declarations as [|decl rest IH]; intros s e s'; cbn [hoist].
  - discriminate.
  - rewrite run_bind.
    destruct decl; try (rewrite ?run_bind_ret; cbv [ret]; apply IH).
    rewrite run_bind, run_check_not_declared.
    destruct (table (currentScope s) !! name) as [existing|].
    + destruct (bool_decide _); intros [= <- _]; eexists; eauto.
    + rewrite run_add_to_current. apply IH.
Qed.

(** What the first pass leaves: the table of the current scope has grown
    by the function declarations, each under its name with its signature,
    and by nothing else; the rest of the walker is as it was. *)
Lemma hoist_normal declarations :
  ∀ s s1,
    hoist declarations s = (Normal tt, s1) →
    s1 = set_currentScope (currentScope s1) s
    ∧ scope_extends (currentScope s) (currentScope s1)
    ∧ (∀ f, f ∈ function_names declarations →
         ∃ ps r body,
           FunctionDeclNode f ps r body ∈ declarations
           ∧ table (currentScope s1) !! f
               = Some (SymbolInfo_function f (param_type <$> ps) r))
    ∧ (∀ x, x ∉ function_names declarations →
         table (currentScope s1) !! x = table (currentScope s) !! x).
Proof.
  induction declarations as [|decl rest IH]; intros s s1; cbn [hoist].
  - cbv [ret]. intros [= <-]. repeat split; try done.
    + by destruct s.
    + intros f Hf. by apply elem_of_nil in Hf.
  - rewrite run_bind.
    assert (Hskip : ∀ d, function_names (d :: rest) = function_names rest →
              hoist rest s = (Normal tt, s1) →
              s1 = set_currentScope (currentScope s1) s
              ∧ scope_extends (currentScope s) (currentScope s1)
              ∧ (∀ f, f ∈ function_names (d :: rest) →
                   ∃ ps r body,
                     FunctionDeclNode f ps r body ∈ d :: rest
                     ∧ table (currentScope s1) !! f
                         = Some (SymbolInfo_function f (param_type <$> ps) r))
              ∧ (∀ x, x ∉ function_names (d :: rest) →
                   table (currentScope s1) !! x
                     = table (currentScope s) !! x)).
    { intros d Hd Hrun. rewrite Hd.
      destruct (IH _ _ Hrun) as (H1 & H2 & H3 & H4).
      repeat split; try done; try apply H2.
      intros f Hf. destruct (H3 f Hf) as (ps & r & body & Hin & Hl).
      exists ps, r, body. split; [by apply elem_of_cons; right|done]. }
    destruct decl; try (rewrite ?run_bind_ret; cbv [ret]; by apply Hskip).
    clear Hskip. rewrite run_bind, run_check_not_declared.
    destruct (table (currentScope s) !! name) as [existing|] eqn:Hfree.
    { by destruct (bool_decide _). }
    rewrite run_add_to_current. intros Hrun.
    destruct (IH _ _ Hrun) as (H1 & H2 & H3 & H4). cbn in H1, H2, H4.
    assert (Hadd : addSymbol (currentScope s) name
                     (SymbolInfo_function name (param_type <$> parameters)
                        returnType)
                   = (true, {| table := <[name := SymbolInfo_function name
                                   (param_type <$> parameters) returnType]>
                                  (table (currentScope s));
                               parent := parent (currentScope s) |})).
    { unfold addSymbol. by rewrite Hfree. }
    rewrite Hadd in H1, H2, H4. cbn in H1, H2, H4. repeat split.
    + exact H1.
    + destruct H2 as [Hp _]. exact Hp.
    + destruct H2 as [_ Ht]. cbn in Ht. etrans; [|exact Ht].
      by apply insert_subseteq.
    + intros f Hf. cbn [function_names] in Hf.
      apply elem_of_cons in Hf as [->|Hf].
      * exists parameters, returnType, bodyItems.
        split; [apply elem_of_cons; by left|].
        destruct H2 as [_ Ht]. cbn in Ht.
        eapply lookup_weaken; [|exact Ht]. apply lookup_insert_eq.
      * destruct (H3 f Hf) as (ps & r & body & Hin & Hl).
        exists ps, r, body. split; [by apply elem_of_cons; right|done].
    + intros x Hx. cbn [function_names] in Hx.
      apply not_elem_of_cons in Hx as [Hne Hx].
      rewrite (H4 x Hx). by rewrite lookup_insert_ne.
Qed.

Lemma walk_app before after s :
  walk (before ++ after) s = bind (walk before) (λ _, walk after) s.
Proof.
  revert s. induction before as [|decl rest IH]; intros s; cbn [walk app].
  - reflexivity.
  - rewrite run_bind_assoc, !run_bind.
    destruct (match decl with
              | FunctionDeclNode n ps r b => analyzeFunctionDecl n ps r b
              | VarDeclNode c n t i => analyzeVarDecl c n t i
              | _ => ret tt
              end s) as [[[]|e] s']; [apply IH|reflexivity].
Qed.

Lemma analyzeVarDecl_normal c name ty init s s' :
  analyzeVarDecl c name ty init s = (Normal tt, s') →
  s' = set_currentScope
         (addSymbol (currentScope s) name
            (SymbolInfo_of name (toDataType ty) VARIABLE c)).2 s.
Proof.
  unfold analyzeVarDecl. intros H. inv_bind H. inv_bind H. inv_bind H.
  apply keeps_state_check_reachable in H0 as ->.
  apply keeps_state_check_not_declared in H1 as ->.
  assert (s2 = s) as ->.
  { destruct init as [i|].
    - inv_bind H2. apply keeps_state_analyzeExprM in H0 as ->.
      destruct (negb _); [discriminate|]. cbv [ret] in H2. congruence.
    - cbv [ret] in H2. congruence. }
  rewrite run_add_to_current in H. congruence.
Qed.

(** The second pass over declarations that do not declare [x] leaves [x]
    as it was in the table of the current scope, under the same parent,
    and leaves the reachability flag as it was. *)
Lemma walk_normal x before :
  x ∉ variable_names before →
  ∀ s s2,
    walk before s = (Normal tt, s2) →
    table (currentScope s2) !! x = table (currentScope s) !! x
    ∧ parent (currentScope s2) = parent (currentScope s)
    ∧ isUnreachable s2 = isUnreachable s.
Proof.
  induction before as [|decl rest IH]; intros Hx s s2; cbn [walk].
  - cbv [ret]. by intros [= <-].
  - intros H. inv_bind H. destruct a.
    destruct decl; cbn [variable_names] in Hx;
      try (cbv [ret] in H0; assert (s0 = s) as -> by congruence;
           by apply IH).
    + apply not_elem_of_cons in Hx as [Hne Hx].
      apply analyzeVarDecl_normal in H0 as ->.
      destruct (IH Hx _ _ H) as (Ht & Hp & Hu). cbn in Ht, Hp, Hu.
      rewrite Ht, Hp, Hu. unfold addSymbol.
      destruct (table (currentScope s) !! name) eqn:Hn; cbn; [done|].
      by rewrite lookup_insert_ne.
    + apply keeps_state_analyzeFunctionDecl in H0 as ->. by apply IH.
Qed.

Lemma add_parameters_normal parameters :
  ∀ s,
    NoDup (param_name <$> parameters) →
    (∀ n, n ∈ param_name <$> parameters →
          table (currentScope s) !! n = None) →
    ∃ s',
      add_parameters parameters s = (Normal tt, s')
      ∧ parent (currentScope s') = parent (currentScope s)
      ∧ isUnreachable s' = isUnreachable s
      ∧ ∀ x, x ∉ param_name <$> parameters →
             table (currentScope s') !! x = table (currentScope s) !! x.
Proof.
  induction parameters as [|param rest IH]; intros s Hnd Hfree;
    cbn [add_parameters].
  - exists s. by repeat split.
  - rewrite fmap_cons in Hnd, Hfree. apply NoDup_cons in Hnd as [Hnew Hnd].
    rewrite run_bind_get. unfold existsLocal.
    assert (Hp : table (currentScope s) !! param_name param = None).
    { apply Hfree, elem_of_cons. by left. }
    rewrite run_bind, bool_decide_eq_false_2
      by (rewrite Hp; by intros [? [=]]).
    cbv [ret]. rewrite run_bind, run_add_to_current.
    unfold addSymbol. rewrite Hp. cbn [snd].
    destruct (IH (set_currentScope
                    {| table := <[param_name param :=
                                    SymbolInfo_of (param_name param)
                                      (param_type param) VARIABLE false]>
                                  (table (currentScope s));
                       parent := parent (currentScope s) |} s) Hnd)
      as (s' & Hrun & Hpar & Hun & Htab).
    { intros n Hn. cbn. rewrite lookup_insert_ne.
      - apply Hfree, elem_of_cons. by right.
      - intros <-. done. }
    exists s'. repeat split; try done.
    intros x Hx. rewrite fmap_cons in Hx.
    apply not_elem_of_cons in Hx as [Hne Hx].
    rewrite (Htab x Hx). cbn. by rewrite lookup_insert_ne.
Qed.

(** A declaration of a fresh name initialised with an identifier that does
    not resolve. *)
Lemma analyzeVarDecl_reads_undeclared c y ty x s :
  isUnreachable s = false →
  table (currentScope s) !! y = None →
  lookup_sym (currentScope s) x = None →
  analyzeVarDecl c y ty (Some (IdentifierNode x)) s
    = (Throw (undeclared_identifier x), s).
Proof.
  intros Hreach Hy Hx. unfold analyzeVarDecl.
  rewrite run_bind, run_check_reachable, Hreach.
  rewrite run_bind, run_check_not_declared, Hy.
  rewrite !run_bind, run_analyzeExprM. cbn [analyzeExpr].
  by rewrite Hx.
Qed.

(** A function whose body starts by printing an identifier that is neither
    a parameter nor bound outside. *)
Lemma analyzeFunctionDecl_reads_undeclared g ps r body x s :
  lookup_sym (currentScope s) x = None →
  x ∉ param_name <$> ps →
  NoDup (param_name <$> ps) →
  (analyzeFunctionDecl g ps r
     (PrintStmtNode (IdentifierNode x) :: body) s).1
    = Throw (undeclared_identifier x).
Proof.
  intros Hx Hnp Hnd.
  unfold analyzeFunctionDecl, analyzeFunctionDecl_of, enter_function.
  rewrite run_bind, run_bind_get, !run_bind_modify.
  match goal with
  | |- context [bind (add_parameters ps) _ ?sm] =>
      destruct (add_parameters_normal ps sm Hnd)
        as (s' & Hrun & Hpar & Hun & Htab); [by intros n _|]
  end.
  rewrite (run_bind_normal _ _ _ _ _ Hrun).
  assert (Hthrow :
    analyzeBlock_of analyzeItem (PrintStmtNode (IdentifierNode x) :: body)
      false s' = (Throw (undeclared_identifier x), s')).
  { unfold analyzeBlock_of.
    rewrite run_bind_get, run_bind_ret, run_bind, run_block_loop_cons.
    rewrite analyzeItem_eq.
    cbn [item_of isStmtNode analyzeStmt_of isTerminator].
    unfold analyzePrint.
    rewrite !run_bind, run_check_reachable, Hun. cbn [isUnreachable
      set_isUnreachable].
    rewrite !run_bind, run_analyzeExprM. cbn [analyzeExpr].
    rewrite lookup_sym_parent by (rewrite (Htab x Hnp); done).
    rewrite Hpar. cbn. by rewrite Hx. }
  by rewrite (run_bind_throw _ _ _ _ _ Hthrow).
Qed.

(** Claim C6.  [analyzeProgram] runs the first pass over all declarations
    and then the second pass, from an empty global scope.  When the first
    pass ends normally the global scope binds every function name of the
    program to a function symbol with the declared signature, wherever the
    declaration stands, and binds no other name.  Hence the walk never
    reports the name of a top-level function as undeclared, neither as a
    function nor as an identifier.  Variables enter the global scope only
    when the second pass reaches their declaration: after the declarations
    before a given one, a name that is no function and is declared by none
    of them resolves to nothing, even when it is declared later, so a
    declaration initialised with it, or a function whose body starts by
    printing it, raises [undeclared_identifier]. *)
Theorem functions_hoisted_variables_not declarations s :
  let s0 := set_currentScope (new_scope None) s in
  analyzeProgram declarations s
    = bind (hoist declarations) (λ _, walk declarations) s0
  ∧ (∀ s1,
       hoist declarations s0 = (Normal tt, s1) →
       (∀ f, f ∈ function_names declarations →
          ∃ ps r body,
            FunctionDeclNode f ps r body ∈ declarations
            ∧ lookup_sym (currentScope s1) f
                = Some (SymbolInfo_function f (param_type <$> ps) r))
       ∧ (∀ x, x ∉ function_names declarations →
            lookup_sym (currentScope s1) x = None))
  ∧ (∀ f e,
       f ∈ function_names declarations →
       (analyzeProgram declarations s).1 = Throw e →
       ¬ undeclared f e)
  ∧ (∀ before user after x s1 s2,
       declarations = before ++ user :: after →
       x ∉ function_names declarations →
       x ∉ variable_names before →
       hoist declarations s0 = (Normal tt, s1) →
       walk before s1 = (Normal tt, s2) →
       lookup_sym (currentScope s2) x = None
       ∧ (∀ c y ty,
            user = VarDeclNode c y ty (Some (IdentifierNode x)) →
            isUnreachable s = false →
            y ∉ function_names declarations →
            y ∉ variable_names before →
            (analyzeProgram declarations s).1
              = Throw (undeclared_identifier x))
       ∧ (∀ g ps r body,
            user = FunctionDeclNode g ps r
                     (PrintStmtNode (IdentifierNode x) :: body) →
            x ∉ param_name <$> ps →
            NoDup (param_name <$> ps) →
            (analyzeProgram declarations s).1
              = Throw (undeclared_identifier x))).
Proof.
  intros s0.
  assert (Hglobal : ∀ s1, hoist declarations s0 = (Normal tt, s1) →
            ∀ x, lookup_sym (currentScope s1) x
                 = table (currentScope s1) !! x).
  { intros s1 Hh x. destruct (hoist_normal _ _ _ Hh) as (_ & [Hp _] & _).
    destruct (table (currentScope s1) !! x) eqn:Hx.
    - by apply lookup_sym_local.
    - rewrite lookup_sym_parent by done. by rewrite Hp. }
  assert (Hfun : ∀ s1, hoist declarations s0 = (Normal tt, s1) →
            (∀ f, f ∈ function_names declarations →
               ∃ ps r body,
                 FunctionDeclNode f ps r body ∈ declarations
                 ∧ lookup_sym (currentScope s1) f
                     = Some (SymbolInfo_function f (param_type <$> ps) r))
            ∧ (∀ x, x ∉ function_names declarations →
                 lookup_sym (currentScope s1) x = None)).
  { intros s1 Hh. destruct (hoist_normal _ _ _ Hh) as (_ & _ & Hf & Hx).
    split.
    - intros f Hin. destruct (Hf f Hin) as (ps & r & body & Hd & Hl).
      exists ps, r, body. split; [done|]. by rewrite (Hglobal _ Hh).
    - intros x Hnot. by rewrite (Hglobal _ Hh), (Hx x Hnot). }
  assert (Hrun : analyzeProgram declarations s
            = bind (hoist declarations) (λ _, walk declarations) s0)
    by reflexivity.
  split; [exact Hrun|]. split; [exact Hfun|]. split.
  - intros f e Hin. rewrite Hrun, run_bind.
    destruct (hoist declarations s0) as [[[]|e0] s1] eqn:Hh.
    + destruct (proj1 (Hfun _ eq_refl) f Hin) as (ps & r & body & _ & Hl).
      assert (Hres : resolves f s1) by (unfold resolves; rewrite Hl; eauto).
      pose proof (resolving_walk f declarations s1 Hres) as Hw.
      destruct (walk declarations s1) as [[[]|e1] s2]; [discriminate|].
      by intros [= <-].
    + intros [= <-] Hund.
      destruct (hoist_throws _ _ _ _ Hh) as [n [[= ->]|[= ->]]];
        by destruct Hund.
  - intros before user after x s1 s2 -> Hxf Hxv Hh Hw.
    destruct (walk_normal x before Hxv _ _ Hw) as (Ht & Hp & Hu).
    destruct (hoist_normal _ _ _ Hh) as (Hs1 & [Hp1 _] & _ & Hx1).
    assert (Hnone : ∀ z, z ∉ function_names (before ++ user :: after) →
              z ∉ variable_names before →
              table (currentScope s2) !! z = None
              ∧ lookup_sym (currentScope s2) z = None).
    { intros z Hzf Hzv.
      destruct (walk_normal z before Hzv _ _ Hw) as (Hzt & _ & _).
      assert (Hz : table (currentScope s2) !! z = None).
      { rewrite Hzt, (Hx1 z Hzf). done. }
      split; [done|]. rewrite lookup_sym_parent by done.
      by rewrite Hp, Hp1. }
    assert (Hprog : ∀ e s3,
              match user with
              | FunctionDeclNode n ps r b => analyzeFunctionDecl n ps r b
              | VarDeclNode c n t i => analyzeVarDecl c n t i
              | _ => ret tt
              end s2 = (Throw e, s3) →
              (analyzeProgram (before ++ user :: after) s).1 = Throw e).
    { intros e s3 He. rewrite Hrun, (run_bind_normal _ _ _ _ _ Hh).
      rewrite walk_app, (run_bind_normal _ _ _ _ _ Hw).
      cbn [walk]. by rewrite (run_bind_throw _ _ _ _ _ He). }
    split; [by apply Hnone|]. split.
    + intros c y ty -> Hreach Hyf Hyv.
      apply (Hprog _ s2), analyzeVarDecl_reads_undeclared.
      * rewrite Hu, Hs1. exact Hreach.
      * by apply Hnone.
      * by apply Hnone.
    + intros g ps r body -> Hnp Hnd.
      pose proof (analyzeFunctionDecl_reads_undeclared g ps r body x s2
                    (proj2 (Hnone x Hxf Hxv)) Hnp Hnd) as Hthrow.
      destruct (analyzeFunctionDecl g ps r _ s2) as [o s3] eqn:Hd.
      cbn in Hthrow. subst o. by apply (Hprog _ s3).
Qed.

Lemma functions_hoisted_variables_not_witness :
  (analyzeProgram use_before_declaration initial).1
    = Throw (undeclared_identifier "x")
  ∧ ¬ undeclared "b"
        (SemanticException UNDECLARED_IDENTIFIER (CtxIdentifier "x")).
Proof.
  pose (s0 := set_currentScope (new_scope None) initial).
  pose (s1 := (hoist use_before_declaration s0).2).
  pose (before := [FunctionDeclNode "a" [] IOTA
                     [PrintStmtNode (FunctionCallNode "b" [])];
                   FunctionDeclNode "b" [] INT
                     [ReturnStmtNode (Some (IntegerNode 1))]]).
  pose (s2 := (walk before s1).2).
  destruct (functions_hoisted_variables_not use_before_declaration initial)
    as (_ & _ & Hcall & Hvar).
  assert (Hthrow : (analyzeProgram use_before_declaration initial).1
                   = Throw (undeclared_identifier "x")).
  { destruct (Hvar before
                (FunctionDeclNode "g" [] IOTA
                   [PrintStmtNode (IdentifierNode "x")])
                [VarDeclNode false "x" "int" (Some (IntegerNode 1))]
                "x" s1 s2) as (_ & _ & Hbody).
    - reflexivity.
    - compute_done.
    - compute_done.
    - vm_compute. reflexivity.
    - vm_compute. reflexivity.
    - apply (Hbody "g" [] IOTA []).
      + reflexivity.
      + compute_done.
      + apply NoDup_nil_2. }
  split; [exact Hthrow|].
  apply (Hcall "b" _ ltac:(compute_done) Hthrow).
Defined.

(** * Further properties of the walker *)

(** ** Conditions *)

(** X1.  The condition of an [if] or a [while] that is reached must have
    the type BOOL itself: with any other type, INT included, both rules
    raise [condition_not_boolean] carrying that type, before a branch or
    the body is looked at. *)
Theorem condition_must_be_BOOL s condition actual :
  isUnreachable s = false →
  analyzeExpr (currentScope s) condition = Normal actual →
  actual ≠ BOOL →
  (∀ thenItems elseItems,
     analyzeIf condition thenItems elseItems s
       = (Throw (condition_not_bool actual), s))
  ∧ (∀ bodyItems,
       analyzeWhile condition bodyItems s
         = (Throw (condition_not_bool actual), s)).
Proof.
  intros Hreach Hcond Hne.
  assert (Hc : check_condition condition s
               = (Throw (condition_not_bool actual), s)).
  { unfold check_condition. rewrite run_bind, run_analyzeExprM, Hcond.
    by rewrite bool_decide_eq_false_2. }
  split; intros; unfold analyzeIf, analyzeIf_of, analyzeWhile, analyzeWhile_of;
    rewrite run_bind, run_check_reachable, Hreach;
    by rewrite (run_bind_throw _ _ _ _ _ Hc).
Qed.

Lemma condition_must_be_BOOL_witness :
  analyzeIf (IntegerNode 1) [] [] (in_function "f" IOTA)
    = (Throw (condition_not_bool INT), in_function "f" IOTA).
Proof.
  assert (Hne : INT ≠ BOOL) by discriminate.
  destruct (condition_must_be_BOOL (in_function "f" IOTA) (IntegerNode 1)
              INT eq_refl eq_refl Hne) as [Hif _].
  apply Hif.
Defined.

(** ** What a statement with sub-blocks leaves behind *)

Lemma analyzeBlock_pushed_normal block s s' :
  analyzeBlock block true s = (Normal tt, s') →
  s' = set_isUnreachable (isUnreachable s')
         (set_hasReturn (hasReturn s') s).
Proof.
  intros H. destruct (analyzeBlock_normal _ _ _ _ H) as ((_ & Hf & Hr) & Hsc).
  specialize (Hsc eq_refl). destruct s, s'. cbn in *. by subst.
Qed.

(** X2.  A [while] that is analysed to its end leaves the walker as it
    was but for [hasReturn]: the scope of the body is gone with all its
    declarations, and the code after the loop is as reachable as the loop
    was.  An [if] that is analysed to its end leaves the walker as it was
    but for the two flags. *)
Theorem statements_with_blocks_leave_scope :
  (∀ condition bodyItems s s',
     analyzeWhile condition bodyItems s = (Normal tt, s') →
     s' = set_hasReturn (hasReturn s') s)
  ∧ (∀ condition thenItems elseItems s s',
       analyzeIf condition thenItems elseItems s = (Normal tt, s') →
       s' = set_isUnreachable (isUnreachable s')
              (set_hasReturn (hasReturn s') s)).
Proof.
  split.
  - intros c b s s' H. unfold analyzeWhile, analyzeWhile_of in H.
    inv_bind H. inv_bind H. rewrite run_bind_get in H. inv_bind H.
    apply keeps_state_check_reachable in H0 as ->.
    apply keeps_state_check_condition in H1 as ->.
    destruct a1. apply analyzeBlock_pushed_normal in H2.
    unfold modify in H. injection H as <-. rewrite H2.
    by destruct s.
  - intros c t e s s' H. unfold analyzeIf, analyzeIf_of in H.
    inv_bind H. inv_bind H. rewrite run_bind_get in H. inv_bind H.
    apply keeps_state_check_reachable in H0 as ->.
    apply keeps_state_check_condition in H1 as ->.
    destruct a1. apply analyzeBlock_pushed_normal in H2.
    rewrite run_bind_get, run_bind_modify in H.
    destruct e as [|e0 e].
    + unfold modify in H. injection H as <-. rewrite H2. by destruct s.
    + inv_bind H. destruct a1. apply analyzeBlock_pushed_normal in H0.
      rewrite run_bind_get in H.
      destruct (_ && _); unfold modify in H; injection H as <-;
        rewrite H0, H2; by destruct s.
Qed.

Lemma statements_with_blocks_leave_scope_witness :
  let s := in_function "f" IOTA in
  currentScope
    (analyzeWhile (BoolNode true)
       [VarDeclNode false "x" "int" None; ReturnStmtNode None] s).2
    = currentScope s.
Proof.
  intros s. destruct statements_with_blocks_leave_scope as [Hw _].
  rewrite (Hw (BoolNode true)
             [VarDeclNode false "x" "int" None; ReturnStmtNode None] s
             (analyzeWhile (BoolNode true)
                [VarDeclNode false "x" "int" None; ReturnStmtNode None] s).2).
  - reflexivity.
  - vm_compute. reflexivity.
Defined.

(** ** Functions without a value *)

(** X3.  A function declared with the return type IOTA is never asked for
    a [return]: once its parameters are inserted and its body is analysed
    without a diagnostic, the declaration is analysed to its end, whatever
    [checkPathsReturn] says of the body. *)
Theorem unit_function_needs_no_return name parameters bodyItems s saved s1 :
  enter_function analyzeItem name parameters IOTA bodyItems s
    = (Normal saved, s1) →
  analyzeFunctionDecl name parameters IOTA bodyItems s = (Normal tt, s).
Proof.
  intros Henter.
  destruct (enter_function_context _ _ _ _ _ _ _ Henter) as [_ Hty].
  pose proof (enter_function_saved _ _ _ _ _ _ _ _ Henter) as ->.
  unfold analyzeFunctionDecl, analyzeFunctionDecl_of.
  rewrite (run_bind_normal _ _ _ _ _ Henter).
  unfold check_return_paths. rewrite run_bind, run_bind_get, Hty.
  cbn. apply run_restore_context.
Qed.

Lemma unit_function_needs_no_return_witness :
  let s := in_function "outer" IOTA in
  analyzeFunctionDecl "f" [] IOTA [PrintStmtNode (IntegerNode 1)] s
    = (Normal tt, s)
  ∧ checkPathsReturn [PrintStmtNode (IntegerNode 1)] = false.
Proof.
  intros s. split; [|reflexivity].
  apply (unit_function_needs_no_return "f" []
           [PrintStmtNode (IntegerNode 1)] s s
           (enter_function analyzeItem "f" [] IOTA
              [PrintStmtNode (IntegerNode 1)] s).2).
  vm_compute. reflexivity.
Defined.

(** ** Insertion and lookup *)

(** X4.  [addSymbol] inserts if absent and never overwrites: afterwards the
    name resolves, to the symbol that was there if there was one and to the
    new one otherwise; every other name resolves as before; and a second
    insertion under the same name is refused and changes nothing. *)
Theorem addSymbol_then_lookup sc name info :
  lookup_sym (addSymbol sc name info).2 name
    = Some (default info (table sc !! name))
  ∧ existsLocal (addSymbol sc name info).2 name = true
  ∧ (∀ other, other ≠ name →
       lookup_sym (addSymbol sc name info).2 other = lookup_sym sc other)
  ∧ (∀ info', addSymbol (addSymbol sc name info).2 name info'
              = (false, (addSymbol sc name info).2)).
Proof.
  unfold addSymbol, existsLocal.
  destruct (table sc !! name) as [old|] eqn:Hold; cbn [snd].
  - repeat split.
    + by apply lookup_sym_local.
    + apply bool_decide_eq_true_2. rewrite Hold. eauto.
    + by rewrite Hold.
  - repeat split.
    + apply lookup_sym_local. cbn. apply lookup_insert_eq.
    + apply bool_decide_eq_true_2. cbn. rewrite lookup_insert_eq. eauto.
    + intros other Hne. destruct sc as [t p]. cbn in *.
      by rewrite lookup_insert_ne.
    + intros info'. cbn. by rewrite lookup_insert_eq.
Qed.

(** ** Expression typing *)

Lemma check_arguments_ext typeOf1 typeOf2 f paramTypes ret args :
  Forall (λ a, typeOf1 a = typeOf2 a) args →
  ∀ i acc,
    check_arguments typeOf1 f paramTypes ret args i acc
      = check_arguments typeOf2 f paramTypes ret args i acc.
Proof.
  induction 1 as [|a rest Ha _ IH]; intros i acc; cbn; [done|].
  rewrite Ha. destruct (typeOf2 a) as [t|e]; cbn; [|done].
  destruct (isAssignmentCompatible _ _); cbn; [apply IH|done].
Qed.

(** X5.  The type of an expression depends on the scope only through what
    [lookup] answers: two scopes in which every name resolves alike type
    every expression alike.  In particular an expression has the same type
    just inside a block as just outside it. *)
Theorem typing_depends_on_lookup_only sc1 sc2 e :
  (∀ name, lookup_sym sc1 name = lookup_sym sc2 name) →
  analyzeExpr sc1 e = analyzeExpr sc2 e.
Proof.
  intros Heq.
  induction e as [v|v|v|t|name|l op r IHl IHr|op e IH|f args IH]
    using ExprNode_ind; cbn [analyzeExpr]; try reflexivity.
  - by rewrite Heq.
  - by rewrite IHl, IHr.
  - by rewrite IH.
  - rewrite Heq. destruct (lookup_sym sc2 f); [|done].
    destruct (negb (bool_decide (sym_kind _ = _))); [done|].
    destruct (negb (bool_decide (length _ = _))); [done|].
    by apply check_arguments_ext.
Qed.

Lemma typing_depends_on_lookup_only_witness :
  analyzeExpr (new_scope (Some scope_with_g))
    (FunctionCallNode "g" [IntegerNode 1; BoolNode true])
    = analyzeExpr scope_with_g
        (FunctionCallNode "g" [IntegerNode 1; BoolNode true]).
Proof.
  apply typing_depends_on_lookup_only. intros name. reflexivity.
Defined.

(** X6.  Typing an expression raises nothing but the eight typing
    diagnostics: undeclared identifier or function, function used as
    variable, not a function, wrong number of arguments, invalid
    signature, invalid binary or unary operation.  It never raises
    [unreachable_code], a redeclaration, a mismatch of a declaration, an
    assignment or a return, nor a [std::runtime_error]. *)
Theorem typing_raises_typing_diagnostics_only sc e ex :
  analyzeExpr sc e = Throw ex →
  ∃ type context,
    ex = SemanticException type context
    ∧ type ∈ [UNDECLARED_IDENTIFIER; UNDECLARED_FUNCTION;
              FUNCTION_USED_AS_VARIABLE; NOT_A_FUNCTION;
              WRONG_NUMBER_OF_ARGUMENTS; INVALID_SIGNATURE;
              INVALID_BINARY_OPERATION; INVALID_UNARY_OPERATION].
Proof.
  intros H%analyzeExpr_throws. destruct ex as [type context|what];
    [|discriminate].
  exists type, context. split; [done|].
  destruct type; try discriminate H; set_solver.
Qed.

Lemma typing_raises_typing_diagnostics_only_witness :
  ∃ type context,
    analyzeExpr scope_with_g (FunctionCallNode "g" [])
      = Throw (SemanticException type context)
    ∧ type = WRONG_NUMBER_OF_ARGUMENTS.
Proof.
  destruct (typing_raises_typing_diagnostics_only scope_with_g
              (FunctionCallNode "g" [])
              (SemanticException WRONG_NUMBER_OF_ARGUMENTS
                 (CtxArgCount "g" 2 0)) eq_refl)
    as (type & context & Hex & _).
  exists type, context. injection Hex as <- <-. split; reflexivity.
Defined.

Lemma check_arguments_accepts typeOf f paramTypes ret t :
  ∀ args i acc,
    length args + i = length paramTypes →
    check_arguments typeOf f paramTypes ret args i acc = Normal t
    ↔ t = ret
      ∧ Forall2 (λ a p, ∃ ty, typeOf a = Normal ty
                              ∧ isAssignmentCompatible p ty = true)
          args (drop i paramTypes).
Proof.
  induction args as [|a rest IH]; intros i acc Hlen; cbn in *.
  - rewrite drop_ge by lia. split.
    + intros [= <-]. split; [done|constructor].
    + by intros [-> _].
  - assert (Hi : i < length paramTypes) by lia.
    destruct (lookup_lt_is_Some_2 _ _ Hi) as [p Hp].
    rewrite (drop_S _ _ _ Hp). unfold paramType_at. rewrite Hp. cbn.
    destruct (typeOf a) as [ty|e] eqn:Hty; cbn.
    + destruct (isAssignmentCompatible p ty) eqn:Hok; cbn.
      * rewrite IH by lia. split.
        -- intros [-> Hrest]. split; [done|]. constructor; eauto.
        -- intros [-> Hall]. split; [done|].
           by apply Forall2_cons_1 in Hall as [_ ?].
      * split; [discriminate|]. intros [_ Hall].
        apply Forall2_cons_1 in Hall as [(ty' & Hty' & Hok') _].
        congruence.
    + split; [discriminate|]. intros [_ Hall].
      apply Forall2_cons_1 in Hall as [(ty' & Hty' & _) _]. congruence.
Qed.

(** X7.  A call is typed without a diagnostic exactly when its name
    resolves to a function symbol and its arguments, in order, have types
    each accepted by the parameter of the same position (so there are as
    many of the ones as of the others); its type is then the return type of
    the symbol. *)
Theorem call_accepted_iff sc f args t :
  analyzeExpr sc (FunctionCallNode f args) = Normal t
  ↔ ∃ symbol,
      lookup_sym sc f = Some symbol
      ∧ sym_kind symbol = FUNCTION
      ∧ Forall2 (λ a p, ∃ ty, analyzeExpr sc a = Normal ty
                              ∧ isAssignmentCompatible p ty = true)
          args (sym_paramTypes symbol)
      ∧ t = sym_returnType symbol.
Proof.
  cbn [analyzeExpr]. destruct (lookup_sym sc f) as [symbol|] eqn:Hf.
  - destruct (decide (sym_kind symbol = FUNCTION)) as [Hk|Hk].
    + rewrite (bool_decide_eq_true_2 _ Hk). cbn [negb].
      destruct (decide (length args = length (sym_paramTypes symbol)))
        as [Hlen|Hlen].
      * rewrite (bool_decide_eq_true_2 _ Hlen). cbn [negb].
        rewrite check_arguments_accepts by lia. rewrite drop_0. split.
        -- intros [-> Hall]. by exists symbol.
        -- intros (symbol' & [= <-] & _ & Hall & ->). done.
      * rewrite (bool_decide_eq_false_2 _ Hlen). cbn [negb].
        split; [discriminate|].
        intros (symbol' & [= <-] & _ & Hall & _).
        by apply Forall2_length in Hall.
    + rewrite (bool_decide_eq_false_2 _ Hk). cbn [negb].
      split; [discriminate|]. by intros (symbol' & [= <-] & ? & _).
  - split; [discriminate|]. by intros (symbol' & [=] & _).
Qed.

(** ** The first pass *)

Lemma first_repeated_None seen names :
  first_repeated seen names = None
  ↔ NoDup names ∧ ∀ n, n ∈ names → n ∉ seen.
Proof.
  revert seen. induction names as [|n rest IH]; intros seen; cbn.
  - split; [|done]. intros _. split; [constructor|]. by intros n ?%elem_of_nil.
  - destruct (decide (n ∈ seen)) as [Hin|Hnot].
    + rewrite (bool_decide_eq_true_2 _ Hin). split; [discriminate|].
      intros [_ Hfree]. exfalso. apply (Hfree n); [by left|done].
    + rewrite (bool_decide_eq_false_2 _ Hnot), IH, NoDup_cons. split.
      * intros [Hnd Hfree]. split; [split; [|done]|].
        -- intros Hn. apply (Hfree n Hn). by left.
        -- intros m [->|Hm]%elem_of_cons; [done|].
           intros Hs. apply (Hfree m Hm). by right.
      * intros [[Hn Hnd] Hfree]. split; [done|].
        intros m Hm [->|Hs]%elem_of_cons; [done|].
        apply (Hfree m); [by right|done].
Qed.

(** The first pass from a scope that holds function symbols only, under
    the names [seen]. *)
Lemma hoist_first_repeated declarations :
  ∀ s seen,
    (∀ n, n ∈ seen ↔ is_Some (table (currentScope s) !! n)) →
    (∀ n info, table (currentScope s) !! n = Some info →
               sym_kind info = FUNCTION) →
    (hoist declarations s).1
      = match first_repeated seen (function_names declarations) with
        | Some f => Throw (redeclared_function f)
        | None => Normal tt
        end.
Proof.
  induction declarations as [|decl rest IH]; intros s seen Hseen Hkind;
    cbn [hoist function_names]; [done|].
  rewrite run_bind.
  destruct decl; try (rewrite ?run_bind_ret; cbv [ret]; by apply IH).
  cbn [first_repeated]. rewrite run_bind, run_check_not_declared.
  destruct (table (currentScope s) !! name) as [existing|] eqn:Hn.
  - rewrite (bool_decide_eq_true_2 (name ∈ seen)) by (apply Hseen; eauto).
    by rewrite (bool_decide_eq_true_2 _ (Hkind _ _ Hn)).
  - rewrite (bool_decide_eq_false_2 (name ∈ seen))
      by (intros Hin%Hseen; rewrite Hn in Hin; by destruct Hin).
    rewrite run_add_to_current. unfold addSymbol. rewrite Hn. cbn [snd].
    apply IH; cbn.
    + intros n. rewrite elem_of_cons, Hseen.
      destruct (decide (n = name)) as [->|Hne].
      * rewrite lookup_insert_eq. split; eauto.
      * rewrite lookup_insert_ne by done. split; [by intros [?|?]|eauto].
    + intros n info. destruct (decide (n = name)) as [->|Hne].
      * rewrite lookup_insert_eq. by intros [= <-].
      * rewrite lookup_insert_ne by done. apply Hkind.
Qed.

(** X8.  The first pass of [analyzeProgram] fails exactly when two
    top-level functions bear the same name: it then raises
    [redeclared_function] for the first name that repeats an earlier one,
    and never [redeclared_identifier], since the global scope holds nothing
    but functions during that pass.  With pairwise distinct names it ends
    normally. *)
Theorem first_pass_reports_first_repeated_function declarations s :
  (hoist declarations (set_currentScope (new_scope None) s)).1
    = match first_repeated [] (function_names declarations) with
      | Some f => Throw (redeclared_function f)
      | None => Normal tt
      end
  ∧ (∀ f, first_repeated [] (function_names declarations) = Some f →
          (analyzeProgram declarations s).1 = Throw (redeclared_function f))
  ∧ (first_repeated [] (function_names declarations) = None
     ↔ NoDup (function_names declarations)).
Proof.
  assert (Hh : (hoist declarations (set_currentScope (new_scope None) s)).1
               = match first_repeated [] (function_names declarations) with
                 | Some f => Throw (redeclared_function f)
                 | None => Normal tt
                 end).
  { apply hoist_first_repeated; cbn.
    - intros n. rewrite lookup_empty. split; [by intros ?%elem_of_nil|].
      by intros [? [=]].
    - intros n info. by rewrite lookup_empty. }
  split; [exact Hh|]. split.
  - intros f Hf. rewrite Hf in Hh. unfold analyzeProgram.
    rewrite run_bind_modify, run_bind.
    destruct (hoist declarations _) as [[[]|e] s1]; cbn in Hh;
      [discriminate|]. by injection Hh as ->.
  - rewrite first_repeated_None. split; [by intros [? _]|].
    intros Hnd. split; [done|]. by intros n _ ?%elem_of_nil.
Qed.

Lemma first_pass_reports_first_repeated_function_witness :
  (analyzeProgram
     [FunctionDeclNode "f" [] IOTA []; FunctionDeclNode "g" [] IOTA [];
      VarDeclNode false "g" "int" None; FunctionDeclNode "f" [] INT []]
     initial).1
    = Throw (redeclared_function "f").
Proof.
  destruct (first_pass_reports_first_repeated_function
              [FunctionDeclNode "f" [] IOTA []; FunctionDeclNode "g" [] IOTA [];
               VarDeclNode false "g" "int" None;
               FunctionDeclNode "f" [] INT []] initial) as (_ & H & _).
  apply H. reflexivity.
Defined.

(** ** The second pass *)

Lemma walk_keeps declarations :
  ∀ s s',
    walk declarations s = (Normal tt, s') →
    s' = set_currentScope (currentScope s') s
    ∧ scope_extends (currentScope s) (currentScope s').
Proof.
  induction declarations as [|decl rest IH]; intros s s'; cbn [walk].
  - cbv [ret]. intros [= <-]. split; [by destruct s|apply scope_extends_refl].
  - intros H. inv_bind H. destruct a.
    destruct decl;
      try (cbv [ret] in H0; assert (s0 = s) as -> by congruence;
           by apply IH).
    + apply analyzeVarDecl_normal in H0 as ->.
      destruct (IH _ _ H) as [Hs Hext]. cbn in Hs, Hext. split; [done|].
      eapply scope_extends_trans; [apply addSymbol_extends|exact Hext].
    + apply keeps_state_analyzeFunctionDecl in H0 as ->. by apply IH.
Qed.

(** X9.  A top-level variable or constant that bears the name of a
    top-level function is rejected at its own declaration with
    [redeclared_function], wherever the function stands in the source,
    before or after it: the function is in the global scope since the first
    pass. *)
Theorem variable_named_as_function
    before isConstant f typeNode initializer after s s1 s2 :
  let declarations :=
    before ++ VarDeclNode isConstant f typeNode initializer :: after in
  f ∈ function_names declarations →
  isUnreachable s = false →
  hoist declarations (set_currentScope (new_scope None) s)
    = (Normal tt, s1) →
  walk before s1 = (Normal tt, s2) →
  (analyzeProgram declarations s).1 = Throw (redeclared_function f).
Proof.
  intros declarations Hf Hreach Hh Hw.
  destruct (hoist_normal _ _ _ Hh) as (Hs1 & _ & Hfun & _).
  destruct (Hfun f Hf) as (ps & r & body & _ & Hl).
  destruct (walk_keeps _ _ _ Hw) as (Hs2 & _ & Hsub).
  pose proof (lookup_weaken _ _ _ _ Hl Hsub) as Hl2.
  assert (Hthrow :
    analyzeVarDecl isConstant f typeNode initializer s2
      = (Throw (redeclared_function f), s2)).
  { unfold analyzeVarDecl.
    rewrite run_bind, run_check_reachable.
    replace (isUnreachable s2) with false
      by (rewrite Hs2, Hs1; cbn; by rewrite Hreach).
    by rewrite run_bind, run_check_not_declared, Hl2. }
  unfold analyzeProgram. rewrite run_bind_modify.
  rewrite (run_bind_normal _ _ _ _ _ Hh).
  unfold declarations. rewrite walk_app, (run_bind_normal _ _ _ _ _ Hw).
  cbn [walk]. by rewrite (run_bind_throw _ _ _ _ _ Hthrow).
Qed.

Lemma variable_named_as_function_witness :
  (analyzeProgram variable_before_function initial).1
    = Throw (redeclared_function "f").
Proof.
  pose (s0 := set_currentScope (new_scope None) initial).
  pose (s1 := (hoist variable_before_function s0).2).
  apply (variable_named_as_function [] false "f" "int"
           (Some (IntegerNode 1)) [FunctionDeclNode "f" [] IOTA []]
           initial s1 s1).
  - compute_done.
  - reflexivity.
  - vm_compute. reflexivity.
  - reflexivity.
Defined.

Lemma analyzeVarDecl_normal_free c name ty init s s' :
  analyzeVarDecl c name ty init s = (Normal tt, s') →
  table (currentScope s) !! name = None.
Proof.
  unfold analyzeVarDecl. intros H. inv_bind H. inv_bind H.
  apply keeps_state_check_reachable in H0 as ->.
  rewrite run_check_not_declared in H1.
  destruct (table (currentScope s) !! name); [|done].
  by destruct (bool_decide _).
Qed.

Lemma variable_names_elem x declarations :
  x ∈ variable_names declarations
  ↔ ∃ c ty init, VarDeclNode c x ty init ∈ declarations.
Proof.
  induction declarations as [|decl rest IH]; cbn.
  - split; [by intros ?%elem_of_nil|]. by intros (? & ? & ? & ?%elem_of_nil).
  - assert (Hskip : (∀ c y ty init, decl ≠ VarDeclNode c y ty init) →
              x ∈ variable_names rest
              ↔ ∃ c ty init, VarDeclNode c x ty init ∈ decl :: rest).
    { intros Hd. rewrite IH. split.
      - intros (c & ty & init & Hin). exists c, ty, init. by right.
      - intros (c & ty & init & [Heq|Hin]%elem_of_cons); [|eauto].
        by destruct (Hd c x ty init). }
    destruct decl; try (apply Hskip; intros; discriminate).
    rewrite elem_of_cons, IH. split.
    + intros [->|(c & ty & init & Hin)].
      * exists isConstant, typeNode, initializer. by left.
      * exists c, ty, init. by right.
    + intros (c & ty & init & [[= -> -> -> ->]|Hin]%elem_of_cons);
        [by left|right; eauto].
Qed.

(** The second pass, when it ends normally: the variables it met are
    pairwise distinct and were free; each is bound as declared; the rest of
    the table is as before. *)
Lemma walk_table declarations :
  ∀ s s',
    walk declarations s = (Normal tt, s') →
    NoDup (variable_names declarations)
    ∧ (∀ x, x ∈ variable_names declarations →
            table (currentScope s) !! x = None)
    ∧ (∀ x, x ∉ variable_names declarations →
            table (currentScope s') !! x = table (currentScope s) !! x)
    ∧ (∀ c x ty init, VarDeclNode c x ty init ∈ declarations →
         table (currentScope s') !! x
           = Some (SymbolInfo_of x (toDataType ty) VARIABLE c)).
Proof.
  induction declarations as [|decl rest IH]; intros s s'; cbn [walk].
  - cbv [ret]. intros [= <-]. repeat split; try done.
    + constructor.
    + by intros x ?%elem_of_nil.
    + by intros c x ty init ?%elem_of_nil.
  - intros H. inv_bind H. destruct a.
    assert (Hskip : (∀ c y ty init, decl ≠ VarDeclNode c y ty init) →
              variable_names (decl :: rest) = variable_names rest →
              s0 = s →
              NoDup (variable_names (decl :: rest))
              ∧ (∀ x, x ∈ variable_names (decl :: rest) →
                      table (currentScope s) !! x = None)
              ∧ (∀ x, x ∉ variable_names (decl :: rest) →
                      table (currentScope s') !! x
                        = table (currentScope s) !! x)
              ∧ (∀ c x ty init,
                   VarDeclNode c x ty init ∈ decl :: rest →
                   table (currentScope s') !! x
                     = Some (SymbolInfo_of x (toDataType ty) VARIABLE c))).
    { intros Hd -> ->. destruct (IH _ _ H) as (H1 & H2 & H3 & H4).
      repeat split; try done.
      intros c x ty init [Heq|Hin]%elem_of_cons; [|eauto].
      by destruct (Hd c x ty init). }
    destruct decl;
      try (apply Hskip; [intros; discriminate|reflexivity|
                         cbv [ret] in H0; congruence]).
    + pose proof (analyzeVarDecl_normal_free _ _ _ _ _ _ H0) as Hfree.
      apply analyzeVarDecl_normal in H0 as ->.
      destruct (IH _ _ H) as (Hnd & Hfr & Hother & Hbound).
      unfold addSymbol in Hfr, Hother. rewrite Hfree in Hfr, Hother.
      cbn in Hfr, Hother. cbn [variable_names].
      assert (Hnew : name ∉ variable_names rest).
      { intros Hin. specialize (Hfr _ Hin).
        by rewrite lookup_insert_eq in Hfr. }
      repeat split.
      * by apply NoDup_cons.
      * intros x [->|Hx]%elem_of_cons; [done|].
        specialize (Hfr x Hx). destruct (decide (x = name)) as [->|Hne];
          [done|]. by rewrite lookup_insert_ne in Hfr.
      * intros x [Hne Hx]%not_elem_of_cons.
        rewrite (Hother x Hx). by rewrite lookup_insert_ne.
      * intros c x ty init [[= -> -> -> ->]|Hin]%elem_of_cons; [|eauto].
        rewrite (Hother _ Hnew). apply lookup_insert_eq.
    + apply Hskip; [intros; discriminate|reflexivity|].
      by apply keeps_state_analyzeFunctionDecl in H0.
Qed.

(** X10.  A program that is accepted declares each top-level name once,
    functions and variables taken together.  The walker is then as it was
    at the start but for the scope, which is the global scope and binds
    exactly the top-level names: each function to its signature, each
    variable or constant to its declared type and constness. *)
Theorem accepted_program_names declarations s s' :
  analyzeProgram declarations s = (Normal tt, s') →
  NoDup (function_names declarations ++ variable_names declarations)
  ∧ s' = set_currentScope (currentScope s') s
  ∧ parent (currentScope s') = None
  ∧ (∀ x, is_Some (table (currentScope s') !! x)
          ↔ x ∈ function_names declarations ++ variable_names declarations)
  ∧ (∀ f, f ∈ function_names declarations →
       ∃ ps r body,
         FunctionDeclNode f ps r body ∈ declarations
         ∧ table (currentScope s') !! f
             = Some (SymbolInfo_function f (param_type <$> ps) r))
  ∧ (∀ c x ty init, VarDeclNode c x ty init ∈ declarations →
       table (currentScope s') !! x
         = Some (SymbolInfo_of x (toDataType ty) VARIABLE c)).
Proof.
  unfold analyzeProgram. rewrite run_bind_modify. intros H. inv_bind H.
  destruct a.
  pose proof (hoist_first_repeated declarations
                (set_currentScope (new_scope None) s) []) as Hfirst.
  rewrite H0 in Hfirst. cbn [fst] in Hfirst.
  assert (Hndf : NoDup (function_names declarations)).
  { destruct (first_repeated [] (function_names declarations)) eqn:Hr.
    - exfalso. assert (Normal tt = Throw (redeclared_function s1)) as [=].
      apply Hfirst; cbn.
      + intros n. rewrite lookup_empty. split; [by intros ?%elem_of_nil|].
        by intros [? [=]].
      + intros n info. by rewrite lookup_empty.
    - by apply first_repeated_None in Hr as [? _]. }
  clear Hfirst.
  destruct (hoist_normal _ _ _ H0) as (Hs0 & [Hp0 _] & Hfun & Hnf).
  cbn in Hs0, Hp0, Hnf.
  destruct (walk_keeps _ _ _ H) as (Hs' & Hp' & Hsub).
  destruct (walk_table _ _ _ H) as (Hndv & Hfree & Hother & Hbound).
  assert (Hdisj : ∀ x, x ∈ function_names declarations →
                       x ∉ variable_names declarations).
  { intros x Hx Hv. destruct (Hfun x Hx) as (? & ? & ? & _ & Hl).
    rewrite (Hfree x Hv) in Hl. discriminate. }
  repeat split.
  - apply NoDup_app. repeat split; try done.
  - rewrite Hs', Hs0. by destruct s.
  - by rewrite Hp', Hp0.
  - intros Hsome. apply elem_of_app.
    destruct (decide (x ∈ variable_names declarations)) as [Hv|Hv];
      [by right|left].
    rewrite (Hother x Hv) in Hsome.
    destruct (decide (x ∈ function_names declarations)) as [Hf|Hf]; [done|].
    rewrite (Hnf x Hf), lookup_empty in Hsome. by destruct Hsome.
  - intros [Hf|Hv]%elem_of_app.
    + rewrite (Hother x (Hdisj x Hf)).
      destruct (Hfun x Hf) as (? & ? & ? & _ & ->). eauto.
    + apply variable_names_elem in Hv as (c & ty & init & Hin).
      rewrite (Hbound _ _ _ _ Hin). eauto.
  - intros f Hf. destruct (Hfun f Hf) as (ps & r & body & Hin & Hl).
    exists ps, r, body. split; [done|].
    by rewrite (Hother f (Hdisj f Hf)).
  - exact Hbound.
Qed.

Lemma accepted_program_names_witness :
  NoDup (function_names small_program ++ variable_names small_program)
  ∧ table (currentScope (analyzeProgram small_program initial).2) !! "x"
      = Some (SymbolInfo_of "x" INT VARIABLE false).
Proof.
  destruct (accepted_program_names small_program initial
              (analyzeProgram small_program initial).2)
    as (Hnd & _ & _ & _ & _ & Hvar).
  - vm_compute. reflexivity.
  - split; [exact Hnd|].
    apply (Hvar false "x" "int" (Some (IntegerNode 1))).
    apply elem_of_cons. right. apply elem_of_cons. by left.
Defined.

(** ** Parameters *)

Lemma add_parameters_first_repeated parameters :
  ∀ s seen,
    (∀ n, n ∈ seen ↔ is_Some (table (currentScope s) !! n)) →
    (add_parameters parameters s).1
      = match first_repeated seen (param_name <$> parameters) with
        | Some p => Throw (redeclared_identifier p)
        | None => Normal tt
        end.
Proof.
  induction parameters as [|param rest IH]; intros s seen Hseen;
    cbn [add_parameters fmap list_fmap first_repeated]; [done|].
  rewrite run_bind_get, run_bind. unfold existsLocal.
  destruct (table (currentScope s) !! param_name param) as [old|] eqn:Hn.
  - rewrite (bool_decide_eq_true_2 (is_Some (Some old))) by eauto.
    by rewrite (bool_decide_eq_true_2 (param_name param ∈ seen))
      by (apply Hseen; rewrite Hn; eauto).
  - rewrite (bool_decide_eq_false_2 (is_Some None)) by (by intros [? [=]]).
    rewrite (bool_decide_eq_false_2 (param_name param ∈ seen))
      by (intros Hin%Hseen; rewrite Hn in Hin; by destruct Hin).
    cbv [ret]. rewrite run_bind, run_add_to_current.
    unfold addSymbol. rewrite Hn. cbn [snd].
    apply IH. cbn. intros n. rewrite elem_of_cons, Hseen.
    destruct (decide (n = param_name param)) as [->|Hne].
    + rewrite lookup_insert_eq. split; eauto.
    + rewrite lookup_insert_ne by done. split; [by intros [?|?]|eauto].
Qed.

(** X11.  A function two of whose parameters bear the same name is
    rejected with [redeclared_identifier] for the first name that repeats
    an earlier one, whatever its body holds and whatever the enclosing
    scopes bind: the parameters go into a fresh scope and the body is not
    looked at. *)
Theorem repeated_parameter_rejected name parameters returnType bodyItems s p :
  first_repeated [] (param_name <$> parameters) = Some p →
  (analyzeFunctionDecl name parameters returnType bodyItems s).1
    = Throw (redeclared_identifier p).
Proof.
  intros Hp.
  unfold analyzeFunctionDecl, analyzeFunctionDecl_of, enter_function.
  rewrite run_bind, run_bind_get, !run_bind_modify, run_bind.
  match goal with
  | |- context [add_parameters parameters ?sm] =>
      pose proof (add_parameters_first_repeated parameters sm []) as Hrun;
      destruct (add_parameters parameters sm) as [[[]|e] s1]
  end;
    rewrite Hp in Hrun; cbn in Hrun.
  - exfalso. assert (Normal tt = Throw (redeclared_identifier p)) as [=].
    apply Hrun. intros n. rewrite lookup_empty.
    split; [by intros ?%elem_of_nil|by intros [? [=]]].
  - cbn. apply Hrun. intros n. rewrite lookup_empty.
    split; [by intros ?%elem_of_nil|by intros [? [=]]].
Qed.

Lemma repeated_parameter_rejected_witness :
  (analyzeFunctionDecl "f" [MkParam "a" INT; MkParam "b" BOOL; MkParam "a" INT]
     IOTA [PrintStmtNode (IdentifierNode "nowhere")] initial).1
    = Throw (redeclared_identifier "a").
Proof.
  apply repeated_parameter_rejected. reflexivity.
Defined.

Lemma add_parameters_table parameters :
  ∀ s,
    NoDup (param_name <$> parameters) →
    (∀ n, n ∈ param_name <$> parameters →
          table (currentScope s) !! n = None) →
    ∃ s',
      add_parameters parameters s = (Normal tt, s')
      ∧ s' = set_currentScope (currentScope s') s
      ∧ parent (currentScope s') = parent (currentScope s)
      ∧ (∀ p, p ∈ parameters →
           table (currentScope s') !! param_name p
             = Some (SymbolInfo_of (param_name p) (param_type p) VARIABLE
                       false))
      ∧ (∀ x, x ∉ param_name <$> parameters →
           table (currentScope s') !! x = table (currentScope s) !! x).
Proof.
  induction parameters as [|param rest IH]; intros s Hnd Hfree;
    cbn [add_parameters].
  - exists s. repeat split; try done.
    + by destruct s.
    + by intros p ?%elem_of_nil.
  - rewrite fmap_cons in Hnd, Hfree. apply NoDup_cons in Hnd as [Hnew Hnd].
    rewrite run_bind_get. unfold existsLocal.
    assert (Hp : table (currentScope s) !! param_name param = None).
    { apply Hfree, elem_of_cons. by left. }
    rewrite run_bind, bool_decide_eq_false_2
      by (rewrite Hp; by intros [? [=]]).
    cbv [ret]. rewrite run_bind, run_add_to_current.
    unfold addSymbol. rewrite Hp. cbn [snd].
    destruct (IH (set_currentScope
                    {| table := <[param_name param :=
                                    SymbolInfo_of (param_name param)
                                      (param_type param) VARIABLE false]>
                                  (table (currentScope s));
                       parent := parent (currentScope s) |} s) Hnd)
      as (s' & Hrun & Hs' & Hpar & Hbound & Htab).
    { intros n Hn. cbn. rewrite lookup_insert_ne.
      - apply Hfree, elem_of_cons. by right.
      - intros <-. done. }
    exists s'. repeat split; try done.
    + intros p [->|Hin]%elem_of_cons; [|by apply Hbound].
      rewrite (Htab _ Hnew). cbn. apply lookup_insert_eq.
    + intros x Hx. rewrite fmap_cons in Hx.
      apply not_elem_of_cons in Hx as [Hne Hx].
      rewrite (Htab x Hx). cbn. by rewrite lookup_insert_ne.
Qed.

(** X12.  With pairwise distinct parameter names, the body of a function
    starts in a scope of its own that binds the parameters and nothing
    else, each as a variable of its declared type that is no constant, over
    the scope of the declaration: a parameter hides whatever the enclosing
    scopes bind under its name, and every other name resolves as outside.
    The body is analysed in that very scope, so a declaration directly in
    the body that reuses the name of a parameter is rejected with
    [redeclared_identifier]. *)
Theorem parameters_in_scope name parameters returnType s :
  NoDup (param_name <$> parameters) →
  ∃ sb,
    add_parameters parameters (function_prologue name returnType s)
      = (Normal tt, sb)
    ∧ sb = set_currentScope (currentScope sb)
             (function_prologue name returnType s)
    ∧ (∀ bodyItems,
         enter_function analyzeItem name parameters returnType bodyItems s
           = bind (analyzeBlock bodyItems false) (λ _, ret s) sb)
    ∧ (∀ p, p ∈ parameters →
         lookup_sym (currentScope sb) (param_name p)
           = Some (SymbolInfo_of (param_name p) (param_type p) VARIABLE
                     false))
    ∧ (∀ x, x ∉ param_name <$> parameters →
         lookup_sym (currentScope sb) x = lookup_sym (currentScope s) x)
    ∧ (∀ p c ty init rest, p ∈ parameters →
         (analyzeFunctionDecl name parameters returnType
            (VarDeclNode c (param_name p) ty init :: rest) s).1
           = Throw (redeclared_identifier (param_name p))).
Proof.
  intros Hnd.
  destruct (add_parameters_table parameters
              (function_prologue name returnType s) Hnd)
    as (sb & Hrun & Hsb & Hpar & Hbound & Htab); [by intros n _|].
  assert (Henter : ∀ bodyItems,
    enter_function analyzeItem name parameters returnType bodyItems s
      = bind (analyzeBlock bodyItems false) (λ _, ret s) sb).
  { intros bodyItems. unfold enter_function.
    rewrite run_bind_get, !run_bind_modify.
    fold (function_prologue name returnType s).
    by rewrite (run_bind_normal _ _ _ _ _ Hrun). }
  exists sb. repeat split; try done.
  - intros p Hp. by apply lookup_sym_local, Hbound.
  - intros x Hx. rewrite lookup_sym_parent by (by rewrite (Htab x Hx)).
    by rewrite Hpar.
  - intros p c ty init rest Hp.
    unfold analyzeFunctionDecl, analyzeFunctionDecl_of.
    rewrite run_bind, Henter.
    assert (Hthrow :
      analyzeBlock (VarDeclNode c (param_name p) ty init :: rest) false sb
        = (Throw (redeclared_identifier (param_name p)), sb)).
    { rewrite run_analyzeBlock, run_block_loop_cons, analyzeItem_eq.
      cbn [item_of]. unfold analyzeVarDecl.
      rewrite !run_bind, run_check_reachable.
      replace (isUnreachable sb) with false by (by rewrite Hsb).
      rewrite run_bind, run_check_not_declared, (Hbound p Hp). done. }
    by rewrite (run_bind_throw _ _ _ _ _ Hthrow).
Qed.

Lemma parameters_in_scope_witness :
  (analyzeFunctionDecl "f" [MkParam "a" INT; MkParam "b" BOOL] IOTA
     [VarDeclNode false "b" "int" None] initial).1
    = Throw (redeclared_identifier "b").
Proof.
  assert (Hnd : NoDup (param_name <$> [MkParam "a" INT; MkParam "b" BOOL]))
    by compute_done.
  destruct (parameters_in_scope "f" [MkParam "a" INT; MkParam "b" BOOL]
              IOTA initial Hnd) as (sb & _ & _ & _ & _ & _ & Hdecl).
  apply (Hdecl (MkParam "b" BOOL) false "int" None []).
  apply elem_of_cons. right. apply elem_of_cons. by left.
Defined.

(** ** Functions declared inside a block *)

(** X13.  Analysing a function declaration binds nothing: only the first
    pass of [analyzeProgram] inserts function names, and it looks at the
    top level alone.  So where the name of a function is bound by no
    enclosing scope, as for a function declared inside a block, a call to
    it raises [undeclared_function], both in its own body and in the block
    after its declaration. *)
Theorem function_declaration_binds_nothing g parameters returnType args s :
  lookup_sym (currentScope s) g = None →
  (∀ bodyItems,
     g ∉ param_name <$> parameters →
     NoDup (param_name <$> parameters) →
     (analyzeFunctionDecl g parameters returnType
        (PrintStmtNode (FunctionCallNode g args) :: bodyItems) s).1
       = Throw (undeclared_function g))
  ∧ (∀ bodyItems rest s',
       isUnreachable s = false →
       analyzeFunctionDecl g parameters returnType bodyItems s
         = (Normal tt, s') →
       (analyzeBlock
          (FunctionDeclNode g parameters returnType bodyItems
           :: PrintStmtNode (FunctionCallNode g args) :: rest) false s).1
         = Throw (undeclared_function g)).
Proof.
  intros Hg. split.
  - intros bodyItems Hnp Hnd.
    unfold analyzeFunctionDecl, analyzeFunctionDecl_of, enter_function.
    rewrite run_bind, run_bind_get, !run_bind_modify.
    match goal with
    | |- context [bind (add_parameters parameters) _ ?sm] =>
        destruct (add_parameters_normal parameters sm Hnd)
          as (sb & Hrun & Hpar & Hun & Htab); [by intros n _|]
    end.
    rewrite (run_bind_normal _ _ _ _ _ Hrun).
    assert (Hthrow :
      analyzeBlock_of analyzeItem
        (PrintStmtNode (FunctionCallNode g args) :: bodyItems) false sb
        = (Throw (undeclared_function g), sb)).
    { unfold analyzeBlock_of.
      rewrite run_bind_get, run_bind_ret, run_bind, run_block_loop_cons.
      rewrite analyzeItem_eq.
      cbn [item_of isStmtNode analyzeStmt_of isTerminator].
      unfold analyzePrint.
      rewrite !run_bind, run_check_reachable, Hun.
      cbn [isUnreachable set_isUnreachable].
      rewrite !run_bind, run_analyzeExprM. cbn [analyzeExpr].
      rewrite lookup_sym_parent by (rewrite (Htab g Hnp); done).
      rewrite Hpar. cbn. by rewrite Hg. }
    by rewrite (run_bind_throw _ _ _ _ _ Hthrow).
  - intros bodyItems rest s' Hreach Hdecl.
    pose proof (keeps_state_analyzeFunctionDecl _ _ _ _ _ _ _ Hdecl) as ->.
    rewrite run_analyzeBlock, run_block_loop_cons, analyzeItem_eq.
    cbn [item_of]. fold analyzeFunctionDecl.
    rewrite run_bind, Hdecl. cbv [ret].
    rewrite run_block_loop_cons, analyzeItem_eq.
    cbn [item_of isStmtNode analyzeStmt_of isTerminator].
    unfold analyzePrint.
    rewrite !run_bind, run_check_reachable, Hreach.
    rewrite !run_bind, run_analyzeExprM. cbn [analyzeExpr].
    by rewrite Hg.
Qed.

Lemma function_declaration_binds_nothing_witness :
  (analyzeBlock
     [FunctionDeclNode "helper" [] IOTA [];
      PrintStmtNode (FunctionCallNode "helper" [])] false
     (in_function "f" IOTA)).1
    = Throw (undeclared_function "helper").
Proof.
  destruct (function_declaration_binds_nothing "helper" [] IOTA []
              (in_function "f" IOTA) eq_refl) as [_ Hafter].
  apply (Hafter [] [] (in_function "f" IOTA)); reflexivity.
Defined.

(** ** The reachability flag and the return-path check *)

Lemma check_reachable_normal s a s' :
  check_reachable s = (Normal a, s') → isUnreachable s = false ∧ s' = s.
Proof.
  rewrite run_check_reachable. destruct (isUnreachable s); [discriminate|].
  by intros [= _ <-].
Qed.

Lemma starts_reachable {A} (k : M A) s a s' :
  bind check_reachable (λ _, k) s = (Normal a, s') →
  isUnreachable s = false.
Proof.
  intros H. inv_bind H. by apply check_reachable_normal in H0 as [? _].
Qed.

Lemma add_parameters_flag parameters :
  ∀ s s', add_parameters parameters s = (Normal tt, s') →
          isUnreachable s' = isUnreachable s.
Proof.
  induction parameters as [|param rest IH]; intros s s';
    cbn [add_parameters].
  - cbv [ret]. by intros [= <-].
  - rewrite run_bind_get. intros H. inv_bind H.
    assert (s0 = s) as ->.
    { destruct (existsLocal _ _); [discriminate|]. cbv [ret] in H0.
      congruence. }
    rewrite run_bind, run_add_to_current in H. by apply IH in H.
Qed.

Section Flag_of_rules.
Variable item : ASTNode → M bool.

Lemma block_loop_flag block :
  Forall (flag_follows_returns item) block →
  ∀ b s s',
    block_loop item block b s = (Normal tt, s') →
    isUnreachable s'
      = if isUnreachable s then true else paths_loop item_returns block.
Proof.
  induction 1 as [|it rest Hit _ IH]; intros b s s'; cbn [block_loop].
  - cbv [ret]. intros [= <-]. by destruct (isUnreachable s).
  - destruct b; [discriminate|]. intros H. inv_bind H.
    apply Hit in H0. apply IH in H. rewrite H, H0. cbn [paths_loop].
    destruct (isUnreachable s); [done|]. by destruct (item_returns it).
Qed.

Lemma analyzeBlock_of_flag block createNewScope s s' :
  Forall (flag_follows_returns item) block →
  analyzeBlock_of item block createNewScope s = (Normal tt, s') →
  isUnreachable s'
    = if isUnreachable s then true else paths_loop item_returns block.
Proof.
  intros Hitems. unfold analyzeBlock_of. rewrite run_bind_get.
  destruct createNewScope.
  - rewrite run_bind_modify. intros H. inv_bind H. destruct a.
    unfold modify in H. injection H as <-.
    by apply (block_loop_flag _ Hitems) in H0.
  - rewrite run_bind_ret. intros H. inv_bind H. destruct a.
    unfold ret in H. injection H as <-.
    by apply (block_loop_flag _ Hitems) in H0.
Qed.

Lemma analyzeIf_of_flag c thenItems elseItems s s' :
  Forall (flag_follows_returns item) thenItems →
  Forall (flag_follows_returns item) elseItems →
  analyzeIf_of item c thenItems elseItems s = (Normal tt, s') →
  isUnreachable s = false
  ∧ isUnreachable s' = item_returns (IfStmtNode c thenItems elseItems).
Proof.
  intros Ht He H. unfold analyzeIf_of in H.
  inv_bind H. inv_bind H. rewrite run_bind_get in H. inv_bind H.
  apply check_reachable_normal in H0 as [Hreach ->].
  apply keeps_state_check_condition in H1 as ->.
  split; [done|]. destruct a1.
  apply (analyzeBlock_of_flag _ _ _ _ Ht) in H2. rewrite Hreach in H2.
  rewrite run_bind_get, run_bind_modify in H. cbn [item_returns].
  destruct elseItems as [|e0 e].
  - unfold modify in H. by injection H as <-.
  - inv_bind H. destruct a1.
    apply (analyzeBlock_of_flag _ _ _ _ He) in H0. cbn in H0.
    rewrite Hreach in H0. rewrite run_bind_get, H2, H0 in H.
    cbn [paths_loop] in *.
    destruct (_ && _); unfold modify in H; by injection H as <-.
Qed.

Lemma analyzeWhile_of_flag c bodyItems s s' :
  analyzeWhile_of item c bodyItems s = (Normal tt, s') →
  isUnreachable s = false ∧ isUnreachable s' = false.
Proof.
  intros H. unfold analyzeWhile_of in H.
  inv_bind H. inv_bind H. rewrite run_bind_get in H. inv_bind H.
  apply check_reachable_normal in H0 as [Hreach ->].
  apply keeps_state_check_condition in H1 as ->.
  unfold modify in H. by injection H as <-.
Qed.
End Flag_of_rules.

Lemma analyzeItem_flag it : flag_follows_returns analyzeItem it.
Proof.
  induction it as [c t e IHt IHe|c b IHb|n ps r b IHb|it Hleaf]
    using ASTNode_walk_ind; intros s tm s'; rewrite analyzeItem_eq.
  - cbn [item_of isStmtNode analyzeStmt_of isTerminator]. intros H.
    inv_bind H. cbv [ret] in H. injection H as _ <-. destruct a.
    apply analyzeIf_of_flag in H0 as [-> ->]; done.
  - cbn [item_of isStmtNode analyzeStmt_of isTerminator]. intros H.
    inv_bind H. cbv [ret] in H. injection H as _ <-. destruct a.
    by apply analyzeWhile_of_flag in H0 as [-> ->].
  - cbn [item_of]. intros H. inv_bind H. cbv [ret] in H.
    injection H as _ <-. destruct a.
    apply keeps_state_analyzeFunctionDecl_of in H0 as ->.
    by destruct (isUnreachable s).
  - destruct it; try discriminate Hleaf;
      cbn [item_of isStmtNode analyzeStmt_of isTerminator item_returns];
      try (cbv [ret]; rewrite ?run_bind_ret; intros [= _ <-];
           by destruct (isUnreachable s)).
    + intros H. inv_bind H. cbv [ret] in H. injection H as _ <-.
      destruct a. pose proof (starts_reachable _ _ _ _ H0) as Hr.
      apply keeps_state_analyzePrint in H0 as ->. by rewrite Hr.
    + intros H. inv_bind H. cbv [ret] in H. injection H as _ <-.
      destruct a. pose proof (starts_reachable _ _ _ _ H0) as Hr.
      apply keeps_state_analyzeAssignment in H0 as ->. by rewrite Hr.
    + intros H. inv_bind H. rewrite run_bind_modify in H. cbv [ret] in H.
      injection H as _ <-. by rewrite (starts_reachable _ _ _ _ H0).
    + intros H. inv_bind H. cbv [ret] in H. injection H as _ <-. destruct a.
      apply analyzeVarDecl_normal in H0 as ->. cbn.
      by destruct (isUnreachable s).
Qed.

Lemma analyzeItem_flag_all block :
  Forall (flag_follows_returns analyzeItem) block.
Proof. apply Forall_forall. intros it _. apply analyzeItem_flag. Qed.

(** X14.  The two ways the walker has of telling that a block cannot be
    left by falling off its end agree.  When a block that is reached is
    analysed to its end, the reachability flag is up at the end exactly
    when [checkPathsReturn] passes on the block; in particular, when the
    body of a function is analysed to its end, the flag says whether
    [missing_return] is due. *)
Theorem flag_at_end_is_paths_check :
  (∀ block createNewScope s s',
     isUnreachable s = false →
     analyzeBlock block createNewScope s = (Normal tt, s') →
     isUnreachable s' = checkPathsReturn block)
  ∧ (∀ name parameters returnType bodyItems s saved s1,
       enter_function analyzeItem name parameters returnType bodyItems s
         = (Normal saved, s1) →
       isUnreachable s1 = checkPathsReturn bodyItems).
Proof.
  split.
  - intros block createNewScope s s' Hreach H.
    apply (analyzeBlock_of_flag _ _ _ _ _ (analyzeItem_flag_all block)) in H.
    by rewrite Hreach in H.
  - intros name parameters returnType bodyItems s saved s1.
    unfold enter_function. rewrite run_bind_get, !run_bind_modify.
    intros H. inv_bind H. destruct a. apply add_parameters_flag in H0.
    inv_bind H. destruct a. cbv [ret] in H. injection H as _ <-.
    apply (analyzeBlock_of_flag _ _ _ _ _ (analyzeItem_flag_all bodyItems))
      in H1.
    rewrite H0 in H1. exact H1.
Qed.

Lemma flag_at_end_is_paths_check_witness :
  let s := set_currentScope
             (addSymbol (currentScope (in_function "f" INT)) "b"
                (SymbolInfo_of "b" BOOL VARIABLE false)).2
             (in_function "f" INT) in
  isUnreachable (analyzeBlock body_ending_in_if false s).2 = true
  ∧ checkPathsReturn body_ending_in_if = true.
Proof.
  intros s. destruct flag_at_end_is_paths_check as [Hblock _].
  rewrite (Hblock body_ending_in_if false s
             (analyzeBlock body_ending_in_if false s).2).
  - split; reflexivity.
  - reflexivity.
  - vm_compute. reflexivity.
Defined.

(** ** Diagnostics and internal errors *)

Section Raises_only.
Variable E : Exn → Prop.
Hypothesis E_semantic : ∀ t c, E (SemanticException t c).

Lemma raises_only_ret {A} (a : A) : raises_only E (ret a).
Proof. by intros s. Qed.

Lemma raises_only_get : raises_only E get.
Proof. by intros s. Qed.

Lemma raises_only_modify g : raises_only E (modify g).
Proof. by intros s. Qed.

Lemma raises_only_semantic_error {A} t c :
  raises_only E (@semantic_error A t c).
Proof. intros s. apply E_semantic. Qed.

Lemma raises_only_bind {A B} (m : M A) (k : A → M B) :
  raises_only E m → (∀ a, raises_only E (k a)) → raises_only E (bind m k).
Proof.
  intros Hm Hk s. rewrite run_bind. specialize (Hm s).
  destruct (m s) as [[a|e] s1]; [apply Hk|done].
Qed.

Lemma raises_only_analyzeExprM e : raises_only E (analyzeExprM e).
Proof.
  intros s. rewrite run_analyzeExprM.
  destruct (analyzeExpr (currentScope s) e) as [t|ex] eqn:He; [done|].
  apply analyzeExpr_throws in He. destruct ex; [apply E_semantic|done].
Qed.

Ltac raises_steps :=
  repeat first
    [ apply raises_only_ret | apply raises_only_get
    | apply raises_only_modify | apply raises_only_semantic_error
    | apply raises_only_analyzeExprM
    | (apply raises_only_bind; [|intros ?])
    | match goal with
      | |- raises_only _ (match ?x with _ => _ end) => destruct x
      end ].

Lemma raises_only_analyzeVarDecl c name ty init :
  raises_only E (analyzeVarDecl c name ty init).
Proof.
  unfold analyzeVarDecl, check_reachable, check_not_declared, add_to_current.
  raises_steps.
Qed.

Lemma raises_only_analyzeAssignment x e :
  raises_only E (analyzeAssignment x e).
Proof. unfold analyzeAssignment, check_reachable. raises_steps. Qed.

Lemma raises_only_analyzeReturn value : raises_only E (analyzeReturn value).
Proof. unfold analyzeReturn, check_reachable. raises_steps. Qed.

Lemma raises_only_analyzePrint e : raises_only E (analyzePrint e).
Proof. unfold analyzePrint, check_reachable. raises_steps. Qed.

Lemma raises_only_add_parameters parameters :
  raises_only E (add_parameters parameters).
Proof.
  induction parameters as [|param rest IH]; cbn [add_parameters].
  - apply raises_only_ret.
  - unfold add_to_current.
    do 3 (apply raises_only_bind; [raises_steps|intros ?]). exact IH.
Qed.

Variable item : ASTNode → M bool.

Lemma raises_only_block_loop block :
  Forall (λ it, raises_only E (item it)) block →
  ∀ b, raises_only E (block_loop item block b).
Proof.
  induction 1 as [|it rest Hit _ IH]; intros b; cbn [block_loop].
  - apply raises_only_ret.
  - destruct b; [apply raises_only_semantic_error|].
    apply raises_only_bind; [exact Hit|]. intros t. apply IH.
Qed.

Lemma raises_only_analyzeBlock_of block createNewScope :
  Forall (λ it, raises_only E (item it)) block →
  raises_only E (analyzeBlock_of item block createNewScope).
Proof.
  intros Hitems. unfold analyzeBlock_of.
  apply raises_only_bind; [apply raises_only_get|intros s0].
  apply raises_only_bind; [raises_steps|intros _].
  apply raises_only_bind; [by apply raises_only_block_loop|intros _].
  raises_steps.
Qed.

Lemma raises_only_analyzeIf_of c thenItems elseItems :
  Forall (λ it, raises_only E (item it)) thenItems →
  Forall (λ it, raises_only E (item it)) elseItems →
  raises_only E (analyzeIf_of item c thenItems elseItems).
Proof.
  intros Ht He. unfold analyzeIf_of, check_reachable, check_condition.
  do 3 (apply raises_only_bind; [raises_steps|intros ?]).
  apply raises_only_bind; [by apply raises_only_analyzeBlock_of|intros _].
  do 2 (apply raises_only_bind; [raises_steps|intros ?]).
  destruct elseItems as [|e0 rest]; [raises_steps|].
  apply raises_only_bind; [by apply raises_only_analyzeBlock_of|intros _].
  raises_steps.
Qed.

Lemma raises_only_analyzeWhile_of c bodyItems :
  Forall (λ it, raises_only E (item it)) bodyItems →
  raises_only E (analyzeWhile_of item c bodyItems).
Proof.
  intros Hb. unfold analyzeWhile_of, check_reachable, check_condition.
  do 3 (apply raises_only_bind; [raises_steps|intros ?]).
  apply raises_only_bind; [by apply raises_only_analyzeBlock_of|intros _].
  raises_steps.
Qed.

Lemma raises_only_analyzeFunctionDecl_of name parameters returnType
    bodyItems :
  Forall (λ it, raises_only E (item it)) bodyItems →
  raises_only E (analyzeFunctionDecl_of item name parameters returnType
                   bodyItems).
Proof.
  intros Hb.
  unfold analyzeFunctionDecl_of, enter_function, check_return_paths,
    restore_context.
  apply raises_only_bind; [|intros saved; raises_steps].
  do 6 (apply raises_only_bind; [raises_steps|intros ?]).
  apply raises_only_bind; [apply raises_only_add_parameters|intros _].
  apply raises_only_bind; [by apply raises_only_analyzeBlock_of|intros _].
  raises_steps.
Qed.
End Raises_only.

Lemma raises_only_analyzeItem it : raises_only is_semantic (analyzeItem it).
Proof.
  assert (Hsem : ∀ t c, is_semantic (SemanticException t c)) by done.
  induction it as [c t e IHt IHe|c b IHb|n ps r b IHb|it Hleaf]
    using ASTNode_walk_ind; rewrite analyzeItem_eq.
  - cbn [item_of isStmtNode analyzeStmt_of isTerminator].
    apply raises_only_bind; [by apply raises_only_analyzeIf_of|intros _].
    apply raises_only_ret.
  - cbn [item_of isStmtNode analyzeStmt_of isTerminator].
    apply raises_only_bind; [by apply raises_only_analyzeWhile_of|intros _].
    apply raises_only_ret.
  - cbn [item_of].
    apply raises_only_bind;
      [by apply raises_only_analyzeFunctionDecl_of|intros _].
    apply raises_only_ret.
  - destruct it; try discriminate Hleaf;
      cbn [item_of isStmtNode analyzeStmt_of isTerminator];
      repeat first
        [ apply raises_only_ret | apply raises_only_modify
        | by apply raises_only_analyzePrint
        | by apply raises_only_analyzeAssignment
        | by apply raises_only_analyzeReturn
        | by apply raises_only_analyzeVarDecl
        | (apply raises_only_bind; [|intros ?]) ].
Qed.

Lemma raises_only_walk declarations :
  raises_only is_semantic (walk declarations).
Proof.
  assert (Hsem : ∀ t c, is_semantic (SemanticException t c)) by done.
  induction declarations as [|decl rest IH]; cbn [walk].
  - apply raises_only_ret.
  - apply raises_only_bind; [|intros _; exact IH].
    destruct decl; try apply raises_only_ret.
    + by apply raises_only_analyzeVarDecl.
    + apply raises_only_analyzeFunctionDecl_of; [done|].
      apply Forall_forall. intros it _. apply raises_only_analyzeItem.
Qed.

Lemma raises_only_hoist declarations :
  raises_only is_semantic (hoist declarations).
Proof.
  intros s. destruct (hoist declarations s) as [[[]|e] s'] eqn:Hh; [done|].
  by destruct (hoist_throws _ _ _ _ Hh) as [n [[= ->]|[= ->]]].
Qed.

(** X15.  The walk of a program raises diagnostics only: whatever the
    tree holds, [analyzeProgram] never ends with a [std::runtime_error].
    [analyze] raises one in exactly two cases, the null root and the root
    that is no [ProgramNode], each with its own message. *)
Theorem internal_errors_come_from_the_root_only :
  (∀ declarations s e s',
     analyzeProgram declarations s = (Throw e, s') → is_semantic e)
  ∧ (∀ root s what,
       (analyze root s).1 = Throw (runtime_error what)
       ↔ (root = None ∧ what = "AST root is null")
         ∨ ((∃ node, root = Some node ∧ ∀ ds, node ≠ ProgramNode ds)
            ∧ what = "Root is not a ProgramNode")).
Proof.
  assert (Hprog : ∀ declarations s e s',
            analyzeProgram declarations s = (Throw e, s') → is_semantic e).
  { intros declarations s e s' H.
    assert (Hr : raises_only is_semantic (analyzeProgram declarations)).
    { unfold analyzeProgram.
      apply raises_only_bind; [apply raises_only_modify|intros _].
      apply raises_only_bind; [apply raises_only_hoist|intros _].
      apply raises_only_walk. }
    specialize (Hr s). by rewrite H in Hr. }
  split; [exact Hprog|]. intros root s what. split.
  - destruct root as [node|]; cbn [analyze].
    + destruct node; cbn [throw fst];
        try (intros [= <-]; right; split; [|done]; eexists;
             split; [done|]; intros; discriminate).
      destruct (analyzeProgram declarations s) as [[[]|e] s'] eqn:Hrun;
        cbn [fst]; [discriminate|].
      intros [= ->]. by destruct (Hprog _ _ _ _ Hrun).
    + cbn [throw fst]. intros [= <-]. by left.
  - intros [[-> ->]|[(node & -> & Hnode) ->]]; [done|].
    destruct node; try reflexivity. by destruct (Hnode declarations).
Qed.

Lemma internal_errors_come_from_the_root_only_witness :
  (analyze (Some (BlockNode [])) initial).1
    = Throw (runtime_error "Root is not a ProgramNode").
Proof.
  destruct internal_errors_come_from_the_root_only as [_ Hroot].
  apply Hroot. right. split; [|reflexivity].
  exists (BlockNode []). split; [reflexivity|]. intros ds. discriminate.
Defined.

(** ** The first diagnostic wins *)

Lemma block_loop_app_throw item before after :
  ∀ b s e s',
    block_loop item before b s = (Throw e, s') →
    block_loop item (before ++ after) b s = (Throw e, s').
Proof.
  induction before as [|it rest IH]; intros b s e s'; cbn [app].
  - discriminate.
  - rewrite !run_block_loop_cons. destruct b; [done|].
    destruct (item it s) as [[t|e0] s0]; [apply IH|done].
Qed.

(** X16.  The analysis stops at the first diagnostic: when a block raises
    a diagnostic, the same block with any items added at its end raises
    the same diagnostic in the same state; nothing after the failing item
    is looked at. *)
Theorem first_diagnostic_of_block_wins before after createNewScope s e s' :
  analyzeBlock before createNewScope s = (Throw e, s') →
  analyzeBlock (before ++ after) createNewScope s = (Throw e, s').
Proof.
  rewrite !run_analyzeBlock. destruct createNewScope.
  - destruct (block_loop analyzeItem before false _) as [[[]|e0] s0] eqn:Hb;
      [discriminate|].
    intros [= -> ->]. by rewrite (block_loop_app_throw _ _ after _ _ _ _ Hb).
  - apply block_loop_app_throw.
Qed.

Lemma first_diagnostic_of_block_wins_witness :
  (analyzeBlock
     ([PrintStmtNode (IdentifierNode "nowhere")]
      ++ [ReturnStmtNode None; PrintStmtNode (IntegerNode 1)])
     true (in_function "f" IOTA)).1
    = Throw (undeclared_identifier "nowhere").
Proof.
  rewrite (first_diagnostic_of_block_wins
             [PrintStmtNode (IdentifierNode "nowhere")]
             [ReturnStmtNode None; PrintStmtNode (IntegerNode 1)]
             true (in_function "f" IOTA) (undeclared_identifier "nowhere")
             (analyzeBlock [PrintStmtNode (IdentifierNode "nowhere")] true
                (in_function "f" IOTA)).2).
  - reflexivity.
  - vm_compute. reflexivity.
Defined.

(** ** Constants *)

(** X17.  A name declared as a constant cannot be assigned: in a block
    that is reached, once the declaration of a constant is analysed
    without a diagnostic, an assignment to its name as the next item
    raises [assignment_to_constant], whatever is assigned; the value is
    not even typed. *)
Theorem constant_cannot_be_assigned name typeNode initializer value rest s s1 :
  analyzeVarDecl true name typeNode initializer s = (Normal tt, s1) →
  (analyzeBlock
     (VarDeclNode true name typeNode initializer
      :: AssignmentStmtNode name value :: rest) false s).1
    = Throw (assignment_to_constant name).
Proof.
  intros Hdecl.
  pose proof (analyzeVarDecl_normal_free _ _ _ _ _ _ Hdecl) as Hfree.
  assert (Hreach : isUnreachable s = false).
  { unfold analyzeVarDecl in Hdecl. by apply starts_reachable in Hdecl. }
  pose proof (analyzeVarDecl_normal _ _ _ _ _ _ Hdecl) as Hs1.
  rewrite run_analyzeBlock, run_block_loop_cons, analyzeItem_eq.
  cbn [item_of]. rewrite run_bind, Hdecl. cbv [ret].
  rewrite run_block_loop_cons, analyzeItem_eq.
  cbn [item_of isStmtNode analyzeStmt_of isTerminator].
  unfold analyzeAssignment.
  rewrite !run_bind, run_check_reachable.
  replace (isUnreachable s1) with false by (by rewrite Hs1).
  rewrite run_bind_get.
  assert (Hl : lookup_sym (currentScope s1) name
               = Some (SymbolInfo_of name (toDataType typeNode) VARIABLE
                         true)).
  { rewrite Hs1. cbn [currentScope set_currentScope].
    unfold addSymbol. rewrite Hfree. cbn [snd].
    apply lookup_sym_local. cbn [table]. apply lookup_insert_eq. }
  rewrite Hl. reflexivity.
Qed.

Lemma constant_cannot_be_assigned_witness :
  (analyzeBlock
     [VarDeclNode true "k" "int" (Some (IntegerNode 1));
      AssignmentStmtNode "k" (IdentifierNode "nowhere")]
     false (in_function "f" IOTA)).1
    = Throw (assignment_to_constant "k").
Proof.
  pose (s := in_function "f" IOTA).
  apply (constant_cannot_be_assigned "k" "int" (Some (IntegerNode 1))
           (IdentifierNode "nowhere") [] s
           (analyzeVarDecl true "k" "int" (Some (IntegerNode 1)) s).2).
  vm_compute. reflexivity.
Defined.

(** ** The field [hasReturn] *)

Lemma same_but_hasReturn_fields s t :
  same_but_hasReturn s t →
  currentScope s = currentScope t
  ∧ currentFunction s = currentFunction t
  ∧ currentFunctionReturnType s = currentFunctionReturnType t
  ∧ isUnreachable s = isUnreachable t.
Proof. destruct s, t. by intros [= -> -> -> ->]. Qed.

Ltac same_solve :=
  match goal with
  | H : same_but_hasReturn ?s ?t |- _ =>
      destruct s, t; injection H as -> -> -> ->; reflexivity
  end.

Lemma ignores_ret {A} (a : A) : ignores_hasReturn (ret a) (ret a).
Proof. by intros s t Hst. Qed.

Lemma ignores_lift {A} (o : Outcome A) : ignores_hasReturn (lift o) (lift o).
Proof. by intros s t Hst. Qed.

Lemma ignores_semantic_error {A} ty c :
  ignores_hasReturn (@semantic_error A ty c) (semantic_error ty c).
Proof. by intros s t Hst. Qed.

Lemma ignores_modify f g :
  (∀ s t, same_but_hasReturn s t → same_but_hasReturn (f s) (g t)) →
  ignores_hasReturn (modify f) (modify g).
Proof. intros H s t Hst. split; [done|]. by apply H. Qed.

Lemma ignores_bind {A B} (m1 m2 : M A) (k1 k2 : A → M B) :
  ignores_hasReturn m1 m2 →
  (∀ a, ignores_hasReturn (k1 a) (k2 a)) →
  ignores_hasReturn (bind m1 k1) (bind m2 k2).
Proof.
  intros Hm Hk s t Hst. rewrite !run_bind.
  destruct (Hm s t Hst) as [Ho Hs].
  destruct (m1 s) as [[a1|e1] s1], (m2 t) as [[a2|e2] t1]; cbn in Ho, Hs;
    try discriminate Ho.
  - injection Ho as ->. by apply Hk.
  - by injection Ho as ->.
Qed.

Lemma ignores_bind_get {A} (k1 k2 : Analyzer → M A) :
  (∀ s t, same_but_hasReturn s t → ignores_hasReturn (k1 s) (k2 t)) →
  ignores_hasReturn (bind get k1) (bind get k2).
Proof. intros Hk s t Hst. rewrite !run_bind_get. by apply Hk. Qed.

(** A program that is pointwise another one. *)
Lemma ignores_proper {A} (m1 m1' m2 m2' : M A) :
  (∀ s, m1 s = m1' s) → (∀ s, m2 s = m2' s) →
  ignores_hasReturn m1' m2' → ignores_hasReturn m1 m2.
Proof. intros H1 H2 H s t Hst. rewrite H1, H2. by apply H. Qed.

Ltac ignores_get :=
  let s := fresh "s" in
  let t := fresh "t" in
  let Hst := fresh "Hst" in
  apply ignores_bind_get; intros s t Hst;
  let Hsc := fresh in
  let Hf := fresh in
  let Hr := fresh in
  let Hu := fresh in
  destruct (same_but_hasReturn_fields s t Hst) as (Hsc & Hf & Hr & Hu);
  rewrite ?Hsc, ?Hf, ?Hr, ?Hu.

Ltac ignores_steps :=
  repeat lazymatch goal with
    | |- ignores_hasReturn (ret _) _ => apply ignores_ret
    | |- ignores_hasReturn (lift _) _ => apply ignores_lift
    | |- ignores_hasReturn (semantic_error _ _) _ =>
        apply ignores_semantic_error
    | |- ignores_hasReturn (modify _) _ =>
        apply ignores_modify; intros ? ? ?; same_solve
    | |- ignores_hasReturn (bind get _) _ => ignores_get
    | |- ignores_hasReturn (bind _ _) _ => apply ignores_bind; [|intros ?]
    | |- ignores_hasReturn (match ?x with _ => _ end) _ => destruct x
    end.

Lemma ignores_check_reachable :
  ignores_hasReturn check_reachable check_reachable.
Proof. unfold check_reachable. ignores_steps. Qed.

Lemma ignores_check_not_declared name :
  ignores_hasReturn (check_not_declared name) (check_not_declared name).
Proof. unfold check_not_declared. ignores_steps. Qed.

Lemma ignores_analyzeExprM e :
  ignores_hasReturn (analyzeExprM e) (analyzeExprM e).
Proof. unfold analyzeExprM. ignores_steps. Qed.

Lemma ignores_check_condition c :
  ignores_hasReturn (check_condition c) (check_condition c).
Proof.
  unfold check_condition.
  apply ignores_bind; [apply ignores_analyzeExprM|intros t]. ignores_steps.
Qed.

Lemma ignores_add_to_current name info :
  ignores_hasReturn (add_to_current name info) (add_to_current name info).
Proof. unfold add_to_current. ignores_steps. Qed.

Lemma ignores_analyzeVarDecl c name ty init :
  ignores_hasReturn (analyzeVarDecl c name ty init)
    (analyzeVarDecl c name ty init).
Proof.
  unfold analyzeVarDecl.
  apply ignores_bind; [apply ignores_check_reachable|intros _].
  apply ignores_bind; [apply ignores_check_not_declared|intros _].
  apply ignores_bind; [|intros _; apply ignores_add_to_current].
  destruct init; [|apply ignores_ret].
  apply ignores_bind; [apply ignores_analyzeExprM|intros t]. ignores_steps.
Qed.

Lemma ignores_analyzeAssignment x e :
  ignores_hasReturn (analyzeAssignment x e) (analyzeAssignment x e).
Proof.
  unfold analyzeAssignment.
  apply ignores_bind; [apply ignores_check_reachable|intros _].
  ignores_get. destruct (lookup_sym _ _); [|apply ignores_semantic_error].
  destruct (bool_decide _); [apply ignores_semantic_error|].
  destruct (sym_isConstant _); [apply ignores_semantic_error|].
  apply ignores_bind; [apply ignores_analyzeExprM|intros ty]. ignores_steps.
Qed.

Lemma ignores_analyzeReturn value :
  ignores_hasReturn (analyzeReturn value) (analyzeReturn value).
Proof.
  unfold analyzeReturn.
  apply ignores_bind; [apply ignores_check_reachable|intros _].
  ignores_get. destruct (bool_decide _); [apply ignores_semantic_error|].
  apply ignores_bind.
  - destruct value.
    + apply ignores_bind; [apply ignores_analyzeExprM|intros ty].
      ignores_steps.
    + ignores_steps.
  - intros _. ignores_steps.
Qed.

Lemma ignores_analyzePrint e :
  ignores_hasReturn (analyzePrint e) (analyzePrint e).
Proof.
  unfold analyzePrint.
  apply ignores_bind; [apply ignores_check_reachable|intros _].
  apply ignores_bind; [apply ignores_analyzeExprM|intros _].
  apply ignores_ret.
Qed.

Lemma ignores_add_parameters parameters :
  ignores_hasReturn (add_parameters parameters) (add_parameters parameters).
Proof.
  induction parameters as [|param rest IH]; cbn [add_parameters].
  - apply ignores_ret.
  - ignores_get. apply ignores_bind; [ignores_steps|intros _].
    apply ignores_bind; [apply ignores_add_to_current|intros _]. exact IH.
Qed.

Lemma run_analyzeFunctionDecl_of item name parameters returnType bodyItems s :
  analyzeFunctionDecl_of item name parameters returnType bodyItems s
    = match parameters_and_body item parameters bodyItems
              (function_prologue name returnType s) with
      | (Normal _, s1) =>
          bind (check_return_paths name bodyItems)
            (λ _, restore_context s) s1
      | (Throw e, s1) => (Throw e, s1)
      end.
Proof.
  unfold analyzeFunctionDecl_of, enter_function, parameters_and_body.
  rewrite run_bind, run_bind_get, !run_bind_modify.
  fold (function_prologue name returnType s). rewrite !run_bind.
  destruct (add_parameters parameters _) as [[[]|e] s0]; [|done].
  rewrite run_bind. by destruct (analyzeBlock_of _ _ _ _) as [[[]|e] s1].
Qed.

Section Ignores_of_rules.
Variable item : ASTNode → M bool.

Lemma ignores_block_loop block :
  Forall (λ it, ignores_hasReturn (item it) (item it)) block →
  ∀ b, ignores_hasReturn (block_loop item block b) (block_loop item block b).
Proof.
  induction 1 as [|it rest Hit _ IH]; intros b; cbn [block_loop].
  - apply ignores_ret.
  - destruct b; [apply ignores_semantic_error|].
    apply ignores_bind; [exact Hit|]. intros t. apply IH.
Qed.

Lemma ignores_analyzeBlock_of block createNewScope :
  Forall (λ it, ignores_hasReturn (item it) (item it)) block →
  ignores_hasReturn (analyzeBlock_of item block createNewScope)
    (analyzeBlock_of item block createNewScope).
Proof.
  intros Hitems. unfold analyzeBlock_of. ignores_get.
  apply ignores_bind; [ignores_steps|intros _].
  apply ignores_bind; [by apply ignores_block_loop|intros _].
  ignores_steps.
Qed.

Lemma ignores_analyzeIf_of c thenItems elseItems :
  Forall (λ it, ignores_hasReturn (item it) (item it)) thenItems →
  Forall (λ it, ignores_hasReturn (item it) (item it)) elseItems →
  ignores_hasReturn (analyzeIf_of item c thenItems elseItems)
    (analyzeIf_of item c thenItems elseItems).
Proof.
  intros Ht He. unfold analyzeIf_of.
  apply ignores_bind; [apply ignores_check_reachable|intros _].
  apply ignores_bind; [apply ignores_check_condition|intros _].
  ignores_get.
  apply ignores_bind; [by apply ignores_analyzeBlock_of|intros _].
  ignores_get. apply ignores_bind; [ignores_steps|intros _].
  destruct elseItems as [|e0 rest]; [ignores_steps|].
  apply ignores_bind; [by apply ignores_analyzeBlock_of|intros _].
  ignores_get. destruct (_ && _); ignores_steps.
Qed.

Lemma ignores_analyzeWhile_of c bodyItems :
  Forall (λ it, ignores_hasReturn (item it) (item it)) bodyItems →
  ignores_hasReturn (analyzeWhile_of item c bodyItems)
    (analyzeWhile_of item c bodyItems).
Proof.
  intros Hb. unfold analyzeWhile_of.
  apply ignores_bind; [apply ignores_check_reachable|intros _].
  apply ignores_bind; [apply ignores_check_condition|intros _].
  ignores_get.
  apply ignores_bind; [by apply ignores_analyzeBlock_of|intros _].
  ignores_steps.
Qed.

Lemma ignores_analyzeFunctionDecl_of name parameters returnType bodyItems :
  Forall (λ it, ignores_hasReturn (item it) (item it)) bodyItems →
  ignores_hasReturn
    (analyzeFunctionDecl_of item name parameters returnType bodyItems)
    (analyzeFunctionDecl_of item name parameters returnType bodyItems).
Proof.
  intros Hb s t Hst. rewrite !run_analyzeFunctionDecl_of.
  assert (Hpb : ignores_hasReturn
                  (parameters_and_body item parameters bodyItems)
                  (parameters_and_body item parameters bodyItems)).
  { unfold parameters_and_body.
    apply ignores_bind; [apply ignores_add_parameters|intros _].
    by apply ignores_analyzeBlock_of. }
  assert (Hpro : same_but_hasReturn (function_prologue name returnType s)
                   (function_prologue name returnType t)) by same_solve.
  destruct (Hpb _ _ Hpro) as [Ho Hs].
  destruct (parameters_and_body _ _ _ (function_prologue _ _ s))
    as [[[]|e1] s1],
    (parameters_and_body _ _ _ (function_prologue _ _ t)) as [[[]|e2] t1];
    cbn in Ho, Hs; try discriminate Ho; [|by injection Ho as ->].
  assert (Hrest : ignores_hasReturn
            (bind (check_return_paths name bodyItems)
               (λ _, restore_context s))
            (bind (check_return_paths name bodyItems)
               (λ _, restore_context t))).
  { unfold check_return_paths, restore_context.
    apply ignores_bind; [ignores_steps|intros _].
    destruct (same_but_hasReturn_fields s t Hst) as (Hsc & Hf & Hr & Hu).
    rewrite Hsc, Hf, Hr, Hu. ignores_steps. }
  by apply Hrest.
Qed.
End Ignores_of_rules.

Lemma ignores_analyzeItem it :
  ignores_hasReturn (analyzeItem it) (analyzeItem it).
Proof.
  induction it as [c t e IHt IHe|c b IHb|n ps r b IHb|it Hleaf]
    using ASTNode_walk_ind; rewrite analyzeItem_eq.
  - cbn [item_of isStmtNode analyzeStmt_of isTerminator].
    apply ignores_bind; [by apply ignores_analyzeIf_of|intros _].
    apply ignores_ret.
  - cbn [item_of isStmtNode analyzeStmt_of isTerminator].
    apply ignores_bind; [by apply ignores_analyzeWhile_of|intros _].
    apply ignores_ret.
  - cbn [item_of].
    apply ignores_bind; [by apply ignores_analyzeFunctionDecl_of|intros _].
    apply ignores_ret.
  - destruct it; try discriminate Hleaf;
      cbn [item_of isStmtNode analyzeStmt_of isTerminator];
      repeat first
        [ apply ignores_ret
        | apply ignores_analyzePrint | apply ignores_analyzeAssignment
        | apply ignores_analyzeReturn | apply ignores_analyzeVarDecl
        | (apply ignores_modify; intros ? ? ?; same_solve)
        | (apply ignores_bind; [|intros ?]) ].
Qed.

Lemma ignores_all_items block :
  Forall (λ it, ignores_hasReturn (analyzeItem it) (analyzeItem it)) block.
Proof. apply Forall_forall. intros it _. apply ignores_analyzeItem. Qed.

Lemma ignores_hoist declarations :
  ignores_hasReturn (hoist declarations) (hoist declarations).
Proof.
  induction declarations as [|decl rest IH]; cbn [hoist].
  - apply ignores_ret.
  - apply ignores_bind; [|intros _; exact IH].
    destruct decl; try apply ignores_ret.
    apply ignores_bind; [apply ignores_check_not_declared|intros _].
    apply ignores_add_to_current.
Qed.

Lemma ignores_walk declarations :
  ignores_hasReturn (walk declarations) (walk declarations).
Proof.
  induction declarations as [|decl rest IH]; cbn [walk].
  - apply ignores_ret.
  - apply ignores_bind; [|intros _; exact IH].
    destruct decl; try apply ignores_ret.
    + apply ignores_analyzeVarDecl.
    + apply ignores_analyzeFunctionDecl_of, ignores_all_items.
Qed.

(** X18.  The field [hasReturn] is written and never read: started in two
    states that differ at most in that field, the walk of a program, and
    the analysis of a block, end with the same outcome, the same
    diagnostic if there is one, in states that again differ at most in
    that field. *)
Theorem hasReturn_is_never_read s t :
  same_but_hasReturn s t →
  (∀ declarations,
     (analyzeProgram declarations s).1 = (analyzeProgram declarations t).1
     ∧ same_but_hasReturn (analyzeProgram declarations s).2
         (analyzeProgram declarations t).2)
  ∧ (∀ block createNewScope,
       (analyzeBlock block createNewScope s).1
         = (analyzeBlock block createNewScope t).1
       ∧ same_but_hasReturn (analyzeBlock block createNewScope s).2
           (analyzeBlock block createNewScope t).2).
Proof.
  intros Hst. split.
  - intros declarations.
    assert (H : ignores_hasReturn (analyzeProgram declarations)
                  (analyzeProgram declarations)).
    { unfold analyzeProgram.
      apply ignores_bind; [ignores_steps|intros _].
      apply ignores_bind; [apply ignores_hoist|intros _].
      apply ignores_walk. }
    by apply H.
  - intros block createNewScope.
    by apply (ignores_analyzeBlock_of _ _ _ (ignores_all_items block)).
Qed.

Lemma hasReturn_is_never_read_witness :
  (analyzeBlock body_ending_in_if false
     (set_hasReturn true (in_function "f" INT))).1
    = (analyzeBlock body_ending_in_if false (in_function "f" INT)).1.
Proof.
  destruct (hasReturn_is_never_read
              (set_hasReturn true (in_function "f" INT))
              (in_function "f" INT) eq_refl) as [_ Hblock].
  apply Hblock.
Defined.

(** ** Returns outside a function *)

Lemma stays_ret {A} (a : A) : stays_inside_function (ret a).
Proof. by intros s Hs. Qed.

Lemma stays_semantic_error {A} ty c :
  ty ≠ RETURN_OUTSIDE_FUNCTION →
  stays_inside_function (@semantic_error A ty c).
Proof. intros Hty s Hs [= -> _]. done. Qed.

Lemma stays_bind {A B} (m : M A) (k : A → M B) :
  stays_inside_function m → (∀ a, stays_inside_function (k a)) →
  stays_inside_function (bind m k).
Proof.
  intros Hm Hk s Hs. rewrite run_bind. specialize (Hm s Hs).
  destruct (m s) as [[a|e] s1]; [by apply Hk|done].
Qed.

Lemma stays_bind_get {A} (k : Analyzer → M A) :
  (∀ s0, currentFunction s0 ≠ "" → stays_inside_function (k s0)) →
  stays_inside_function (bind get k).
Proof. intros Hk s Hs. rewrite run_bind_get. by apply Hk. Qed.

Lemma stays_modify g :
  (∀ s, currentFunction (g s) = currentFunction s) →
  stays_inside_function (modify g).
Proof. intros Hg s Hs. cbn. by rewrite Hg. Qed.

Lemma stays_analyzeExprM e : stays_inside_function (analyzeExprM e).
Proof.
  intros s Hs. rewrite run_analyzeExprM.
  destruct (analyzeExpr (currentScope s) e) as [t|ex] eqn:He; [done|].
  apply analyzeExpr_throws in He. by intros ->.
Qed.

Ltac stays_steps :=
  repeat lazymatch goal with
    | |- stays_inside_function (ret _) => apply stays_ret
    | |- stays_inside_function (analyzeExprM _) => apply stays_analyzeExprM
    | |- stays_inside_function (semantic_error _ _) =>
        apply stays_semantic_error; discriminate
    | |- stays_inside_function (modify _) =>
        apply stays_modify; intros ?; reflexivity
    | |- stays_inside_function (bind get _) =>
        apply stays_bind_get; intros ? ?
    | |- stays_inside_function (bind _ _) => apply stays_bind; [|intros ?]
    | |- stays_inside_function (match ?x with _ => _ end) => destruct x
    end.

Lemma stays_analyzeVarDecl c name ty init :
  stays_inside_function (analyzeVarDecl c name ty init).
Proof.
  unfold analyzeVarDecl, check_reachable, check_not_declared, add_to_current.
  stays_steps.
Qed.

Lemma stays_analyzeAssignment x e :
  stays_inside_function (analyzeAssignment x e).
Proof. unfold analyzeAssignment, check_reachable. stays_steps. Qed.

Lemma stays_analyzePrint e : stays_inside_function (analyzePrint e).
Proof. unfold analyzePrint, check_reachable. stays_steps. Qed.

Lemma stays_analyzeReturn value : stays_inside_function (analyzeReturn value).
Proof.
  unfold analyzeReturn, check_reachable.
  apply stays_bind; [stays_steps|intros _].
  apply stays_bind_get. intros s0 Hs0.
  rewrite bool_decide_eq_false_2 by done. stays_steps.
Qed.

Lemma stays_add_parameters parameters :
  stays_inside_function (add_parameters parameters).
Proof.
  induction parameters as [|param rest IH]; cbn [add_parameters].
  - apply stays_ret.
  - unfold add_to_current. apply stays_bind_get. intros s0 _.
    do 2 (apply stays_bind; [stays_steps|intros ?]). exact IH.
Qed.

Section Stays_of_rules.
Variable item : ASTNode → M bool.

Lemma stays_block_loop block :
  Forall (λ it, stays_inside_function (item it)) block →
  ∀ b, stays_inside_function (block_loop item block b).
Proof.
  induction 1 as [|it rest Hit _ IH]; intros b; cbn [block_loop].
  - apply stays_ret.
  - destruct b; [apply stays_semantic_error; discriminate|].
    apply stays_bind; [exact Hit|]. intros t. apply IH.
Qed.

Lemma stays_analyzeBlock_of block createNewScope :
  Forall (λ it, stays_inside_function (item it)) block →
  stays_inside_function (analyzeBlock_of item block createNewScope).
Proof.
  intros Hitems. unfold analyzeBlock_of.
  apply stays_bind_get. intros s0 _.
  apply stays_bind; [stays_steps|intros _].
  apply stays_bind; [by apply stays_block_loop|intros _].
  stays_steps.
Qed.

Lemma stays_analyzeIf_of c thenItems elseItems :
  Forall (λ it, stays_inside_function (item it)) thenItems →
  Forall (λ it, stays_inside_function (item it)) elseItems →
  stays_inside_function (analyzeIf_of item c thenItems elseItems).
Proof.
  intros Ht He. unfold analyzeIf_of, check_reachable, check_condition.
  do 2 (apply stays_bind; [stays_steps|intros ?]).
  apply stays_bind_get. intros s0 _.
  apply stays_bind; [by apply stays_analyzeBlock_of|intros _].
  apply stays_bind_get. intros s1 _.
  apply stays_bind; [stays_steps|intros _].
  destruct elseItems as [|e0 rest]; [stays_steps|].
  apply stays_bind; [by apply stays_analyzeBlock_of|intros _].
  stays_steps.
Qed.

Lemma stays_analyzeWhile_of c bodyItems :
  Forall (λ it, stays_inside_function (item it)) bodyItems →
  stays_inside_function (analyzeWhile_of item c bodyItems).
Proof.
  intros Hb. unfold analyzeWhile_of, check_reachable, check_condition.
  do 2 (apply stays_bind; [stays_steps|intros ?]).
  apply stays_bind_get. intros s0 _.
  apply stays_bind; [by apply stays_analyzeBlock_of|intros _].
  stays_steps.
Qed.

(** A function with a name, from any state at all. *)
Lemma analyzeFunctionDecl_of_never_outside name parameters returnType
    bodyItems s :
  name ≠ "" →
  Forall (λ it, stays_inside_function (item it)) bodyItems →
  (analyzeFunctionDecl_of item name parameters returnType bodyItems s).1
    ≠ Throw return_outside_function.
Proof.
  intros Hname Hb. rewrite run_analyzeFunctionDecl_of.
  assert (Hpb : stays_inside_function
                  (parameters_and_body item parameters bodyItems)).
  { unfold parameters_and_body.
    apply stays_bind; [apply stays_add_parameters|intros _].
    by apply stays_analyzeBlock_of. }
  specialize (Hpb (function_prologue name returnType s) Hname).
  destruct (parameters_and_body _ _ _ _) as [[[]|e] s1]; cbn.
  - unfold check_return_paths. rewrite run_bind, run_bind_get.
    destruct (negb (bool_decide _)); [destruct (negb _)|]; cbn;
      rewrite ?run_restore_context; discriminate.
  - by intros [= ->].
Qed.
End Stays_of_rules.

Lemma stays_analyzeItem it :
  functions_named it = true → stays_inside_function (analyzeItem it).
Proof.
  induction it as [c t e IHt IHe|c b IHb|n ps r b IHb|it Hleaf]
    using ASTNode_walk_ind; rewrite analyzeItem_eq;
    cbn [functions_named]; intros Hnamed.
  - apply andb_true_iff in Hnamed as [Ht He].
    cbn [item_of isStmtNode analyzeStmt_of isTerminator].
    apply stays_bind; [|intros _; apply stays_ret].
    apply stays_analyzeIf_of; apply Forall_forall; intros it Hin.
    + apply (proj1 (Forall_forall _ _) IHt it Hin).
      apply (proj1 (forallb_forall _ _) Ht). by apply list_elem_of_In.
    + apply (proj1 (Forall_forall _ _) IHe it Hin).
      apply (proj1 (forallb_forall _ _) He). by apply list_elem_of_In.
  - cbn [item_of isStmtNode analyzeStmt_of isTerminator].
    apply stays_bind; [|intros _; apply stays_ret].
    apply stays_analyzeWhile_of; apply Forall_forall; intros it Hin.
    apply (proj1 (Forall_forall _ _) IHb it Hin).
    apply (proj1 (forallb_forall _ _) Hnamed). by apply list_elem_of_In.
  - apply andb_true_iff in Hnamed as [Hn Hb].
    apply negb_true_iff, bool_decide_eq_false in Hn.
    cbn [item_of]. intros s Hs. rewrite run_bind.
    pose proof (analyzeFunctionDecl_of_never_outside analyzeItem n ps r b s
                  Hn) as Hrun.
    destruct (analyzeFunctionDecl_of analyzeItem n ps r b s)
      as [[[]|e] s1] eqn:Hd.
    + apply keeps_state_analyzeFunctionDecl_of in Hd as ->. exact Hs.
    + intros ->. apply Hrun; [|done].
      apply Forall_forall; intros it Hin.
      apply (proj1 (Forall_forall _ _) IHb it Hin).
      apply (proj1 (forallb_forall _ _) Hb). by apply list_elem_of_In.
  - destruct it; try discriminate Hleaf;
      cbn [item_of isStmtNode analyzeStmt_of isTerminator];
      repeat first
        [ apply stays_ret
        | apply stays_analyzePrint | apply stays_analyzeAssignment
        | apply stays_analyzeReturn | apply stays_analyzeVarDecl
        | (apply stays_modify; intros ?; reflexivity)
        | (apply stays_bind; [|intros ?]) ].
Qed.

Lemma walk_never_outside declarations :
  forallb functions_named declarations = true →
  ∀ s, (walk declarations s).1 ≠ Throw return_outside_function.
Proof.
  induction declarations as [|decl rest IH]; intros Hnamed s; cbn [walk].
  - discriminate.
  - cbn [forallb] in Hnamed. apply andb_true_iff in Hnamed as [Hd Hrest].
    rewrite run_bind.
    destruct decl; try (rewrite ?run_bind_ret; cbv [ret]; by apply IH).
    + destruct (analyzeVarDecl isConstant name typeNode initializer s)
        as [[[]|e] s1] eqn:Hrun; [by apply IH|].
      unfold analyzeVarDecl, check_reachable, check_not_declared in Hrun.
      intros [= ->]. revert Hrun. clear.
      rewrite run_bind, run_bind_get.
      destruct (isUnreachable s); [discriminate|]. cbv [ret].
      rewrite run_bind, run_bind_get.
      destruct (existsLocal _ _).
      { destruct (lookupLocal _ _); [destruct (bool_decide _)|];
          discriminate. }
      cbv [ret]. rewrite run_bind.
      destruct initializer as [init|]; [|discriminate].
      rewrite run_bind, run_analyzeExprM.
      destruct (analyzeExpr _ init) as [t|ex] eqn:He.
      * destruct (negb _); discriminate.
      * apply analyzeExpr_throws in He. intros [= ->]. discriminate.
    + cbn [functions_named] in Hd. apply andb_true_iff in Hd as [Hn Hb].
      apply negb_true_iff, bool_decide_eq_false in Hn.
      pose proof (analyzeFunctionDecl_of_never_outside analyzeItem name
                    parameters returnType bodyItems s Hn) as Hrun.
      unfold analyzeFunctionDecl.
      destruct (analyzeFunctionDecl_of analyzeItem name parameters
                  returnType bodyItems s) as [[[]|e] s1]; [by apply IH|].
      apply Hrun. apply Forall_forall. intros it Hin.
      apply stays_analyzeItem.
      apply (proj1 (forallb_forall _ _) Hb). by apply list_elem_of_In.
Qed.

(** X19.  [return_outside_function] is out of reach of [analyze] on trees
    whose functions have names: when every function declaration the walk
    enters has a name other than the empty string, the walk of the program
    never raises it, from any state.  A [return] is only ever analysed in
    the body of a function, where the test is on the name of that
    function. *)
Theorem return_outside_function_needs_unnamed_function declarations s :
  forallb functions_named declarations = true →
  (analyzeProgram declarations s).1 ≠ Throw return_outside_function.
Proof.
  intros Hnamed. unfold analyzeProgram. rewrite run_bind_modify, run_bind.
  destruct (hoist declarations _) as [[[]|e] s1] eqn:Hh.
  - by apply walk_never_outside.
  - intros [= ->].
    by destruct (hoist_throws _ _ _ _ Hh) as [n [[=]|[=]]].
Qed.

Lemma return_outside_function_needs_unnamed_function_witness :
  (analyzeProgram small_program initial).1 ≠ Throw return_outside_function
  ∧ (analyzeProgram [FunctionDeclNode "" [] IOTA [ReturnStmtNode None]]
       initial).1 = Throw return_outside_function.
Proof.
  split; [|reflexivity].
  apply return_outside_function_needs_unnamed_function. reflexivity.
Defined.
